(** * Nebula: path macros, block manager and spec repository

    A shallow embedding of three pieces of the Nebula coordinator:

    - [meta/Macro.h]: the [PatternMacro] enumeration and the static helpers
      of class [Macro] ([seconds], [extract], [materialize], ...);
    - [execution/BlockManager.h]: the per-node table-state map and the
      empty-spec set ([states], [tables], [activeSpecs], ...);
    - [ingest/SpecRepo.cpp]: the reconciliation loop ([expire], [assign],
      [lost], [resetSpec]).

    Strings are [string]; machine integers are [Z] with the wrap-around
    written out where the source narrows; [std::unordered_set<string>] is a
    [gset string]; containers whose iteration order is observable are
    association lists in iteration order; [shared_ptr<Spec>] is a pointer
    into an explicit store. *)

From Stdlib Require Import ZArith Ascii String List Lia.
From Stdlib Require Import Numbers.DecimalString Numbers.DecimalZ Sorting.Sorted.
From stdpp Require Import base option gmap strings list sorting.

Set Warnings "-clear-no-such-hyp".

Local Open Scope string_scope.
Local Open Scope Z_scope.

(** ** Characters and strings *)

Module Chars.

Definition is_upper (c : ascii) : bool :=
  let n := nat_of_ascii c in ((65 <=? n) && (n <=? 90))%nat.

(** [std::tolower] in the classic locale. *)
Definition tolower (c : ascii) : ascii :=
  if is_upper c then ascii_of_nat (nat_of_ascii c + 32) else c.

(** Modelled from the spec: [nebula::common::Chars::lower] (common/Chars.h
    is not part of the sources at hand); "lowercases the captured name",
    in place, byte by byte. *)
Fixpoint lower (s : string) : string :=
  match s with
  | EmptyString => EmptyString
  | String c s' => String (tolower c) (lower s')
  end.

(** The character class [\w] of an ECMAScript [std::regex]:
    letters, digits and the underscore. *)
Definition is_word (c : ascii) : bool :=
  let n := nat_of_ascii c in
  (((48 <=? n) && (n <=? 57)) || ((65 <=? n) && (n <=? 90))
   || ((97 <=? n) && (n <=? 122)) || (n =? 95))%nat.

Definition lbrace : ascii := "{"%char.
Definition rbrace : ascii := "}"%char.

End Chars.

(** ** Regular expressions used by [Macro]

  Only two shapes of [std::regex] occur in Macro.h: the pattern
  [\{(\w+)\}] iterated with [std::sregex_iterator], and the literal
  patterns [\{date\}], ... used with [std::regex_replace]; all are
  compiled with [std::regex_constants::icase]. *)

Module Regex.
Import Chars.

(** Longest run of [\w] characters at the head of [s] (the greedy [\w+]),
    and what follows it. *)
Fixpoint span_word (s : string) : string * string :=
  match s with
  | EmptyString => (EmptyString, EmptyString)
  | String c s' =>
      if is_word c
      then let '(w, r) := span_word s' in (String c w, r)
      else (EmptyString, s)
  end.

(** A match of [\{(\w+)\}] anchored at the head of [s]; the result is the
    text of group 1.  As [}] is not a word character, the greedy run is
    the only candidate for the group. *)
Definition match_here (s : string) : option string :=
  match s with
  | EmptyString => None
  | String c r =>
      if Ascii.eqb c lbrace then
        match span_word r with
        | (String w0 w, String c' _) =>
            if Ascii.eqb c' rbrace then Some (String w0 w) else None
        | _ => None
        end
      else None
  end.

(** [std::sregex_iterator] over [s]: the leftmost match, then the leftmost
    match after its end, and so on.  [skip] counts the characters of the
    current match that are still to be passed over. *)
Fixpoint search_from (skip : nat) (s : string) : list string :=
  match s with
  | EmptyString => []
  | String _ s' =>
      match skip with
      | S k => search_from k s'
      | O =>
          match match_here s with
          | Some w => w :: search_from (S (String.length w)) s'
          | None => search_from 0 s'
          end
      end
  end.

Definition sregex_iterator (s : string) : list string := search_from 0 s.

(** Does the literal [pat] match at the head of [s], ignoring case? *)
Fixpoint prefix_icase (pat s : string) : bool :=
  match pat, s with
  | EmptyString, _ => true
  | String p pat', String c s' =>
      Ascii.eqb (tolower p) (tolower c) && prefix_icase pat' s'
  | String _ _, EmptyString => false
  end.

(** [std::regex_replace(s, regex(pat, icase), fmt)] for a literal, non-empty
    [pat] and a format string without [$]: every non-overlapping match,
    from the left, is replaced by [fmt]; the rest is copied. *)
Fixpoint replace_from (pat fmt : string) (skip : nat) (s : string) : string :=
  match s with
  | EmptyString => EmptyString
  | String c s' =>
      match skip with
      | S k => replace_from pat fmt k s'
      | O =>
          if prefix_icase pat s
          then fmt ++ replace_from pat fmt (String.length pat - 1) s'
          else String c (replace_from pat fmt 0 s')
      end
  end.

Definition regex_replace (s pat fmt : string) : string :=
  replace_from pat fmt 0 s.

End Regex.

(** ** Time formatting *)

Module Evidence.

(** Modelled from the spec: the constants [DAY_SECONDS], [HOUR_SECONDS]
    and [MINUTE_SECONDS] of [nebula::common::Evidence] (common/Evidence.h
    is not part of the sources at hand); "DAILY=86400, HOURLY=3600,
    MINUTELY=60". *)
Definition MINUTE_SECONDS : Z := 60.
Definition HOUR_SECONDS : Z := 3600.
Definition DAY_SECONDS : Z := 86400.

(** [std::to_string] of a [time_t]. *)
Definition to_string (z : Z) : string := NilZero.string_of_int (Z.to_int z).

Definition pad (width : nat) (z : Z) : string :=
  let s := to_string z in
  string_of_list_ascii (repeat "0"%char (width - String.length s)) ++ s.

(** Days since 1970-01-01 to the proleptic Gregorian (year, month, day). *)
Definition civil_from_days (days : Z) : Z * Z * Z :=
  let z := days + 719468 in
  let era := z / 146097 in
  let doe := z - era * 146097 in
  let yoe := (doe - doe / 1460 + doe / 36524 - doe / 146096) / 365 in
  let doy := doe - (365 * yoe + yoe / 4 - yoe / 100) in
  let mp := (5 * doy + 2) / 153 in
  let d := doy - (153 * mp + 2) / 5 + 1 in
  let m := if mp <? 10 then mp + 3 else mp - 9 in
  let y := yoe + era * 400 + (if m <=? 2 then 1 else 0) in
  (y, m, d).

(** Modelled from the spec: [Evidence::fmt_ymd_dash], [fmt_hour],
    [fmt_minute] and [fmt_second] (common/Evidence.h is not part of the
    sources at hand).  "Rendered forms per macro: DAILY -> YYYY-MM-DD,
    HOURLY -> HH (00-23), MINUTELY -> MM (00-59), SECONDLY -> SS (00-59)",
    in UTC as the spec's first scenario has it. *)
Definition fmt_ymd_dash (w : Z) : string :=
  let '(y, m, d) := civil_from_days (w / DAY_SECONDS) in
  pad 4 y ++ "-" ++ pad 2 m ++ "-" ++ pad 2 d.

Definition fmt_hour (w : Z) : string := pad 2 ((w mod DAY_SECONDS) / HOUR_SECONDS).
Definition fmt_minute (w : Z) : string := pad 2 ((w mod HOUR_SECONDS) / MINUTE_SECONDS).
Definition fmt_second (w : Z) : string := pad 2 (w mod MINUTE_SECONDS).

End Evidence.

(** ** [enum PatternMacro : uint8_t] *)

Module PatternMacro.

Inductive t : Set := DAILY | HOURLY | MINUTELY | SECONDLY | TIMESTAMP | INVALID.

#[global] Instance eq_dec : EqDecision t.
Proof. solve_decision. Defined.

(** The enumerators' values, as written in the source. *)
Definition value (m : t) : Z :=
  match m with
  | DAILY => 0x1
  | HOURLY => 0x2
  | MINUTELY => 0x4
  | SECONDLY => 0x8
  | TIMESTAMP => 0x16
  | INVALID => 0
  end.

End PatternMacro.

(** ** [class Macro] *)

Module Macro.
Import Chars Regex.

Definition uint8 (z : Z) : Z := z mod 256.

(** The valid combinations: every macro requires its parent levels. *)
Definition TIMESTAMP : Z := PatternMacro.value PatternMacro.TIMESTAMP.
Definition DAILY : Z := PatternMacro.value PatternMacro.DAILY.
Definition HOURLY : Z := Z.lor DAILY (PatternMacro.value PatternMacro.HOURLY).
Definition MINUTELY : Z := Z.lor HOURLY (PatternMacro.value PatternMacro.MINUTELY).
Definition SECONDLY : Z := Z.lor MINUTELY (PatternMacro.value PatternMacro.SECONDLY).

Definition V_DATE : string := "date".
Definition V_HOUR : string := "hour".
Definition V_MINUTE : string := "minute".
Definition V_SECOND : string := "second".
Definition V_TIMESTAMP : string := "timestamp".

(** An [unordered_map] built from an initializer list: the entries are
    inserted in order, and an insertion whose key is already present is
    dropped (as the standard library's containers do).  Lookup by key only,
    so an association list does. *)
Section InitList.
Context {K V : Type} `{EqDecision K}.

Fixpoint find (k : K) (m : list (K * V)) : option V :=
    match m with
    | [] => None
    | (k', v) :: m' => if decide (k = k') then Some v else find k m'
    end.

Definition emplace (m : list (K * V)) (kv : K * V) : list (K * V) :=
    match find (fst kv) m with
    | Some _ => m
    | None => m ++ [kv]
    end.

Definition from_init (l : list (K * V)) : list (K * V) := fold_left emplace l [].

(** The other reading of a repeated key, where the later entry replaces the
    earlier one; the source's container does not work this way, the
    definition serves to show what does not depend on the choice. *)
Fixpoint assign_key (m : list (K * V)) (kv : K * V) : list (K * V) :=
  match m with
  | [] => [kv]
  | (k', v) :: m' =>
      if decide (fst kv = k') then (k', snd kv) :: m' else (k', v) :: assign_key m' kv
  end.

Definition from_init_last (l : list (K * V)) : list (K * V) := fold_left assign_key l [].
End InitList.

Definition MACRO_MAP : list (string * PatternMacro.t) :=
  from_init
    [ (V_DATE, PatternMacro.DAILY);
      (V_HOUR, PatternMacro.HOURLY);
      (V_MINUTE, PatternMacro.MINUTELY);
      (V_SECOND, PatternMacro.SECONDLY);
      (V_TIMESTAMP, PatternMacro.TIMESTAMP) ].

(** The literal text each [MACRO_REGEX] entry matches (ignoring case). *)
Definition MACRO_REGEX : list (PatternMacro.t * string) :=
  from_init
    [ (PatternMacro.DAILY, "{date}");
      (PatternMacro.HOURLY, "{hour}");
      (PatternMacro.MINUTELY, "{minute}");
      (PatternMacro.SECONDLY, "{second}");
      (PatternMacro.TIMESTAMP, "{timestamp}") ].

Definition MACRO_SECONDS_init : list (PatternMacro.t * Z) :=
  [ (PatternMacro.DAILY, Evidence.DAY_SECONDS);
    (PatternMacro.HOURLY, Evidence.HOUR_SECONDS);
    (PatternMacro.MINUTELY, Evidence.MINUTE_SECONDS);
    (PatternMacro.MINUTELY, 1) ].

Definition MACRO_SECONDS : list (PatternMacro.t * Z) := from_init MACRO_SECONDS_init.

Definition ALL_TIME_MACROS : list PatternMacro.t :=
  [ PatternMacro.DAILY; PatternMacro.HOURLY;
    PatternMacro.MINUTELY; PatternMacro.SECONDLY ].

Definition seconds (macro : PatternMacro.t) : Z :=
  match find macro MACRO_SECONDS with
  | Some s => s
  | None => 0
  end.

Definition isTimeMacroString (str : string) : bool :=
  bool_decide (is_Some (find str MACRO_MAP)).

Definition getTimeStringForMacro
    (macro : PatternMacro.t) (watermark : Z) (defaultStr : string) : string :=
  match macro with
  | PatternMacro.TIMESTAMP => Evidence.to_string watermark
  | PatternMacro.DAILY => Evidence.fmt_ymd_dash watermark
  | PatternMacro.HOURLY => Evidence.fmt_hour watermark
  | PatternMacro.MINUTELY => Evidence.fmt_minute watermark
  | PatternMacro.SECONDLY => Evidence.fmt_second watermark
  | PatternMacro.INVALID => defaultStr
  end.

(** [MACRO_MAP.at(str)] throws for a string that is not a key of the map:
    [None] stands for the exception. *)
Definition getTimeStringForMacroString (str : string) (watermark : Z) : option string :=
  macro ← find str MACRO_MAP;
  Some (getTimeStringForMacro macro watermark "").

(** [MACRO_REGEX.at(macro)] throws for a key that is not in the map:
    [None] stands for the exception. *)
Definition replaceTimeMacro
    (macro : PatternMacro.t) (str : string) (watermark : Z) : option string :=
  re ← find macro MACRO_REGEX;
  Some (regex_replace str re (getTimeStringForMacro macro watermark "")).

Definition materialize
    (macro : PatternMacro.t) (holder : string) (watermark : Z) : option string :=
  if decide (macro = PatternMacro.INVALID) then Some holder
  else if decide (macro = PatternMacro.TIMESTAMP) then
    replaceTimeMacro macro holder watermark
  else
    foldl
      (fun (acc : option string) macroToCheck =>
         str ← acc;
         if PatternMacro.value macro >=? PatternMacro.value macroToCheck
         then replaceTimeMacro macroToCheck str watermark
         else Some str)
      (Some holder) ALL_TIME_MACROS.

(** The loop of [extract]: OR the flag of every captured name that is a
    key of [MACRO_MAP] into the [uint8_t] accumulator. *)
Definition extract_code (input : string) : Z :=
  foldl
    (fun code str =>
       match find (lower str) MACRO_MAP with
       | Some m => uint8 (Z.lor code (PatternMacro.value m))
       | None => code
       end)
    (PatternMacro.value PatternMacro.INVALID)
    (sregex_iterator input).

Definition extract (input : string) : PatternMacro.t :=
  let code := extract_code input in
  if code =? TIMESTAMP then PatternMacro.TIMESTAMP
  else if code =? DAILY then PatternMacro.DAILY
  else if code =? HOURLY then PatternMacro.HOURLY
  else if code =? MINUTELY then PatternMacro.MINUTELY
  else if code =? SECONDLY then PatternMacro.SECONDLY
  else PatternMacro.INVALID.

End Macro.

(** ** Cluster nodes *)

Module NNode.

(** Modelled from the spec: [nebula::meta::NNode] (meta/NNode.h is not part
    of the sources at hand); "Node - { address, isActive, size (bytes) }.
    Equality and hashing are by toString() canonical address". *)
Record t : Set := mk { address : string; active : bool; size : N }.

#[global] Instance eq_dec : EqDecision t.
Proof. solve_decision. Defined.

Definition toString (n : t) : string := address n.
Definition isActive (n : t) : bool := active n.

(** [NodeEqual]: the key equality of the block manager's map. *)
Definition NodeEqual (n1 n2 : t) : bool := String.eqb (toString n1) (toString n2).

(** A node-valued slot that may hold the sentinel [NNode::invalid()]:
    [None] is the sentinel. *)
Definition invalid : option t := None.

End NNode.

(** ** Ingestion specs *)

Module Spec.

Inductive SpecState : Set := NEW | READY.

#[global] Instance SpecState_eq_dec : EqDecision SpecState.
Proof. solve_decision. Defined.

(** Modelled from the spec: [nebula::meta::Spec] (its header is not part of
    the sources at hand); "Spec - { id, table, version, partitionValues,
    state in {NEW, READY}, affinity (node or INVALID) }".  The affinity is
    held by value: [assign] stores a copy of an element of its local
    node vector. *)
Record t : Set := mk { id : string; state : SpecState; affinity : option NNode.t }.

#[global] Instance eq_dec : EqDecision t.
Proof. solve_decision. Defined.

Definition set_affinity (n : option NNode.t) (s : t) : t :=
  {| id := id s; state := state s; affinity := n |}.

Definition set_state (st : SpecState) (s : t) : t :=
  {| id := id s; state := st; affinity := affinity s |}.

(** "assigned": the affinity is a node, not the invalid sentinel. *)
Definition assigned (s : t) : bool :=
  match affinity s with Some _ => true | None => false end.

End Spec.

(** [SpecPtr] is a [shared_ptr<Spec>]: an address in the store of specs.
    Two registry entries holding the same address alias one object. *)
Abbreviation SpecPtr := nat (only parsing).
Abbreviation Store := (gmap nat Spec.t).

(** ** Table states held by the block manager *)

Module TableState.

Record Block : Set := mkBlock { spec : string; bytes : N }.

(** Modelled from the spec: [TableState] (execution/TableState.h is not part
    of the sources at hand); "per-(node, table) registry of BatchBlock
    entries with spec grouping"; exposes [specs()], [hasSpec(id)],
    [rawBytes()] and [expired(pred)]. *)
Record t : Set := mk { table : string; blocks : list Block }.

Definition specs (s : t) : gset string := list_to_set (map spec (blocks s)).

Definition hasSpec (id : string) (s : t) : bool := bool_decide (id ∈ specs s).

Definition rawBytes (s : t) : N := foldl (fun acc b => (acc + bytes b)%N) 0%N (blocks s).

(** "walks each block and removes entries where pred(table, specId)==true,
    returning the removed identifiers grouped as {(table, specId)}". *)
Definition expired (pred : string -> string -> bool) (s : t)
  : gset (string * string) * t :=
  let gone := filter (fun b => pred (table s) (spec b) = true) (blocks s) in
  let kept := filter (fun b => pred (table s) (spec b) <> true) (blocks s) in
  (list_to_set (map (fun b => (table s, spec b)) gone),
   {| table := table s; blocks := kept |}).

End TableState.

(** [TableStates]: table name to table state, in iteration order. *)
Abbreviation TableStates := (list (string * TableState.t)).

(** ** [class BlockManager] *)

Module BlockManager.

Record t := mk {
  data_ : list (NNode.t * TableStates);
  emptySpecs_ : gset string
}.

(** [data_.find(node)] under [NodeEqual]. *)
Fixpoint data_find (node : NNode.t) (d : list (NNode.t * TableStates))
  : option TableStates :=
  match d with
  | [] => None
  | (n, ts) :: d' => if NNode.NodeEqual n node then Some ts else data_find node d'
  end.

(** [data_[node] = states]: overwrite the entry, or add one (which the list
    writes last; the hash map gives it no particular place). *)
Fixpoint data_assign (node : NNode.t) (states : TableStates)
    (d : list (NNode.t * TableStates)) : list (NNode.t * TableStates) :=
  match d with
  | [] => [(node, states)]
  | (n, ts) :: d' =>
      if NNode.NodeEqual n node then (n, states) :: d'
      else (n, ts) :: data_assign node states d'
  end.

Definition recordEmptySpec (spec : string) (bm : t) : t :=
  {| data_ := data_ bm; emptySpecs_ := {[spec]} ∪ emptySpecs_ bm |}.

Definition emptySpecs (bm : t) : gset string := emptySpecs_ bm.

Definition clearEmptySpecs (bm : t) : t :=
  {| data_ := data_ bm; emptySpecs_ := ∅ |}.

(** [states(node)] returns [data_[node]]: [operator[]] default-constructs
    the entry when the key is absent.  The result is the entry read and the
    block manager afterwards.  The list writes the new entry last; the hash
    map gives a new key no particular place among the others, and nothing
    stated about [states] depends on the place. *)
Definition states (node : NNode.t) (bm : t) : TableStates * t :=
  match data_find node (data_ bm) with
  | Some ts => (ts, bm)
  | None => ([], {| data_ := (data_ bm ++ [(node, [])])%list;
                   emptySpecs_ := emptySpecs_ bm |})
  end.

Definition swap (node : NNode.t) (sts : TableStates) (bm : t) : t :=
  {| data_ := data_assign node sts (data_ bm); emptySpecs_ := emptySpecs_ bm |}.

Fixpoint erase_first (addr : string) (d : list (NNode.t * TableStates))
  : list (NNode.t * TableStates) :=
  match d with
  | [] => []
  | (n, ts) :: d' =>
      if String.eqb addr (NNode.toString n) then d' else (n, ts) :: erase_first addr d'
  end.

Definition removeNode (addr : string) (bm : t) : t :=
  {| data_ := erase_first addr (data_ bm); emptySpecs_ := emptySpecs_ bm |}.

(** The inner loop of [tables]: [tables.emplace(ts.first)] for every table
    state of one node. *)
Definition emplace_tables (sts : TableStates) (tables : gset string) : gset string :=
  foldl (fun acc ts => {[ts.1]} ∪ acc) tables sts.

(** The outer loop of [tables]: the size test comes after a node's tables
    have all been added. *)
Fixpoint tables_loop (limit : nat) (d : list (NNode.t * TableStates))
    (tables : gset string) : gset string :=
  match d with
  | [] => tables
  | (_, sts) :: d' =>
      let tables := emplace_tables sts tables in
      if (limit <=? size tables)%nat then tables
      else tables_loop limit d' tables
  end.

Definition tables (limit : nat) (bm : t) : gset string :=
  tables_loop limit (data_ bm) ∅.

Definition hasSpec (table spec : string) (node : NNode.t) (bm : t) : bool :=
  if bool_decide (spec ∈ emptySpecs_ bm) then true
  else
    match data_find node (data_ bm) with
    | Some states =>
        match Macro.find table states with
        | Some ts => TableState.hasSpec spec ts
        | None => false
        end
    | None => false
    end.

(** [activeSpecs()]; [nodes] is [ClusterInfo::singleton().nodes()]. *)
Definition activeSpecs (nodes : list NNode.t) (bm : t) : gset string :=
  foldl
    (fun specs node =>
       match data_find node (data_ bm) with
       | Some states =>
           foldl (fun specs ts => TableState.specs ts.2 ∪ specs) specs states
       | None => specs
       end)
    ∅ nodes.

(** The keys of the map: the addresses of its nodes.  The container keeps
    them distinct. *)
Definition keys (bm : t) : list string := map (fun e => NNode.toString e.1) (data_ bm).

Definition unique_keys (bm : t) : Prop := NoDup (keys bm).

End BlockManager.

(** ** The table service and its registries *)

Module TableService.

(** Modelled from the spec: [TableRegistry] (execution/meta/TableService.h is
    not part of the sources at hand); a registry "tracks all online specs"
    of one table: [all()] hands out its spec pointers and [online(id)] tells
    whether a spec id is listed. *)
Record TableRegistry := mkRegistry {
  all_ : list SpecPtr;
  online_ : gset string
}.

(** Table name to registry, in the order [all()] yields the registries. *)
Definition t := list (string * TableRegistry).

Definition all (ts : t) : list TableRegistry := map snd ts.

(** Modelled from the spec: [TableService::query] returns the registry of a
    known table and an empty registry otherwise; [None] is the empty
    registry, which lists no spec online. *)
Definition query (ts : t) (table : string) : option TableRegistry :=
  Macro.find table ts.

Definition empty (r : option TableRegistry) : bool :=
  match r with Some _ => false | None => true end.

Definition online (r : option TableRegistry) (spec : string) : bool :=
  match r with
  | Some reg => bool_decide (spec ∈ online_ reg)
  | None => false
  end.

End TableService.

(** Modelled from the spec: [TaskState] (common/Task.h is not part of the
    sources at hand); "TaskState in {QUEUE, IN_PROGRESS, SUCCEEDED,
    FAILED}". *)
Inductive TaskState : Set := QUEUE | IN_PROGRESS | SUCCEEDED | FAILED.

(** Loops that a [return] inside the body can leave. *)
Inductive flow (S R : Type) : Type :=
| Next (s : S)
| Return (r : R).
Arguments Next {S R} s.
Arguments Return {S R} r.

Fixpoint for_each {A S R : Type} (body : A -> S -> flow S R) (l : list A) (s : S)
  : flow S R :=
  match l with
  | [] => Next s
  | x :: l' =>
      match body x s with
      | Next s' => for_each body l' s'
      | Return r => Return r
      end
  end.

(** ** [class SpecRepo] *)

Module SpecRepo.

Definition resetSpec (spec : Spec.t) : Spec.t :=
  Spec.set_state Spec.NEW (Spec.set_affinity NNode.invalid spec).

(** *** [expire] *)

(** The lambda handed to [TableState::expired]. *)
Definition expire_pred (ts : TableService.t) (table spec : string) : bool :=
  let registry := TableService.query ts table in
  if negb (TableService.empty registry) && TableService.online registry spec
  then false
  else true.

(** What one pass of the node loop has produced so far: the block manager,
    the EXPIRATION tasks sent (node and payload), the node sizes published
    and [numExpired]. *)
Record ExpireState := mkExpire {
  ex_bm : BlockManager.t;
  ex_tasks : list (NNode.t * gset (string * string));
  ex_sizes : list (NNode.t * N);
  numExpired : nat
}.

(** The loop over the table states of one node: the expired pairs are
    merged, the sizes summed, and every table state is left without its
    expired blocks. *)
Definition expire_states (ts : TableService.t) (states : TableStates)
  : gset (string * string) * N * TableStates :=
  foldl
    (fun '(expired, memorySize, seen) '(name, state) =>
       let '(pairs, state') := TableState.expired (expire_pred ts) state in
       (pairs ∪ expired, (memorySize + TableState.rawBytes state')%N,
        (seen ++ [(name, state')])%list))
    (∅, 0%N, []) states.

Section Expire.
(** [client->update()] for the client of a node: whatever the poll writes
    into the block manager. *)
Variable update : NNode.t -> BlockManager.t -> BlockManager.t.

Definition expire_node (ts : TableService.t) (st : ExpireState) (node : NNode.t)
  : ExpireState :=
  if NNode.isActive node then
    let bm := update node (ex_bm st) in
    let '(states, bm) := BlockManager.states node bm in
    let '(expired, memorySize, states') := expire_states ts states in
    let bm := BlockManager.swap node states' bm in
    let expireSize := size expired in
    {| ex_bm := bm;
       ex_tasks := if (0 <? expireSize)%nat
                   then (ex_tasks st ++ [(node, expired)])%list else ex_tasks st;
       ex_sizes := (ex_sizes st ++ [(node, memorySize)])%list;
       numExpired := (numExpired st + expireSize)%nat |}
  else st.

Definition expire (nodes : list NNode.t) (ts : TableService.t) (bm : BlockManager.t)
  : ExpireState :=
  let bm := BlockManager.clearEmptySpecs bm in
  foldl (expire_node ts)
    {| ex_bm := bm; ex_tasks := []; ex_sizes := []; numExpired := 0 |} nodes.
End Expire.

(** *** [assign] *)

(** [std::sort] by [size]: an insertion sort.  It leaves nodes of equal
    size in the order of the snapshot; the library sort is not stable and
    may order them otherwise, so what is stated of the sorted vector is
    either true of every sorted permutation or assumes distinct sizes. *)
Fixpoint insert_by_size (n : NNode.t) (l : list NNode.t) : list NNode.t :=
  match l with
  | [] => [n]
  | m :: l' =>
      if (NNode.size m <? NNode.size n)%N || (NNode.size m =? NNode.size n)%N
      then m :: insert_by_size n l'
      else n :: m :: l'
  end.

Definition sort_by_size (l : list NNode.t) : list NNode.t :=
  foldl (fun acc n => insert_by_size n acc) [] l.

(** The [while (true)] loop that places a spec.  [Some (Some (n, idx'))]: the
    spec goes to [n] and the cursor moves to [idx']; [Some None]: the cursor
    is back at [startId], the function returns; [None]: [nodes.at(idx)]
    is out of range, or the fuel is spent. *)
Fixpoint place (fuel : nat) (nodes : list NNode.t) (size startId idx : nat)
  : option (option (NNode.t * nat)) :=
  match fuel with
  | O => None
  | S fuel' =>
      match nodes !! idx with
      | None => None
      | Some n =>
          if NNode.isActive n then Some (Some (n, ((idx + 1) `mod` size)%nat))
          else
            let idx := ((idx + 1) `mod` size)%nat in
            if (idx =? startId)%nat then Some None
            else place fuel' nodes size startId idx
      end
  end.

Record AssignState := mkAssign {
  store : Store;
  idx : nat;
  numTasks : nat
}.

Section Assign.
(** [spec->needSync()]; the spec header is not part of the sources. *)
Variable needSync : Spec.t -> bool.
(** [clientMaker(spec->affinity())->task(t)]: the reply to the INGESTION
    task with the given sequence number in this call. *)
Variable task : nat -> option NNode.t -> Spec.t -> TaskState.

Variable nodes : list NNode.t.
Variable activeSpecs emptySpecs : gset string.

(** "if current spec is assigned but somehow it's lost as we don't see it in
    active spec we will need to make sure it's assigned again". *)
Definition reset_if_lost (spec : Spec.t) : Spec.t :=
  if Spec.assigned spec
     && negb (bool_decide (Spec.id spec ∈ activeSpecs))
     && negb (bool_decide (Spec.id spec ∈ emptySpecs))
  then resetSpec spec else spec.

(** The body of the loop over the specs of a registry.  [Return (Some r)] is
    the [return] inside the placement loop; [Return None] stands for the
    exception of [nodes.at(idx)] (and for spent fuel), which the function,
    being [noexcept], cannot survive.  A pointer that the store does not
    hold cannot occur with [shared_ptr]; it is passed over. *)
Definition assign_spec (p : SpecPtr) (st : AssignState)
  : flow AssignState (option (nat * nat * Store)) :=
  let size := length nodes in
  match store st !! p with
  | None => Next st
  | Some spec =>
      let spec := reset_if_lost spec in
      let placed :=
        if negb (Spec.assigned spec) then
          match place size nodes size (idx st) (idx st) with
          | Some (Some (n, idx')) => Some (Some (Spec.set_affinity (Some n) spec, idx'))
          | Some None => Some None
          | None => None
          end
        else Some (Some (spec, idx st)) in
      match placed with
      | Some (Some (spec, idx')) =>
          if needSync spec then
            let state := task (numTasks st) (Spec.affinity spec) spec in
            let spec :=
              match state with
              | SUCCEEDED => Spec.set_state Spec.READY spec
              | _ => spec
              end in
            Next {| store := <[p := spec]> (store st); idx := idx';
                    numTasks := S (numTasks st) |}
          else
            Next {| store := <[p := spec]> (store st); idx := idx';
                    numTasks := numTasks st |}
      | Some None => Return (Some (numTasks st, size, <[p := spec]> (store st)))
      | None => Return None
      end
  end.

Definition assign_registry (registry : TableService.TableRegistry) (st : AssignState)
  : flow AssignState (option (nat * nat * Store)) :=
  for_each assign_spec (TableService.all_ registry) st.

End Assign.

(** [assign]: the result pair and the store of specs afterwards; [cluster]
    is [ClusterInfo::singleton().nodes()]. *)
Definition assign (needSync : Spec.t -> bool)
    (task : nat -> option NNode.t -> Spec.t -> TaskState)
    (cluster : list NNode.t) (bm : BlockManager.t) (ts : TableService.t)
    (σ : Store) : option (nat * nat * Store) :=
  let nodes := cluster in
  let size := length nodes in
  if (size =? 0)%nat then Some (0%nat, 0%nat, σ)
  else
    let nodes := sort_by_size nodes in
    let emptySpecs := BlockManager.emptySpecs bm in
    let activeSpecs := BlockManager.activeSpecs cluster bm in
    match
      for_each (assign_registry needSync task nodes activeSpecs emptySpecs)
        (TableService.all ts) {| store := σ; idx := 0; numTasks := 0 |}
    with
    | Next st => Some (numTasks st, size, store st)
    | Return r => r
    end.

(** *** [lost] *)

Definition lost_spec (addr : string) (acc : Store * nat) (p : SpecPtr) : Store * nat :=
  let '(σ, numSpecs) := acc in
  match σ !! p with
  | None => acc
  | Some spec =>
      if Spec.assigned spec
         && bool_decide (NNode.toString <$> Spec.affinity spec = Some addr)
      then (<[p := resetSpec spec]> σ, S numSpecs)
      else acc
  end.

Definition lost (addr : string) (ts : TableService.t) (σ : Store) : Store * nat :=
  foldl
    (fun acc registry => foldl (lost_spec addr) acc (TableService.all_ registry))
    (σ, 0%nat) (TableService.all ts).

(** *** Vocabulary of the properties *)

(** The spec pointers of all registries, in the order the loops of [assign]
    and [lost] come to them. *)
Definition pointers (ts : TableService.t) : list SpecPtr :=
  concat (map TableService.all_ (TableService.all ts)).

(** [p] points to a spec that is assigned to the node of address [addr]. *)
Definition on_node (addr : string) (σ : Store) (p : SpecPtr) : bool :=
  match σ !! p with
  | Some spec =>
      Spec.assigned spec
      && bool_decide (NNode.toString <$> Spec.affinity spec = Some addr)
  | None => false
  end.

(** The registered pointers whose spec is assigned to the node of address
    [addr]; a pointer held by several registry entries counts once. *)
Definition hits (addr : string) (σ : Store) (ptrs : list SpecPtr) : gset nat :=
  filter (fun p => on_node addr σ p = true) (list_to_set ptrs : gset nat).

(** What [expire] promises about the tasks it has sent: every pair of an
    EXPIRATION task is not online in the registry of its table, and
    [numExpired] counts the pairs of the tasks. *)
Definition tasks_sound (ts : TableService.t) (e : ExpireState) : Prop :=
  (forall node expired table spec,
     (node, expired) ∈ ex_tasks e -> (table, spec) ∈ expired ->
     TableService.online (TableService.query ts table) spec = false)
  /\ numExpired e = sum_list_with (fun t => size t.2) (ex_tasks e).

(** The spec [q] points to, if any, is assigned. *)
Definition assigned_at (σ : Store) (q : SpecPtr) : Prop :=
  forall spec, σ !! q = Some spec -> Spec.assigned spec = true.

Definition all_inactive (nodes : list NNode.t) : Prop :=
  forall n, n ∈ nodes -> NNode.isActive n = false.

(** The stores the repository can be in: specs enter a registry as the spec
    provider emits them ("state=NEW, affinity=INVALID"), may leave it, and
    are otherwise changed by [assign] and [lost] only. *)
Inductive reachable : Store -> Prop :=
| reachable_empty : reachable ∅
| reachable_generate σ p spec :
    reachable σ -> σ !! p = None ->
    Spec.affinity spec = NNode.invalid -> Spec.state spec = Spec.NEW ->
    reachable (<[p := spec]> σ)
| reachable_remove σ p :
    reachable σ -> reachable (delete p σ)
| reachable_assign σ needSync task cluster bm ts r σ' :
    reachable σ -> assign needSync task cluster bm ts σ = Some (r, σ') ->
    reachable σ'
| reachable_lost σ addr ts :
    reachable σ -> reachable (lost addr ts σ).1.


(** Every affinity held in the store is a node that answered [isActive()]
    when it was copied. *)
Definition affinities_active (σ : Store) : Prop :=
  forall p spec n,
    σ !! p = Some spec -> Spec.affinity spec = Some n -> NNode.isActive n = true.

End SpecRepo.

(** ** The macro engine as the specification words it

    These definitions follow the specification, not the source; the
    theorems below compare them with [Macro]. *)

Module MacroSpec.

(** "Encoding as bitflags (DAILY=1, HOURLY=2, MINUTELY=4, SECONDLY=8,
    TIMESTAMP=16)". *)
Definition flag (m : PatternMacro.t) : Z :=
  match m with
  | PatternMacro.DAILY => 1
  | PatternMacro.HOURLY => 2
  | PatternMacro.MINUTELY => 4
  | PatternMacro.SECONDLY => 8
  | PatternMacro.TIMESTAMP => 16
  | PatternMacro.INVALID => 0
  end.

(** The macros whose placeholders occur in a template, in order of
    occurrence: the captured names, lowercased, that are macro names. *)
Definition macros_found (input : string) : list PatternMacro.t :=
  omap (fun str => Macro.find (Chars.lower str) Macro.MACRO_MAP)
       (Regex.sregex_iterator input).

(** "OR the flags it observes in a template". *)
Definition flags_found (input : string) : Z :=
  foldl (fun code m => Z.lor code (flag m)) 0 (macros_found input).

(** The valid combinations: "HOURLY implies DAILY; MINUTELY implies HOURLY;
    SECONDLY implies MINUTELY. TIMESTAMP is an independent singleton". *)
Definition valid (m : PatternMacro.t) : Z :=
  match m with
  | PatternMacro.DAILY => 1
  | PatternMacro.HOURLY => 1 + 2
  | PatternMacro.MINUTELY => 1 + 2 + 4
  | PatternMacro.SECONDLY => 1 + 2 + 4 + 8
  | PatternMacro.TIMESTAMP => 16
  | PatternMacro.INVALID => 0
  end.

(** "Returns TIMESTAMP, DAILY, HOURLY, MINUTELY, or SECONDLY only when the
    bits exactly equal one of those constants. Any other combination =>
    INVALID". *)
Definition extract (input : string) : PatternMacro.t :=
  let bits := flags_found input in
  if bits =? valid PatternMacro.TIMESTAMP then PatternMacro.TIMESTAMP
  else if bits =? valid PatternMacro.DAILY then PatternMacro.DAILY
  else if bits =? valid PatternMacro.HOURLY then PatternMacro.HOURLY
  else if bits =? valid PatternMacro.MINUTELY then PatternMacro.MINUTELY
  else if bits =? valid PatternMacro.SECONDLY then PatternMacro.SECONDLY
  else PatternMacro.INVALID.

(** The lattice level of a time macro. *)
Definition level (m : PatternMacro.t) : nat :=
  match m with
  | PatternMacro.DAILY => 1
  | PatternMacro.HOURLY => 2
  | PatternMacro.MINUTELY => 3
  | PatternMacro.SECONDLY => 4
  | _ => 0
  end.

(** The placeholder of a macro, and its rendered form. *)
Definition placeholder (m : PatternMacro.t) : string :=
  match m with
  | PatternMacro.DAILY => "{date}"
  | PatternMacro.HOURLY => "{hour}"
  | PatternMacro.MINUTELY => "{minute}"
  | PatternMacro.SECONDLY => "{second}"
  | PatternMacro.TIMESTAMP => "{timestamp}"
  | PatternMacro.INVALID => ""
  end.

Definition rendered (m : PatternMacro.t) (w : Z) : string :=
  match m with
  | PatternMacro.DAILY => Evidence.fmt_ymd_dash w
  | PatternMacro.HOURLY => Evidence.fmt_hour w
  | PatternMacro.MINUTELY => Evidence.fmt_minute w
  | PatternMacro.SECONDLY => Evidence.fmt_second w
  | PatternMacro.TIMESTAMP => Evidence.to_string w
  | PatternMacro.INVALID => ""
  end.

(** Substituting one macro: every occurrence of its placeholder, in any
    letter case, becomes the rendered watermark. *)
Definition substitute (w : Z) (s : string) (m : PatternMacro.t) : string :=
  Regex.regex_replace s (placeholder m) (rendered m w).

(** "every macro <= the requested macro", "in order DAILY -> HOURLY ->
    MINUTELY -> SECONDLY". *)
Definition at_or_below (m : PatternMacro.t) : list PatternMacro.t :=
  filter (fun k => (level k <= level m)%nat)
    [ PatternMacro.DAILY; PatternMacro.HOURLY;
      PatternMacro.MINUTELY; PatternMacro.SECONDLY ].

(** The macros [materialize] is to substitute for a requested macro. *)
Definition substituted (m : PatternMacro.t) : list PatternMacro.t :=
  match m with
  | PatternMacro.INVALID => []
  | PatternMacro.TIMESTAMP => [PatternMacro.TIMESTAMP]
  | _ => at_or_below m
  end.

Definition materialize (m : PatternMacro.t) (template : string) (w : Z) : string :=
  foldl (substitute w) template (substituted m).

(** The name a placeholder holds between its braces. *)
Definition name (m : PatternMacro.t) : string :=
  match m with
  | PatternMacro.DAILY => "date"
  | PatternMacro.HOURLY => "hour"
  | PatternMacro.MINUTELY => "minute"
  | PatternMacro.SECONDLY => "second"
  | PatternMacro.TIMESTAMP => "timestamp"
  | PatternMacro.INVALID => ""
  end.

(** [c] does not occur in [s]. *)
Fixpoint free_of (c : ascii) (s : string) : bool :=
  match s with
  | EmptyString => true
  | String c' s' => negb (Ascii.eqb c' c) && free_of c s'
  end.

Definition brace_free (s : string) : bool :=
  free_of Chars.lbrace s && free_of Chars.rbrace s.

(** Digits and the minus sign: the characters of a rendered watermark. *)
Definition is_plain (c : ascii) : bool :=
  let n := nat_of_ascii c in (((48 <=? n) && (n <=? 57)) || (n =? 45))%nat.

Fixpoint all_chars (f : ascii -> bool) (s : string) : bool :=
  match s with
  | EmptyString => true
  | String c s' => f c && all_chars f s'
  end.

(** A non-empty string of digits and minus signs. *)
Definition plain (s : string) : bool :=
  match s with
  | EmptyString => false
  | String _ _ => all_chars is_plain s
  end.

(** Neither an opening brace nor a character of a rendered watermark. *)
Definition is_name_char (c : ascii) : bool :=
  negb (Ascii.eqb c Chars.lbrace) && negb (is_plain c).

(** [p] occurs in [s]. *)
Definition occurs (p s : string) : Prop :=
  exists pre post : string, s = (pre ++ p ++ post)%string.

(** [s] is the decimal numeral of [z]: its digits without a leading zero,
    after a minus sign when [z] is negative. *)
Definition decimal (z : Z) (s : string) : Prop :=
  exists d : Decimal.int,
    NilZero.int_of_string s = Some d /\ Decimal.norm d = d /\ Z.of_int d = z.

(** [s] holds a recognized placeholder, in some letter case. *)
Definition has_placeholder (s : string) : Prop :=
  exists (p : string) (m : PatternMacro.t),
    m <> PatternMacro.INVALID /\ Chars.lower p = placeholder m /\ occurs p s.

End MacroSpec.

(** The set of macros found in a template, as five booleans, and the code
    such a set yields under an encoding [enc] of the macros. *)

Module Seen.

Record t : Set := mk {
  date : bool; hour : bool; minute : bool; second : bool; timestamp : bool
}.

Definition none : t := mk false false false false false.

Definition mark (f : t) (m : PatternMacro.t) : t :=
  match m with
  | PatternMacro.DAILY => mk true (hour f) (minute f) (second f) (timestamp f)
  | PatternMacro.HOURLY => mk (date f) true (minute f) (second f) (timestamp f)
  | PatternMacro.MINUTELY => mk (date f) (hour f) true (second f) (timestamp f)
  | PatternMacro.SECONDLY => mk (date f) (hour f) (minute f) true (timestamp f)
  | PatternMacro.TIMESTAMP => mk (date f) (hour f) (minute f) (second f) true
  | PatternMacro.INVALID => f
  end.

Definition of_list (ms : list PatternMacro.t) : t :=
  mk (bool_decide (PatternMacro.DAILY ∈ ms))
     (bool_decide (PatternMacro.HOURLY ∈ ms))
     (bool_decide (PatternMacro.MINUTELY ∈ ms))
     (bool_decide (PatternMacro.SECONDLY ∈ ms))
     (bool_decide (PatternMacro.TIMESTAMP ∈ ms)).

Definition code (enc : PatternMacro.t -> Z) (f : t) : Z :=
  Z.lor (if date f then enc PatternMacro.DAILY else 0)
   (Z.lor (if hour f then enc PatternMacro.HOURLY else 0)
    (Z.lor (if minute f then enc PatternMacro.MINUTELY else 0)
     (Z.lor (if second f then enc PatternMacro.SECONDLY else 0)
            (if timestamp f then enc PatternMacro.TIMESTAMP else 0)))).

End Seen.

(** * Properties *)

(** ** [Macro::seconds] *)

(** No entry of the initializer list of [MACRO_SECONDS] has the key
    [SECONDLY]: whichever of two entries with one key the container keeps,
    [SECONDLY] is not a key of the map. *)
Lemma MACRO_SECONDS_no_SECONDLY (v : Z) :
  (PatternMacro.SECONDLY, v) ∉ Macro.MACRO_SECONDS_init.
Proof.
  intros H. unfold Macro.MACRO_SECONDS_init in H.
  repeat (apply elem_of_cons in H as [H|H]; [discriminate H|]).
  by apply elem_of_nil in H.
Qed.

(** Had the later of two entries with one key replaced the earlier, MINUTELY
    would be 1 second, and SECONDLY would still not be a key. *)
Lemma MACRO_SECONDS_last_wins :
  Macro.find PatternMacro.MINUTELY (Macro.from_init_last Macro.MACRO_SECONDS_init) = Some 1
  /\ Macro.find PatternMacro.SECONDLY (Macro.from_init_last Macro.MACRO_SECONDS_init) = None.
Proof. split; reflexivity. Qed.

(** C3, evaluated on the code: [seconds] is 86400 for DAILY, 3600 for HOURLY
    and 60 for MINUTELY, and 0 for TIMESTAMP and INVALID; for SECONDLY it is
    0 as well, not 1, because the 1-second entry of [MACRO_SECONDS] is keyed
    MINUTELY a second time. *)
Theorem seconds_table :
  Macro.seconds PatternMacro.DAILY = 86400
  /\ Macro.seconds PatternMacro.HOURLY = 3600
  /\ Macro.seconds PatternMacro.MINUTELY = 60
  /\ Macro.seconds PatternMacro.SECONDLY = 0
  /\ Macro.seconds PatternMacro.TIMESTAMP = 0
  /\ Macro.seconds PatternMacro.INVALID = 0.
Proof. repeat split; reflexivity. Qed.

(** ** [Macro::extract] *)

Lemma foldl_omap {A B S : Type} (f : A -> option B) (g : S -> B -> S)
    (l : list A) (s : S) :
  foldl (fun acc a => match f a with Some b => g acc b | None => acc end) s l
  = foldl g s (omap f l).
Proof.
  revert s. induction l as [|a l IH]; intros s; [done|].
  cbn. destruct (f a); cbn; apply IH.
Qed.

(** The accumulator of [extract] depends on the macros found only. *)
Lemma extract_code_macros_found (input : string) :
  Macro.extract_code input
  = foldl (fun code m => Macro.uint8 (Z.lor code (PatternMacro.value m))) 0
      (MacroSpec.macros_found input).
Proof.
  unfold Macro.extract_code, MacroSpec.macros_found.
  apply (foldl_omap (fun str => Macro.find (Chars.lower str) Macro.MACRO_MAP)
           (fun code m => Macro.uint8 (Z.lor code (PatternMacro.value m)))).
Qed.

Lemma bool_decide_elem_cons (x a : PatternMacro.t) (ms : list PatternMacro.t) :
  bool_decide (x ∈ a :: ms) = bool_decide (x = a) || bool_decide (x ∈ ms).
Proof. rewrite <- bool_decide_or. apply bool_decide_ext, elem_of_cons. Qed.

Lemma Seen_of_list_cons m ms : Seen.of_list (m :: ms) = Seen.mark (Seen.of_list ms) m.
Proof. unfold Seen.of_list. rewrite !bool_decide_elem_cons. by destruct m. Qed.

Lemma Seen_mark_comm f a b : Seen.mark (Seen.mark f a) b = Seen.mark (Seen.mark f b) a.
Proof. destruct a, b; reflexivity. Qed.

Lemma foldl_mark_last ms f m :
  foldl Seen.mark (Seen.mark f m) ms = Seen.mark (foldl Seen.mark f ms) m.
Proof.
  revert f. induction ms as [|a ms IH]; intros f; [done|].
  cbn. rewrite Seen_mark_comm. apply IH.
Qed.

Lemma foldl_mark_of_list ms : foldl Seen.mark Seen.none ms = Seen.of_list ms.
Proof.
  induction ms as [|a ms IH]; [done|].
  cbn [foldl]. rewrite Seen_of_list_cons, <- IH.
  apply (foldl_mark_last ms Seen.none a).
Qed.

Lemma value_mark f m :
  m <> PatternMacro.INVALID ->
  Macro.uint8 (Z.lor (Seen.code PatternMacro.value f) (PatternMacro.value m))
  = Seen.code PatternMacro.value (Seen.mark f m).
Proof. destruct f as [[] [] [] [] []], m; try done; intros _; reflexivity. Qed.

Lemma flag_mark f m :
  Z.lor (Seen.code MacroSpec.flag f) (MacroSpec.flag m)
  = Seen.code MacroSpec.flag (Seen.mark f m).
Proof. destruct f as [[] [] [] [] []], m; reflexivity. Qed.

Lemma macros_found_valid input : PatternMacro.INVALID ∉ MacroSpec.macros_found input.
Proof.
  unfold MacroSpec.macros_found. intros H.
  apply list_elem_of_omap in H as (str & _ & H).
  revert H. generalize (Chars.lower str). intros s H.
  unfold Macro.MACRO_MAP in H. vm_compute Macro.from_init in H.
  cbn in H. repeat case_decide; congruence.
Qed.

Lemma extract_code_seen input :
  Macro.extract_code input
  = Seen.code PatternMacro.value (Seen.of_list (MacroSpec.macros_found input)).
Proof.
  rewrite extract_code_macros_found, <- foldl_mark_of_list.
  pose proof (macros_found_valid input) as Hv.
  change 0 with (Seen.code PatternMacro.value Seen.none) at 1.
  generalize Seen.none.
  induction (MacroSpec.macros_found input) as [|a ms IH]; intros f; [done|].
  cbn [foldl]. rewrite value_mark.
  - apply IH. intros ?. apply Hv. by right.
  - intros ->. apply Hv. by left.
Qed.

Lemma flags_found_seen input :
  MacroSpec.flags_found input
  = Seen.code MacroSpec.flag (Seen.of_list (MacroSpec.macros_found input)).
Proof.
  unfold MacroSpec.flags_found. rewrite <- foldl_mark_of_list.
  change 0 with (Seen.code MacroSpec.flag Seen.none) at 1.
  generalize Seen.none.
  induction (MacroSpec.macros_found input) as [|a ms IH]; intros f; [done|].
  cbn [foldl]. rewrite flag_mark. apply IH.
Qed.

(** Where the code and the specification of [extract] part: on the
    templates that hold [{timestamp}] together with [{hour}] or [{minute}]
    and neither [{date}] nor [{second}] the code answers TIMESTAMP, the
    specification INVALID; on every other template they agree. *)
Lemma extract_vs_spec (input : string) :
  let ms := MacroSpec.macros_found input in
  if bool_decide (PatternMacro.TIMESTAMP ∈ ms)
     && (bool_decide (PatternMacro.HOURLY ∈ ms)
         || bool_decide (PatternMacro.MINUTELY ∈ ms))
     && negb (bool_decide (PatternMacro.DAILY ∈ ms))
     && negb (bool_decide (PatternMacro.SECONDLY ∈ ms))
  then Macro.extract input = PatternMacro.TIMESTAMP
       /\ MacroSpec.extract input = PatternMacro.INVALID
  else Macro.extract input = MacroSpec.extract input.
Proof.
  intros ms. unfold Macro.extract, MacroSpec.extract.
  rewrite extract_code_seen, flags_found_seen. fold ms. unfold Seen.of_list.
  destruct (bool_decide (PatternMacro.TIMESTAMP ∈ ms)),
    (bool_decide (PatternMacro.HOURLY ∈ ms)),
    (bool_decide (PatternMacro.MINUTELY ∈ ms)),
    (bool_decide (PatternMacro.DAILY ∈ ms)),
    (bool_decide (PatternMacro.SECONDLY ∈ ms));
    cbn; repeat split; reflexivity.
Qed.

(** C1, evaluated on the code: the template [{timestamp}{hour}] holds the
    flags TIMESTAMP and HOURLY, whose OR under the encoding DAILY=1,
    HOURLY=2, MINUTELY=4, SECONDLY=8, TIMESTAMP=16 is 18, none of the valid
    combinations, so that the answer should be INVALID; the code, whose
    TIMESTAMP enumerator is 0x16 = 22 = 16+4+2, answers TIMESTAMP. *)
Theorem extract_timestamp_hour :
  MacroSpec.macros_found "{timestamp}{hour}"
    = [PatternMacro.TIMESTAMP; PatternMacro.HOURLY]
  /\ MacroSpec.flags_found "{timestamp}{hour}" = 18
  /\ MacroSpec.extract "{timestamp}{hour}" = PatternMacro.INVALID
  /\ Macro.extract_code "{timestamp}{hour}" = 22
  /\ Macro.extract "{timestamp}{hour}" = PatternMacro.TIMESTAMP.
Proof. repeat split; reflexivity. Qed.

(** The spec's first two scenarios. *)
Example extract_hourly : Macro.extract "s3://b/dt={date}/h={hour}" = PatternMacro.HOURLY.
Proof. reflexivity. Qed.

Example materialize_hourly :
  Macro.materialize PatternMacro.HOURLY "s3://b/dt={date}/h={hour}" 1700000000
  = Some "s3://b/dt=2023-11-14/h=22".
Proof. reflexivity. Qed.

Example extract_minute_alone : Macro.extract "x/{minute}" = PatternMacro.INVALID.
Proof. reflexivity. Qed.

Example extract_ignores_case :
  Macro.extract "/{DATE}/{Hour}/{minute}/{unknown}" = PatternMacro.MINUTELY.
Proof. reflexivity. Qed.

(** ** [Macro::materialize] *)

Import Chars Regex.

Lemma tolower_lbrace c : tolower c = lbrace -> c = lbrace.
Proof. destruct c as [[] [] [] [] [] [] [] []]; vm_compute; congruence. Qed.

Lemma tolower_rbrace c : tolower c = rbrace -> c = rbrace.
Proof. destruct c as [[] [] [] [] [] [] [] []]; vm_compute; congruence. Qed.

Lemma append_String a (A R : string) : (String a A ++ R)%string = String a (A ++ R).
Proof. reflexivity. Qed.

Lemma append_empty (R : string) : ("" ++ R)%string = R.
Proof. reflexivity. Qed.

Lemma append_assoc (a b c : string) : ((a ++ b) ++ c)%string = (a ++ b ++ c)%string.
Proof. induction a as [|x a IH]; [done|]. by rewrite !append_String, IH. Qed.

Lemma prefix_icase_app pat A R :
  prefix_icase pat A = true -> prefix_icase pat (A ++ R) = true.
Proof.
  revert A. induction pat as [|p pat IH]; intros A; [done|].
  destruct A as [|a A]; [done|]. cbn.
  intros [H1 H2]%andb_true_iff. rewrite append_String. cbn. rewrite H1. by apply IH.
Qed.

Lemma prefix_icase_length pat A :
  prefix_icase pat A = true -> (String.length pat <= String.length A)%nat.
Proof.
  revert A. induction pat as [|p pat IH]; intros A; cbn; [lia|].
  destruct A as [|a A]; [done|]. cbn.
  intros [_ H]%andb_true_iff. apply IH in H. lia.
Qed.

Lemma prefix_icase_cut tail A R :
  MacroSpec.free_of lbrace tail = true ->
  prefix_icase tail (A ++ String lbrace R) = true -> prefix_icase tail A = true.
Proof.
  revert A. induction tail as [|p tail IH]; intros A Hfree; [done|].
  cbn in Hfree. apply andb_true_iff in Hfree as [Hp Hfree].
  destruct A as [|a A].
  - rewrite append_empty. cbn.
    intros [H _]%andb_true_iff. apply Ascii.eqb_eq, tolower_lbrace in H. subst p.
    by rewrite Ascii.eqb_refl in Hp.
  - rewrite append_String. cbn.
    intros [H1 H2]%andb_true_iff. rewrite H1. cbn. by apply IH.
Qed.

Lemma replace_from_app_l tail fmt A R k :
  MacroSpec.free_of lbrace tail = true ->
  (k <= String.length A)%nat ->
  replace_from (String lbrace tail) fmt k (A ++ String lbrace R)
  = (replace_from (String lbrace tail) fmt k A
     ++ replace_from (String lbrace tail) fmt 0 (String lbrace R))%string.
Proof.
  intros Hfree. revert k. induction A as [|a A IH]; intros k Hk.
  - cbn in Hk. replace k with 0%nat by lia. reflexivity.
  - rewrite append_String. cbn [replace_from]. destruct k as [|k].
    + destruct (prefix_icase (String lbrace tail) (String a (A ++ String lbrace R))) eqn:E.
      * cbn in E. apply andb_true_iff in E as [E1 E2].
        apply prefix_icase_cut in E2; [|done].
        assert (prefix_icase (String lbrace tail) (String a A) = true) as ->.
        { cbn. by rewrite E1, E2. }
        apply prefix_icase_length in E2.
        rewrite IH by (cbn; lia).
        symmetry. apply append_assoc.
      * assert (prefix_icase (String lbrace tail) (String a A) = false) as ->.
        { destruct (prefix_icase (String lbrace tail) (String a A)) eqn:E'; [|done].
          apply (prefix_icase_app _ _ (String lbrace R)) in E'.
          rewrite append_String in E'. congruence. }
        rewrite append_String. f_equal. apply IH. lia.
    + apply IH. cbn in Hk. lia.
Qed.

Lemma replace_from_free tail fmt s B :
  MacroSpec.free_of lbrace s = true ->
  replace_from (String lbrace tail) fmt 0 (s ++ B)
  = (s ++ replace_from (String lbrace tail) fmt 0 B)%string.
Proof.
  induction s as [|c s IH]; intros Hfree; [done|].
  cbn in Hfree. apply andb_true_iff in Hfree as [Hc Hfree].
  rewrite !append_String. cbn [replace_from prefix_icase].
  assert ((tolower lbrace =? tolower c)%char = false) as ->.
  { apply Ascii.eqb_neq. intros H. symmetry in H. apply tolower_lbrace in H.
    subst c. by rewrite Ascii.eqb_refl in Hc. }
  cbn. f_equal. by apply IH.
Qed.

Lemma free_of_app c (s r : string) :
  MacroSpec.free_of c (s ++ r) = MacroSpec.free_of c s && MacroSpec.free_of c r.
Proof.
  induction s as [|a s IH]; [done|].
  rewrite append_String. cbn. rewrite IH. by rewrite andb_assoc.
Qed.

Lemma prefix_icase_name n0 name B :
  MacroSpec.brace_free n0 = true ->
  MacroSpec.brace_free name = true ->
  prefix_icase (n0 ++ String rbrace "") (name ++ String rbrace B) = true ->
  lower name = lower n0.
Proof.
  unfold MacroSpec.brace_free.
  revert name. induction n0 as [|p n0 IH]; intros name H0 Hn.
  - destruct name as [|c name]; [done|]. rewrite append_empty, append_String. cbn.
    intros [H _]%andb_true_iff. apply Ascii.eqb_eq in H. symmetry in H.
    apply tolower_rbrace in H. subst c.
    apply andb_true_iff in Hn as [_ Hn]. cbn in Hn. discriminate Hn.
  - destruct name as [|c name]; rewrite ?append_empty, ?append_String; cbn.
    + intros [H _]%andb_true_iff. apply Ascii.eqb_eq, tolower_rbrace in H. subst p.
      apply andb_true_iff in H0 as [_ H0]. cbn in H0. discriminate H0.
    + intros [H1 H2]%andb_true_iff. apply Ascii.eqb_eq in H1. rewrite H1. f_equal.
      apply IH; [| |done].
      * cbn in H0. apply andb_true_iff in H0 as [[_ ?]%andb_true_iff [_ ?]%andb_true_iff].
        by apply andb_true_iff.
      * cbn in Hn. apply andb_true_iff in Hn as [[_ ?]%andb_true_iff [_ ?]%andb_true_iff].
        by apply andb_true_iff.
Qed.

(** A brace-delimited word that is not the pattern's is copied, and the text
    before and after it is rewritten as if it stood alone. *)
Lemma regex_replace_placeholder n0 fmt pre name post :
  MacroSpec.brace_free n0 = true ->
  MacroSpec.brace_free name = true ->
  lower name <> lower n0 ->
  let pat := ("{" ++ n0 ++ "}")%string in
  regex_replace (pre ++ "{" ++ name ++ "}" ++ post) pat fmt
  = (regex_replace pre pat fmt ++ "{" ++ name ++ "}"
     ++ regex_replace post pat fmt)%string.
Proof.
  intros H0 Hn Hne pat. unfold regex_replace, pat.
  apply andb_true_iff in H0 as H0'. destruct H0' as [H0l _].
  apply andb_true_iff in Hn as Hn'. destruct Hn' as [Hnl _].
  rewrite !append_String, !append_empty.
  rewrite replace_from_app_l by (rewrite ?free_of_app, ?H0l; done || lia). f_equal.
  cbn [replace_from].
  destruct (prefix_icase _ _) eqn:E.
  { exfalso. apply Hne. cbn in E. apply andb_true_iff in E as [_ E].
    by apply prefix_icase_name in E. }
  f_equal.
  rewrite replace_from_free by done. reflexivity.
Qed.

(** An occurrence of the pattern, in any letter case, is replaced by the
    format string, the text before and after it being rewritten as if it
    stood alone. *)
Lemma regex_replace_occurrence n0 fmt pre name post :
  MacroSpec.brace_free n0 = true ->
  lower name = lower n0 ->
  String.length name = String.length n0 ->
  let pat := ("{" ++ n0 ++ "}")%string in
  regex_replace (pre ++ "{" ++ name ++ "}" ++ post) pat fmt
  = (regex_replace pre pat fmt ++ fmt ++ regex_replace post pat fmt)%string.
Proof.
  intros H0 Hn Hlen pat. unfold regex_replace, pat.
  apply andb_true_iff in H0 as H0'. destruct H0' as [H0l _].
  rewrite !append_String, !append_empty.
  rewrite replace_from_app_l by (rewrite ?free_of_app, ?H0l; done || lia). f_equal.
  cbn [replace_from]. unfold lbrace, rbrace in *.
  assert (forall a b : string, lower a = lower b ->
            prefix_icase (b ++ "}") (a ++ String "}" post) = true) as Hpre.
  { induction a as [|x a IH]; intros [|y b]; try done; cbn.
    intros [= Hx Hab]. rewrite !append_String. cbn.
    rewrite Hx, Ascii.eqb_refl. by apply IH. }
  assert (forall (a : string) k r, k = String.length a ->
            replace_from (String "{" (n0 ++ "}")) fmt (S k) (a ++ String "}" r)
            = replace_from (String "{" (n0 ++ "}")) fmt 0 r) as Hskip.
  { induction a as [|x a IH]; intros k r ->; [done|].
    rewrite append_String. cbn [replace_from String.length]. by apply IH. }
  assert (forall a b : string,
            String.length (a ++ b) = (String.length a + String.length b)%nat) as Hl.
  { induction a as [|x a IH]; intros b; [done|]. rewrite append_String. cbn. by rewrite IH. }
  destruct (prefix_icase _ _) eqn:E.
  - f_equal.
    replace (String.length (String "{" (n0 ++ "}")) - 1)%nat with (S (String.length name))
      by (cbn; rewrite Hl; cbn; lia).
    by apply Hskip.
  - cbn in E. by rewrite Hpre in E.
Qed.

(** [materialize] is the substitution of the macros the specification lists
    for the requested macro; in particular it never reaches the exception of
    [MACRO_REGEX.at]. *)
Lemma materialize_refines (m : PatternMacro.t) (template : string) (w : Z) :
  Macro.materialize m template w = Some (MacroSpec.materialize m template w).
Proof. destruct m; reflexivity. Qed.

Lemma at_or_below_table :
  MacroSpec.at_or_below PatternMacro.DAILY = [PatternMacro.DAILY]
  /\ MacroSpec.at_or_below PatternMacro.HOURLY = [PatternMacro.DAILY; PatternMacro.HOURLY]
  /\ MacroSpec.at_or_below PatternMacro.MINUTELY
     = [PatternMacro.DAILY; PatternMacro.HOURLY; PatternMacro.MINUTELY]
  /\ MacroSpec.at_or_below PatternMacro.SECONDLY
     = [PatternMacro.DAILY; PatternMacro.HOURLY; PatternMacro.MINUTELY; PatternMacro.SECONDLY].
Proof. repeat split; reflexivity. Qed.

Lemma substitute_placeholder (k : PatternMacro.t) (w : Z) (pre name post : string) :
  k <> PatternMacro.INVALID ->
  MacroSpec.brace_free name = true ->
  lower name <> MacroSpec.name k ->
  MacroSpec.substitute w (pre ++ "{" ++ name ++ "}" ++ post) k
  = (MacroSpec.substitute w pre k ++ "{" ++ name ++ "}"
     ++ MacroSpec.substitute w post k)%string.
Proof.
  intros Hk Hn Hne. unfold MacroSpec.substitute.
  assert (MacroSpec.placeholder k = "{" ++ MacroSpec.name k ++ "}")%string as ->
    by (by destruct k).
  apply regex_replace_placeholder; [by destruct k|done|].
  by replace (lower (MacroSpec.name k)) with (MacroSpec.name k) by (by destruct k).
Qed.

Lemma foldl_substitute_placeholder (ks : list PatternMacro.t) (w : Z)
    (pre name post : string) :
  PatternMacro.INVALID ∉ ks ->
  MacroSpec.brace_free name = true ->
  (forall k, k ∈ ks -> lower name <> MacroSpec.name k) ->
  foldl (MacroSpec.substitute w) (pre ++ "{" ++ name ++ "}" ++ post) ks
  = (foldl (MacroSpec.substitute w) pre ks ++ "{" ++ name ++ "}"
     ++ foldl (MacroSpec.substitute w) post ks)%string.
Proof.
  intros Hv Hn. revert pre post. induction ks as [|k ks IH]; intros pre post Hne; [done|].
  cbn [foldl]. rewrite substitute_placeholder.
  - apply IH; [intros ?; apply Hv; by right|]. intros k' ?. apply Hne. by right.
  - intros ->. apply Hv. by left.
  - done.
  - apply Hne. by left.
Qed.

Lemma substituted_valid m : PatternMacro.INVALID ∉ MacroSpec.substituted m.
Proof.
  destruct m; vm_compute; intros H;
    repeat (apply elem_of_cons in H as [H|H]; [discriminate H|]);
    by apply elem_of_nil in H.
Qed.

(** ** [Macro::materialize] after [Macro::extract] *)

Lemma all_chars_app f (a b : string) :
  MacroSpec.all_chars f (a ++ b) = MacroSpec.all_chars f a && MacroSpec.all_chars f b.
Proof.
  induction a as [|x a IH]; [done|].
  rewrite append_String. cbn. by rewrite IH, andb_assoc.
Qed.

Lemma plain_app (a b : string) :
  MacroSpec.plain a = true -> MacroSpec.all_chars MacroSpec.is_plain b = true ->
  MacroSpec.plain (a ++ b) = true.
Proof.
  destruct a as [|x a]; [done|]. unfold MacroSpec.plain. rewrite append_String.
  change (String x (a ++ b)) with (String x a ++ b)%string.
  intros Ha Hb. by rewrite all_chars_app, Ha, Hb.
Qed.

Lemma plain_all (a : string) :
  MacroSpec.plain a = true -> MacroSpec.all_chars MacroSpec.is_plain a = true.
Proof. by destruct a. Qed.

Lemma uint_plain (u : Decimal.uint) :
  MacroSpec.all_chars MacroSpec.is_plain (NilEmpty.string_of_uint u) = true.
Proof. induction u; cbn; done. Qed.

Lemma to_string_plain (z : Z) : MacroSpec.plain (Evidence.to_string z) = true.
Proof.
  unfold Evidence.to_string, NilZero.string_of_int, NilZero.string_of_uint.
  destruct (Z.to_int z) as [u|u].
  - destruct u; try done; cbn; apply uint_plain.
  - destruct u; try done; cbn; apply uint_plain.
Qed.

Lemma pad_plain (width : nat) (z : Z) : MacroSpec.plain (Evidence.pad width z) = true.
Proof.
  unfold Evidence.pad. pose proof (to_string_plain z) as H.
  induction (width - String.length (Evidence.to_string z))%nat as [|n IH]; [done|].
  cbn. rewrite append_String. apply plain_all in IH. unfold MacroSpec.plain. cbn.
  exact IH.
Qed.

Lemma rendered_plain (k : PatternMacro.t) (w : Z) :
  k <> PatternMacro.INVALID -> MacroSpec.plain (MacroSpec.rendered k w) = true.
Proof.
  destruct k; try done; intros _; cbn;
    try apply pad_plain; try apply to_string_plain.
  unfold Evidence.fmt_ymd_dash.
  destruct (Evidence.civil_from_days (w `div` Evidence.DAY_SECONDS)) as [[y m] d].
  apply plain_app; [apply pad_plain|].
  rewrite !all_chars_app.
  repeat (apply andb_true_iff; split); try done; apply plain_all, pad_plain.
Qed.

Lemma append_split (a b c d : string) :
  (a ++ b)%string = (c ++ d)%string ->
  (exists e, c = (a ++ e)%string /\ b = (e ++ d)%string)
  \/ (exists y e, a = (c ++ String y e)%string /\ d = (String y e ++ b)%string).
Proof.
  revert c. induction a as [|x a IH]; intros c H.
  - left. exists c. by rewrite !append_empty in *.
  - destruct c as [|z c].
    + right. exists x, a. by rewrite append_empty in *.
    + rewrite !append_String in H. injection H as -> H.
      destruct (IH c H) as [(e & -> & ->)|(y & e & -> & ->)].
      * left. by exists e.
      * right. by exists y, e.
Qed.

Section ReplaceKeeps.
Variables (tail fmt : string).
Hypothesis fmt_plain : MacroSpec.plain fmt = true.

Let pat := String lbrace tail.

Lemma replace_prefix_body (q s r : string) :
  MacroSpec.all_chars MacroSpec.is_name_char q = true ->
  replace_from pat fmt 0 s = (q ++ r)%string ->
  exists r', s = (q ++ r')%string.
Proof.
  revert s. induction q as [|x q IH]; intros s Hq H; [by exists s|].
  cbn in Hq. apply andb_true_iff in Hq as [Hx Hq].
  destruct s as [|c s]; [done|].
  rewrite append_String in H. cbn [replace_from] in H.
  destruct (prefix_icase pat (String c s)).
  - destruct fmt as [|f0 fmt']; [done|].
    rewrite append_String in H. injection H as -> _.
    cbn in fmt_plain. unfold MacroSpec.is_name_char in Hx.
    apply andb_true_iff in fmt_plain as [Hf _]. rewrite Hf in Hx.
    by rewrite andb_false_r in Hx.
  - injection H as -> H. destruct (IH s Hq H) as [r' ->]. by exists r'.
Qed.

Lemma replace_prefix_placeholder (q s r : string) :
  MacroSpec.all_chars MacroSpec.is_name_char q = true ->
  replace_from pat fmt 0 s = (String lbrace q ++ r)%string ->
  exists r', s = (String lbrace q ++ r')%string /\ prefix_icase pat s = false.
Proof.
  intros Hq H. destruct s as [|c s]; [done|].
  rewrite append_String in H. cbn [replace_from] in H.
  destruct (prefix_icase pat (String c s)) eqn:E.
  - destruct fmt as [|f0 fmt']; [done|].
    rewrite append_String in H. injection H as -> _.
    cbn in fmt_plain. by apply andb_true_iff in fmt_plain as [Hf _].
  - injection H as -> H. destruct (replace_prefix_body q s r Hq H) as [r' ->].
    by exists r'.
Qed.

(** An occurrence of [{q] in the output of [regex_replace] is an occurrence
    in its input, at a place where the pattern does not match. *)
Lemma replace_occurs (q s pre post : string) (k : nat) :
  MacroSpec.all_chars MacroSpec.is_name_char q = true ->
  replace_from pat fmt k s = (pre ++ String lbrace q ++ post)%string ->
  exists pre' post',
    s = (pre' ++ String lbrace q ++ post')%string
    /\ prefix_icase pat (String lbrace q ++ post') = false.
Proof.
  intros Hq. revert k pre. induction s as [|c s IH]; intros k pre H.
  - cbn in H. by destruct pre.
  - cbn [replace_from] in H. destruct k as [|k].
    + destruct (prefix_icase pat (String c s)) eqn:E.
      * apply append_split in H as [(e & -> & H)|(y & e & Hf & H)].
        -- destruct (IH _ _ H) as (pre' & post' & -> & Hno).
           by exists (String c pre'), post'.
        -- exfalso. rewrite !append_String in H. injection H as <- _.
           apply plain_all in fmt_plain. rewrite Hf, all_chars_app in fmt_plain.
           apply andb_true_iff in fmt_plain as [_ Hf']. cbn in Hf'.
           by apply andb_true_iff in Hf' as [Hf' _].
      * destruct pre as [|z pre].
        -- rewrite append_empty in H.
           assert (replace_from pat fmt 0 (String c s) = (String lbrace q ++ post)%string)
             as H' by (cbn [replace_from]; by rewrite E).
           destruct (replace_prefix_placeholder q _ post Hq H') as (r' & Hs & Hno).
           exists "", r'. rewrite append_empty. by rewrite <- Hs.
        -- rewrite append_String in H. injection H as -> H.
           destruct (IH _ _ H) as (pre' & post' & -> & Hno).
           by exists (String z pre'), post'.
    + destruct (IH _ _ H) as (pre' & post' & -> & Hno).
      by exists (String c pre'), post'.
Qed.

End ReplaceKeeps.

Lemma lower_app (a b : string) : lower (a ++ b) = (lower a ++ lower b)%string.
Proof. induction a as [|x a IH]; [done|]. rewrite append_String. cbn. by rewrite IH. Qed.

(** A string that reads as a placeholder once lowercased is a name between
    braces. *)
Lemma placeholder_shape (p n : string) :
  lower p = ("{" ++ n ++ "}")%string ->
  exists nm, p = ("{" ++ nm ++ "}")%string /\ lower nm = n.
Proof.
  destruct p as [|c p]; [done|]. rewrite append_String, append_empty. cbn.
  intros [= Hc H]. apply tolower_lbrace in Hc. subst c.
  assert (exists nm, p = (nm ++ "}")%string /\ lower nm = n) as (nm & -> & <-).
  { clear -H. revert p H. induction n as [|x n IH]; intros p H.
    - rewrite append_empty in H. destruct p as [|c [|??]]; try done.
      cbn in H. injection H as H. apply tolower_rbrace in H. subst c. by exists "".
    - destruct p as [|c p]; [done|]. rewrite append_String in H. cbn in H.
      injection H as <- H. destruct (IH p H) as (nm & -> & <-).
      by exists (String c nm). }
  by exists nm.
Qed.

Lemma prefix_icase_same (a b post : string) :
  lower a = lower b ->
  prefix_icase (b ++ "}") (a ++ String "}" post) = true.
Proof.
  revert b. induction a as [|x a IH]; intros [|y b]; try done; cbn.
  intros [= Hx Hab]. rewrite !append_String. cbn.
  rewrite Hx, Ascii.eqb_refl. by apply IH.
Qed.

Lemma is_word_tolower c : is_word (tolower c) = is_word c.
Proof. destruct c as [[] [] [] [] [] [] [] []]; reflexivity. Qed.

Lemma is_name_char_tolower c :
  MacroSpec.is_name_char (tolower c) = MacroSpec.is_name_char c.
Proof. destruct c as [[] [] [] [] [] [] [] []]; reflexivity. Qed.

Lemma all_chars_lower f (s : string) :
  (forall c, f (tolower c) = f c) ->
  MacroSpec.all_chars f (lower s) = MacroSpec.all_chars f s.
Proof. intros Hf. induction s as [|c s IH]; [done|]. cbn. by rewrite Hf, IH. Qed.

(** *** Every placeholder of the template is found by [extract] *)

Lemma span_word_app (A X : string) (x : ascii) :
  is_word x = false ->
  span_word (A ++ String x X)
  = ((span_word A).1, ((span_word A).2 ++ String x X)%string).
Proof.
  intros Hx. induction A as [|c A IH].
  - rewrite append_empty. cbn. by rewrite Hx.
  - rewrite append_String. cbn. destruct (is_word c); [|done].
    rewrite IH. by destruct (span_word A).
Qed.

Lemma span_word_all (w R : string) (x : ascii) :
  MacroSpec.all_chars is_word w = true -> is_word x = false ->
  span_word (w ++ String x R) = (w, String x R).
Proof.
  intros Hw Hx. induction w as [|c w IH].
  - rewrite append_empty. cbn. by rewrite Hx.
  - cbn in Hw. apply andb_true_iff in Hw as [Hc Hw].
    rewrite append_String. cbn. rewrite Hc, IH; done.
Qed.

Lemma span_word_length (A : string) :
  (String.length (span_word A).1 + String.length (span_word A).2 = String.length A)%nat.
Proof.
  induction A as [|c A IH]; [done|]. cbn. destruct (is_word c); [|done].
  destruct (span_word A). cbn in *. lia.
Qed.

Lemma match_here_app (c : ascii) (A R : string) :
  match_here (String c A ++ String lbrace R) = match_here (String c A).
Proof.
  rewrite append_String. cbn. destruct (Ascii.eqb c lbrace); [|done].
  rewrite span_word_app by done.
  destruct (span_word A) as [w r]. cbn.
  destruct w as [|w0 w]; [by destruct r|]. by destruct r.
Qed.

Lemma match_here_length (c : ascii) (A w : string) :
  match_here (String c A) = Some w -> (S (String.length w) <= String.length A)%nat.
Proof.
  cbn. destruct (Ascii.eqb c lbrace); [|done].
  pose proof (span_word_length A) as Hl.
  destruct (span_word A) as [[|w0 w'] [|c' r]]; try done.
  destruct (Ascii.eqb c' rbrace); [|done]. intros [= <-]. cbn in *. lia.
Qed.

Lemma search_from_app (A R : string) (k : nat) :
  (k <= String.length A)%nat ->
  search_from k (A ++ String lbrace R)
  = (search_from k A ++ search_from 0 (String lbrace R))%list.
Proof.
  revert k. induction A as [|c A IH]; intros k Hk.
  - cbn in Hk. by replace k with 0%nat by lia.
  - destruct k as [|k].
    + rewrite append_String. cbn [search_from]. rewrite <- append_String.
      rewrite match_here_app.
      destruct (match_here (String c A)) as [w|] eqn:E.
      * apply match_here_length in E. cbn. f_equal. apply IH. lia.
      * apply IH. lia.
    + rewrite append_String. cbn [search_from]. apply IH. cbn in Hk. lia.
Qed.

Lemma sregex_iterator_occurrence (pre nm post : string) :
  nm <> "" -> MacroSpec.all_chars is_word nm = true ->
  nm ∈ sregex_iterator (pre ++ "{" ++ nm ++ "}" ++ post).
Proof.
  intros Hne Hw. unfold sregex_iterator.
  rewrite !append_String, !append_empty.
  rewrite search_from_app by lia. apply elem_of_app. right.
  cbn [search_from].
  assert (match_here (String lbrace (nm ++ String "}" post)) = Some nm) as ->.
  { cbn. rewrite span_word_all by done. by destruct nm. }
  by left.
Qed.

(** A placeholder that occurs in the template, in any letter case, has its
    macro among those [extract] finds. *)
Lemma macros_found_occurrence (T p : string) (k : PatternMacro.t) :
  k <> PatternMacro.INVALID ->
  lower p = MacroSpec.placeholder k -> MacroSpec.occurs p T ->
  k ∈ MacroSpec.macros_found T.
Proof.
  intros Hk Hp (pre & post & ->).
  assert (MacroSpec.placeholder k = "{" ++ MacroSpec.name k ++ "}")%string as Hpl
    by (by destruct k).
  rewrite Hpl in Hp. apply placeholder_shape in Hp as (nm & -> & Hnm).
  unfold MacroSpec.macros_found. apply list_elem_of_omap. exists nm. split.
  - rewrite <- !append_assoc. rewrite !append_assoc.
    apply sregex_iterator_occurrence.
    + intros ->. by destruct k.
    + rewrite <- (all_chars_lower is_word) by apply is_word_tolower.
      rewrite Hnm. by destruct k.
  - rewrite Hnm. by destruct k.
Qed.

(** *** Substitution leaves no placeholder of its macro and makes none *)

Lemma substitute_occurs (k : PatternMacro.t) (w : Z) (s nm : string) :
  k <> PatternMacro.INVALID ->
  MacroSpec.all_chars MacroSpec.is_name_char (nm ++ "}") = true ->
  MacroSpec.occurs ("{" ++ nm ++ "}") (MacroSpec.substitute w s k) ->
  MacroSpec.occurs ("{" ++ nm ++ "}") s /\ lower nm <> MacroSpec.name k.
Proof.
  intros Hk Hnm (pre & post & H). unfold MacroSpec.substitute, regex_replace in H.
  assert (MacroSpec.placeholder k = String lbrace (MacroSpec.name k ++ "}")) as Hpl
    by (by destruct k).
  rewrite Hpl in H. rewrite !append_String, !append_empty in H.
  change (String "{" (nm ++ "}") ++ post)%string
    with (String lbrace (nm ++ "}") ++ post)%string in H.
  apply replace_occurs in H as (pre' & post' & -> & Hno);
    [|by apply rendered_plain|done].
  split.
  - exists pre', post'. by rewrite !append_String, !append_empty.
  - intros Heq. rewrite append_String in Hno. cbn in Hno.
    rewrite append_assoc, append_String, append_empty, Ascii.eqb_refl in Hno.
    rewrite (prefix_icase_same nm (MacroSpec.name k) post') in Hno; [done|].
    rewrite Heq. by destruct k.
Qed.

Lemma foldl_substitute_occurs (ks : list PatternMacro.t) (w : Z) (s nm : string) :
  PatternMacro.INVALID ∉ ks ->
  MacroSpec.all_chars MacroSpec.is_name_char (nm ++ "}") = true ->
  MacroSpec.occurs ("{" ++ nm ++ "}") (foldl (MacroSpec.substitute w) s ks) ->
  MacroSpec.occurs ("{" ++ nm ++ "}") s
  /\ forall k, k ∈ ks -> lower nm <> MacroSpec.name k.
Proof.
  intros Hv Hnm. revert s. induction ks as [|k ks IH]; intros s H.
  - split; [done|]. intros k Hk. by apply elem_of_nil in Hk.
  - cbn [foldl] in H. apply IH in H as [H Hks]; [|intros ?; apply Hv; by right].
    apply substitute_occurs in H as [H Hk]; [|intros ->; apply Hv; by left|done].
    split; [done|]. intros k' [->|Hk']%elem_of_cons; [done|by apply Hks].
Qed.

(** Where [extract] answers as specified and not INVALID, the macros found in
    the template are among those [materialize] substitutes. *)
Lemma macros_found_substituted (T : string) (k : PatternMacro.t) :
  Macro.extract T <> PatternMacro.INVALID ->
  Macro.extract T = MacroSpec.extract T ->
  k ∈ MacroSpec.macros_found T ->
  k ∈ MacroSpec.substituted (Macro.extract T).
Proof.
  intros Hv Heq Hk. pose proof (macros_found_valid T) as Hinv.
  unfold Macro.extract, MacroSpec.extract in *.
  rewrite extract_code_seen in *. rewrite flags_found_seen in Heq.
  unfold Seen.of_list in *.
  apply (bool_decide_eq_true_2 _) in Hk.
  destruct k; [| | | | |by apply bool_decide_eq_true in Hk];
    rewrite Hk in *;
    destruct (bool_decide (PatternMacro.TIMESTAMP ∈ MacroSpec.macros_found T)),
      (bool_decide (PatternMacro.HOURLY ∈ MacroSpec.macros_found T)),
      (bool_decide (PatternMacro.MINUTELY ∈ MacroSpec.macros_found T)),
      (bool_decide (PatternMacro.DAILY ∈ MacroSpec.macros_found T)),
      (bool_decide (PatternMacro.SECONDLY ∈ MacroSpec.macros_found T));
    try discriminate Hk; cbn in Hv, Heq |- *; try done;
    vm_compute; repeat first [by left | right].
Qed.

(** The "macro lattice" property, on the templates where [extract] answers
    as specified: what [materialize] makes of the template holds no
    recognized placeholder.  Together with [extract_vs_spec]: the property
    fails only through the value of the TIMESTAMP enumerator. *)
Lemma materialize_extract_no_placeholder (T : string) (w : Z) :
  Macro.extract T <> PatternMacro.INVALID ->
  Macro.extract T = MacroSpec.extract T ->
  exists s, Macro.materialize (Macro.extract T) T w = Some s
            /\ ~ MacroSpec.has_placeholder s.
Proof.
  intros Hv Heq. exists (MacroSpec.materialize (Macro.extract T) T w).
  split; [apply materialize_refines|].
  intros (p & k & Hk & Hp & Hocc).
  assert (MacroSpec.placeholder k = "{" ++ MacroSpec.name k ++ "}")%string as Hpl
    by (by destruct k).
  pose proof Hp as Hp'. rewrite Hpl in Hp'.
  apply placeholder_shape in Hp' as (nm & -> & Hnm).
  assert (MacroSpec.all_chars MacroSpec.is_name_char (nm ++ "}") = true) as Hchars.
  { rewrite all_chars_app. apply andb_true_iff. split; [|done].
    rewrite <- (all_chars_lower MacroSpec.is_name_char) by apply is_name_char_tolower.
    rewrite Hnm. by destruct k. }
  unfold MacroSpec.materialize in Hocc.
  apply foldl_substitute_occurs in Hocc as [Hocc Hneq];
    [|apply substituted_valid|done].
  apply (Hneq k); [|done].
  apply macros_found_substituted; [done..|].
  by apply (macros_found_occurrence T ("{" ++ nm ++ "}")).
Qed.

(** C2, evaluated on the code: for the template [{timestamp}{hour}] and any
    watermark, [extract] is not INVALID (it is TIMESTAMP) and the
    materialized string still holds the placeholder [{hour}]. *)
Theorem materialize_extract_timestamp_hour (w : Z) :
  Macro.extract "{timestamp}{hour}" <> PatternMacro.INVALID
  /\ Macro.materialize (Macro.extract "{timestamp}{hour}") "{timestamp}{hour}" w
     = Some (Evidence.to_string w ++ "{hour}")%string
  /\ MacroSpec.has_placeholder (Evidence.to_string w ++ "{hour}")%string.
Proof.
  split; [discriminate|]. split; [reflexivity|].
  exists "{hour}", PatternMacro.HOURLY.
  split; [discriminate|]. split; [reflexivity|].
  exists (Evidence.to_string w), "". reflexivity.
Qed.

(** ** [BlockManager::states] and [BlockManager::tables] *)

Lemma data_find_app node d d' :
  BlockManager.data_find node (d ++ d')
  = match BlockManager.data_find node d with
    | Some ts => Some ts
    | None => BlockManager.data_find node d'
    end.
Proof.
  induction d as [|[n ts] d IH]; [done|].
  cbn. by destruct (NNode.NodeEqual n node).
Qed.

Lemma NodeEqual_refl n : NNode.NodeEqual n n = true.
Proof. apply String.eqb_refl. Qed.

Lemma NodeEqual_sym n m : NNode.NodeEqual n m = NNode.NodeEqual m n.
Proof. apply String.eqb_sym. Qed.

(** C10: for a node without an entry, [states] adds one entry, with no
    table states, for it: the node is afterwards among the keys the loops
    over the map come to, the entries of the other nodes and the empty specs
    are as they were, and the new (empty) entry is what is returned; for a
    node that has an entry, [states] returns it and leaves the block manager
    as it is.  Nothing is said of where the new key stands among the
    others. *)
Theorem states_default_inserts (N : NNode.t) (bm : BlockManager.t) :
  match BlockManager.data_find N (BlockManager.data_ bm) with
  | None =>
      exists bm' : BlockManager.t,
        BlockManager.states N bm = ([], bm')
        /\ BlockManager.data_find N (BlockManager.data_ bm') = Some []
        /\ BlockManager.data_ bm' ≡ₚ (N, []) :: BlockManager.data_ bm
        /\ (forall M, M ∈ map fst (BlockManager.data_ bm')
                      <-> M = N \/ M ∈ map fst (BlockManager.data_ bm))
        /\ (forall M, NNode.NodeEqual N M = false ->
              BlockManager.data_find M (BlockManager.data_ bm')
              = BlockManager.data_find M (BlockManager.data_ bm))
        /\ BlockManager.emptySpecs_ bm' = BlockManager.emptySpecs_ bm
  | Some ts => BlockManager.states N bm = (ts, bm)
  end.
Proof.
  unfold BlockManager.states.
  destruct (BlockManager.data_find N (BlockManager.data_ bm)) as [ts|] eqn:E; [done|].
  eexists. split; [reflexivity|]. cbn [BlockManager.data_ BlockManager.emptySpecs_].
  assert ((BlockManager.data_ bm ++ [(N, [])])%list ≡ₚ (N, []) :: BlockManager.data_ bm)
    as Hperm by (by rewrite Permutation_app_comm).
  repeat split.
  - rewrite data_find_app, E. cbn. by rewrite NodeEqual_refl.
  - exact Hperm.
  - rewrite Hperm. cbn. by intros ?%elem_of_cons.
  - rewrite Hperm. cbn. by intros ?%elem_of_cons.
  - intros M HM. rewrite data_find_app. cbn. rewrite HM.
    by destruct (BlockManager.data_find M (BlockManager.data_ bm)).
Qed.

Lemma states_default_inserts_witness :
  exists bm', BlockManager.states (NNode.mk "B" true 0) (BlockManager.mk [(NNode.mk "A" true 0, [])] ∅) = ([], bm')
   /\ NNode.mk "B" true 0 ∈ map fst (BlockManager.data_ bm').
Proof.
  destruct (states_default_inserts (NNode.mk "B" true 0) (BlockManager.mk [(NNode.mk "A" true 0, [])] ∅))
    as (bm' & H1 & _ & _ & H3 & _).
  exists bm'. split; [exact H1|]. apply H3. by left.
Defined.

Lemma emplace_tables_spec sts tables x :
  x ∈ BlockManager.emplace_tables sts tables <-> x ∈ tables \/ x ∈ map fst sts.
Proof.
  unfold BlockManager.emplace_tables. revert tables.
  induction sts as [|[k v] sts IH]; intros tables; cbn.
  - rewrite elem_of_nil. tauto.
  - rewrite IH, elem_of_cons, elem_of_union, elem_of_singleton. tauto.
Qed.

Lemma tables_loop_subset limit d tables x :
  x ∈ BlockManager.tables_loop limit d tables ->
  x ∈ tables \/ exists node sts, (node, sts) ∈ d /\ x ∈ map fst sts.
Proof.
  revert tables. induction d as [|[n sts] d IH]; intros tables; cbn; [auto|].
  destruct (_ <=? _)%nat.
  - intros [?|?]%emplace_tables_spec; [auto|]. right. exists n, sts. split; [left|done].
  - intros [[?|?]%emplace_tables_spec | (n' & sts' & ? & ?)]%IH; [auto| |].
    + right. exists n, sts. split; [left|done].
    + right. exists n', sts'. split; [by right|done].
Qed.

(** The names [tables] returns are names of table states of known nodes. *)
Lemma tables_from_states limit bm x :
  x ∈ BlockManager.tables limit bm ->
  exists node sts, (node, sts) ∈ BlockManager.data_ bm /\ x ∈ map fst sts.
Proof.
  intros [H|H]%tables_loop_subset; [|done]. by apply not_elem_of_empty in H.
Qed.

(** C9, evaluated on the code: with one known node that holds the tables
    [a] and [b], [tables 1] returns both names, more than the limit: the
    size is compared with the limit only after all tables of a node have
    been added. *)
Theorem tables_exceeds_limit :
  let inproc := NNode.mk "0.0.0.0:0" true 0 in
  let bm := BlockManager.mk
              [(inproc, [("a", TableState.mk "a" []); ("b", TableState.mk "b" [])])] ∅ in
  BlockManager.tables 1 bm = {["a"; "b"]} /\ size (BlockManager.tables 1 bm) = 2%nat.
Proof. split; reflexivity. Qed.

(** ** [SpecRepo::lost] *)

Lemma foldl_concat {A S : Type} (f : S -> A -> S) (ls : list (list A)) (s : S) :
  foldl (fun acc l => foldl f acc l) s ls = foldl f s (concat ls).
Proof.
  revert s. induction ls as [|l ls IH]; intros s; [done|].
  cbn. rewrite foldl_app. apply IH.
Qed.

Lemma lost_pointers addr ts σ :
  SpecRepo.lost addr ts σ
  = foldl (SpecRepo.lost_spec addr) (σ, 0%nat) (SpecRepo.pointers ts).
Proof.
  unfold SpecRepo.lost, SpecRepo.pointers.
  rewrite <- foldl_concat. generalize (σ, 0%nat). 
  induction (TableService.all ts) as [|r rs IH]; intros acc; [done|].
  cbn. apply IH.
Qed.

Lemma resetSpec_fields spec :
  Spec.affinity (SpecRepo.resetSpec spec) = NNode.invalid
  /\ Spec.state (SpecRepo.resetSpec spec) = Spec.NEW
  /\ Spec.id (SpecRepo.resetSpec spec) = Spec.id spec.
Proof. done. Qed.

Lemma lost_spec_miss addr σ n p :
  SpecRepo.on_node addr σ p = false -> SpecRepo.lost_spec addr (σ, n) p = (σ, n).
Proof.
  unfold SpecRepo.on_node, SpecRepo.lost_spec.
  destruct (σ !! p) as [spec|]; [|done]. by intros ->.
Qed.

Lemma lost_spec_hit addr (σ : Store) n p spec :
  σ !! p = Some spec -> SpecRepo.on_node addr σ p = true ->
  SpecRepo.lost_spec addr (σ, n) p = (<[p := SpecRepo.resetSpec spec]> σ, S n).
Proof.
  unfold SpecRepo.on_node, SpecRepo.lost_spec. intros ->. by intros ->.
Qed.

Lemma on_node_insert_reset addr (σ : Store) p spec q :
  SpecRepo.on_node addr (<[p := SpecRepo.resetSpec spec]> σ) q
  = if decide (p = q) then false else SpecRepo.on_node addr σ q.
Proof.
  unfold SpecRepo.on_node. rewrite lookup_insert.
  by destruct (decide (p = q)).
Qed.

Lemma lost_list addr (ptrs : list SpecPtr) (σ : Store) (n : nat) :
  let r := foldl (SpecRepo.lost_spec addr) (σ, n) ptrs in
  (forall p, r.1 !! p
             = if bool_decide (p ∈ ptrs) && SpecRepo.on_node addr σ p
               then SpecRepo.resetSpec <$> σ !! p else σ !! p)
  /\ r.2 = (n + size (SpecRepo.hits addr σ ptrs))%nat.
Proof.
  revert σ n. induction ptrs as [|p0 ptrs IH]; intros σ n.
  - cbn. split; [done|]. unfold SpecRepo.hits. cbn. rewrite filter_empty_L, size_empty; [lia | apply _].
  - cbn [foldl]. destruct (SpecRepo.on_node addr σ p0) eqn:E.
    + destruct (σ !! p0) as [spec|] eqn:Ep; [|by unfold SpecRepo.on_node in E; rewrite Ep in E].
      rewrite (lost_spec_hit _ _ _ _ _ Ep E).
      destruct (IH (<[p0 := SpecRepo.resetSpec spec]> σ) (S n)) as [IH1 IH2].
      split.
      * intros p. rewrite IH1, on_node_insert_reset, lookup_insert.
        destruct (decide (p0 = p)) as [->|Hne].
        -- rewrite andb_false_r, E, Ep.
           rewrite bool_decide_eq_true_2 by (by left). done.
        -- assert (bool_decide (p ∈ p0 :: ptrs) = bool_decide (p ∈ ptrs)) as ->.
           { apply bool_decide_ext. rewrite elem_of_cons. naive_solver. }
           done.
      * rewrite IH2. 
        assert (SpecRepo.hits addr σ (p0 :: ptrs)
                = {[p0]} ∪ SpecRepo.hits addr (<[p0 := SpecRepo.resetSpec spec]> σ) ptrs) as ->.
        { apply set_eq. intros x. unfold SpecRepo.hits.
          rewrite elem_of_union, !elem_of_filter, elem_of_singleton.
          rewrite on_node_insert_reset, list_to_set_cons, elem_of_union, elem_of_singleton.
          destruct (decide (p0 = x)) as [->|]; naive_solver. }
        rewrite size_union.
        -- rewrite size_singleton. lia.
        -- intros x. unfold SpecRepo.hits. rewrite elem_of_singleton, elem_of_filter.
           intros -> [H _]. rewrite on_node_insert_reset in H.
           by rewrite decide_True in H.
    + rewrite (lost_spec_miss _ _ _ _ E).
      destruct (IH σ n) as [IH1 IH2]. split.
      * intros p. rewrite IH1.
        destruct (decide (p = p0)) as [->|Hne].
        -- rewrite E, !andb_false_r. done.
        -- assert (bool_decide (p ∈ p0 :: ptrs) = bool_decide (p ∈ ptrs)) as ->; [|done].
           apply bool_decide_ext. rewrite elem_of_cons. naive_solver.
      * rewrite IH2. f_equal. f_equal. apply set_eq. intros x. unfold SpecRepo.hits.
        rewrite !elem_of_filter, list_to_set_cons, elem_of_union, elem_of_singleton.
        split; [naive_solver|]. intros [H [->|?]]; [congruence|done].
Qed.

(** C8: [lost addr] turns every spec that a registry points to and that is
    assigned to the node of address [addr] into its reset form (affinity the
    invalid node, state NEW, same id) and leaves every other spec of the
    store as it is; the number returned is the number of specs so reset. *)
Theorem lost_resets_exactly (addr : string) (ts : TableService.t) (σ : Store) :
  (forall p,
     (SpecRepo.lost addr ts σ).1 !! p
     = if bool_decide (p ∈ SpecRepo.pointers ts) && SpecRepo.on_node addr σ p
       then SpecRepo.resetSpec <$> σ !! p else σ !! p)
  /\ (SpecRepo.lost addr ts σ).2 = size (SpecRepo.hits addr σ (SpecRepo.pointers ts))
  /\ (forall spec,
        Spec.affinity (SpecRepo.resetSpec spec) = NNode.invalid
        /\ Spec.state (SpecRepo.resetSpec spec) = Spec.NEW
        /\ Spec.id (SpecRepo.resetSpec spec) = Spec.id spec).
Proof.
  rewrite lost_pointers.
  destruct (lost_list addr (SpecRepo.pointers ts) σ 0) as [H1 H2].
  split; [exact H1|]. split; [exact H2|]. apply resetSpec_fields.
Qed.

(** The spec's fifth scenario, first half: node A holds the ready spec k1;
    [lost "A"] returns 1 and leaves k1 NEW and unassigned. *)
Example lost_scenario :
  let A := NNode.mk "A" true 0 in
  let k1 := Spec.mk "k1" Spec.READY (Some A) in
  let k2 := Spec.mk "k2" Spec.READY (Some (NNode.mk "B" true 0)) in
  let σ : Store := <[0%nat := k1]> (<[1%nat := k2]> ∅) in
  let ts : TableService.t := [("t", TableService.mkRegistry [0; 1]%nat ∅)] in
  (SpecRepo.lost "A" ts σ).2 = 1%nat
  /\ (SpecRepo.lost "A" ts σ).1 !! 0%nat = Some (Spec.mk "k1" Spec.NEW None)
  /\ (SpecRepo.lost "A" ts σ).1 !! 1%nat = Some k2.
Proof. repeat split; reflexivity. Qed.

(** ** [SpecRepo::expire] *)

Lemma expire_pred_online ts table spec :
  SpecRepo.expire_pred ts table spec = true ->
  TableService.online (TableService.query ts table) spec = false.
Proof.
  unfold SpecRepo.expire_pred.
  destruct (TableService.query ts table) as [reg|]; [|done].
  cbn. by destruct (bool_decide _).
Qed.

Lemma TableState_expired_pred pred s table spec :
  (table, spec) ∈ (TableState.expired pred s).1 -> pred table spec = true.
Proof.
  unfold TableState.expired. cbn.
  rewrite elem_of_list_to_set, list_elem_of_fmap.
  intros (b & [= -> ->] & Hb). by apply list_elem_of_filter in Hb as [Hb _].
Qed.

Lemma expire_states_pred ts states table spec :
  (table, spec) ∈ (SpecRepo.expire_states ts states).1.1 ->
  SpecRepo.expire_pred ts table spec = true.
Proof.
  unfold SpecRepo.expire_states.
  assert (forall acc : gset (string * string) * N * TableStates,
            (forall t s, (t, s) ∈ acc.1.1 -> SpecRepo.expire_pred ts t s = true) ->
            forall t s,
              (t, s) ∈ (foldl
                (fun '(expired, memorySize, seen) '(name, state) =>
                   let '(pairs, state') := TableState.expired (SpecRepo.expire_pred ts) state in
                   (pairs ∪ expired, (memorySize + TableState.rawBytes state')%N,
                    (seen ++ [(name, state')])%list)) acc states).1.1 ->
              SpecRepo.expire_pred ts t s = true) as H.
  { induction states as [|[name state] states IH]; intros [[expired mem] seen] Hacc t s; cbn.
    - apply Hacc.
    - apply IH. intros t' s' H. cbn in H. apply elem_of_union in H as [H|H]; [|by apply Hacc].
      apply (TableState_expired_pred _ state). exact H. }
  apply H. cbn. intros t s Hin. by apply not_elem_of_empty in Hin.
Qed.

Lemma expire_node_sound update ts e node :
  SpecRepo.tasks_sound ts e -> SpecRepo.tasks_sound ts (SpecRepo.expire_node update ts e node).
Proof.
  intros [H1 H2]. unfold SpecRepo.expire_node.
  destruct (NNode.isActive node); [|done].
  destruct (BlockManager.states node _) as [states bm].
  pose proof (expire_states_pred ts states) as Hp.
  destruct (SpecRepo.expire_states ts states) as [[expired mem] states'].
  cbn in Hp. split; cbn [SpecRepo.ex_tasks SpecRepo.numExpired].
  - destruct (0 <? size expired)%nat; intros n ex table spec Hin Hpair;
      [|by eapply H1].
    apply elem_of_app in Hin as [Hin|Hin]; [by eapply H1|].
    apply list_elem_of_singleton in Hin as [= -> ->].
    by apply expire_pred_online, Hp.
  - rewrite H2. destruct (0 <? size expired)%nat eqn:E.
    + rewrite sum_list_with_app. cbn. lia.
    + apply Nat.ltb_ge in E. lia.
Qed.

(** C6: every (table, spec id) pair that [expire] put into an EXPIRATION task
    is not online in the registry the table service answers for that table,
    and the number [expire] returns is the number of pairs of those tasks,
    node by node. *)
Theorem expire_sound (update : NNode.t -> BlockManager.t -> BlockManager.t)
    (nodes : list NNode.t) (ts : TableService.t) (bm : BlockManager.t) :
  let e := SpecRepo.expire update nodes ts bm in
  (forall node expired table spec,
     (node, expired) ∈ SpecRepo.ex_tasks e -> (table, spec) ∈ expired ->
     TableService.online (TableService.query ts table) spec = false)
  /\ SpecRepo.numExpired e = sum_list_with (fun t => size t.2) (SpecRepo.ex_tasks e).
Proof.
  unfold SpecRepo.expire.
  change (SpecRepo.tasks_sound ts (foldl (SpecRepo.expire_node update ts)
    {| SpecRepo.ex_bm := BlockManager.clearEmptySpecs bm; SpecRepo.ex_tasks := [];
       SpecRepo.ex_sizes := []; SpecRepo.numExpired := 0 |} nodes)).
  assert (SpecRepo.tasks_sound ts {| SpecRepo.ex_bm := BlockManager.clearEmptySpecs bm; SpecRepo.ex_tasks := [];
       SpecRepo.ex_sizes := []; SpecRepo.numExpired := 0 |}) as H0.
  { split; [|done]. intros ???? Hin. by apply elem_of_nil in Hin. }
  revert H0. generalize ({| SpecRepo.ex_bm := BlockManager.clearEmptySpecs bm; SpecRepo.ex_tasks := [];
       SpecRepo.ex_sizes := []; SpecRepo.numExpired := 0 |}).
  induction nodes as [|n nodes IH]; intros e He; [done|].
  cbn. apply IH. by apply expire_node_sound.
Qed.

(** The spec's sixth scenario: the worker reports blocks of the specs [a] and
    [b] for table [T], whose registry lists [b] and [c]; [expire] sends one
    EXPIRATION task, for [a], and keeps the block of [b]. *)
Example expire_scenario :
  let W := NNode.mk "W" true 0 in
  let polled : TableStates :=
    [("T", TableState.mk "T" [TableState.mkBlock "a" 10; TableState.mkBlock "b" 20])] in
  let ts : TableService.t := [("T", TableService.mkRegistry [] {["b"; "c"]})] in
  let e := SpecRepo.expire (fun n bm => BlockManager.swap n polled bm) [W] ts
             (BlockManager.mk [] ∅) in
  SpecRepo.ex_tasks e = [(W, {[("T", "a")]})]
  /\ SpecRepo.numExpired e = 1%nat
  /\ BlockManager.data_ (SpecRepo.ex_bm e)
     = [(W, [("T", TableState.mk "T" [TableState.mkBlock "b" 20])])].
Proof. repeat split; reflexivity. Qed.

(** ** The placement loop of [SpecRepo::assign] *)

Lemma ring_next (size s k : nat) :
  (0 < size)%nat ->
  (((s + k) `mod` size + 1) `mod` size = (s + (k + 1)) `mod` size)%nat.
Proof.
  intros Hs. rewrite Nat.Div0.add_mod_idemp_l. f_equal. lia.
Qed.

Lemma ring_back (size s k : nat) :
  (s < size)%nat -> (k < size)%nat ->
  ((s + (k + 1)) `mod` size = s)%nat -> (k + 1 = size)%nat.
Proof.
  intros Hs Hk H.
  pose proof (Nat.div_mod_eq (s + (k + 1)) size) as E. rewrite H in E.
  assert ((s + (k + 1)) `div` size = 1)%nat; [|nia].
  assert ((s + (k + 1)) `div` size < 2)%nat by (apply Nat.Div0.div_lt_upper_bound; lia).
  assert ((s + (k + 1)) `div` size <> 0)%nat by nia. lia.
Qed.

Lemma ring_cover (size s i : nat) :
  (s < size)%nat -> (i < size)%nat ->
  exists j, (j < size)%nat /\ ((s + j) `mod` size = i)%nat.
Proof.
  intros Hs Hi. destruct (decide (s <= i)%nat).
  - exists (i - s)%nat. split; [lia|].
    replace (s + (i - s))%nat with i by lia. by apply Nat.mod_small.
  - exists (i + size - s)%nat. split; [lia|].
    replace (s + (i + size - s))%nat with (i + 1 * size)%nat by lia.
    rewrite Nat.Div0.mod_add. by apply Nat.mod_small.
Qed.

(** What the placement loop answers, [k] inactive nodes after its start. *)
Lemma place_ring (nodes : list NNode.t) (startId : nat) :
  let size := length nodes in
  (startId < size)%nat ->
  forall fuel k,
    (fuel + k = size)%nat -> (k < size)%nat ->
    (forall j n, (j < k)%nat -> nodes !! ((startId + j) `mod` size)%nat = Some n ->
                 NNode.isActive n = false) ->
    match SpecRepo.place fuel nodes size startId ((startId + k) `mod` size)%nat with
    | Some (Some (n, idx')) =>
        n ∈ nodes /\ NNode.isActive n = true /\ (idx' < size)%nat
    | Some None => SpecRepo.all_inactive nodes
    | None => False
    end.
Proof.
  intros size Hs. induction fuel as [|fuel IH]; intros k Hf Hk Hvis; [lia|].
  cbn [SpecRepo.place].
  assert (0 < size)%nat as Hpos by lia.
  pose proof (Nat.mod_upper_bound (startId + k) size ltac:(lia)) as Hidx.
  destruct (nodes !! ((startId + k) `mod` size)%nat) as [n|] eqn:En.
  2:{ apply lookup_ge_None in En. unfold size in *. lia. }
  destruct (NNode.isActive n) eqn:Ea.
  - split; [by eapply list_elem_of_lookup_2|]. split; [done|].
    apply Nat.mod_upper_bound. lia.
  - rewrite ring_next by done.
    assert (forall j n', (j < k + 1)%nat ->
              nodes !! ((startId + j) `mod` size)%nat = Some n' ->
              NNode.isActive n' = false) as Hvis'.
    { intros j n' Hj Hn'. destruct (decide (j = k)) as [->|]; [congruence|].
      apply (Hvis j); [lia|done]. }
    destruct (((startId + (k + 1)) `mod` size)%nat =? startId)%nat eqn:Eb.
    + apply Nat.eqb_eq, ring_back in Eb; [|done..].
      intros m Hm. apply list_elem_of_lookup in Hm as [i Hi].
      pose proof (lookup_lt_Some _ _ _ Hi) as Hlt.
      destruct (ring_cover size startId i Hs Hlt) as (j & Hj & <-).
      apply (Hvis' j m); [lia|done].
    + apply Nat.eqb_neq in Eb.
      assert (k + 1 <> size)%nat.
      { intros E. apply Eb. rewrite E.
        replace (startId + size)%nat with (startId + 1 * size)%nat by lia.
        rewrite Nat.Div0.mod_add. by apply Nat.mod_small. }
      apply IH; [lia|lia|done].
Qed.

(** The placement loop ends within one turn of the ring; it gives up exactly
    when no node is active, and otherwise answers an active node and a
    cursor inside the ring. *)
Lemma place_spec (nodes : list NNode.t) (idx : nat) :
  (idx < length nodes)%nat ->
  match SpecRepo.place (length nodes) nodes (length nodes) idx idx with
  | Some (Some (n, idx')) =>
      n ∈ nodes /\ NNode.isActive n = true /\ (idx' < length nodes)%nat
  | Some None => SpecRepo.all_inactive nodes
  | None => False
  end.
Proof.
  intros Hidx.
  pose proof (place_ring nodes idx Hidx (length nodes) 0) as H.
  cbv zeta in H. rewrite !Nat.add_0_r, Nat.mod_small in H by lia.
  apply H; lia.
Qed.

Lemma place_active fuel nodes size startId idx n idx' :
  SpecRepo.place fuel nodes size startId idx = Some (Some (n, idx')) ->
  n ∈ nodes /\ NNode.isActive n = true.
Proof.
  revert idx. induction fuel as [|fuel IH]; intros idx; [done|]. cbn.
  destruct (nodes !! idx) as [m|] eqn:E; [|done].
  destruct (NNode.isActive m) eqn:Ea.
  - intros [= <- <-]. split; [by eapply list_elem_of_lookup_2|done].
  - destruct (_ =? _)%nat; [done|]. apply IH.
Qed.

(** ** [std::sort] of the node snapshot *)

Lemma insert_by_size_perm n l : SpecRepo.insert_by_size n l ≡ₚ n :: l.
Proof.
  induction l as [|m l IH]; [done|]. cbn.
  destruct (_ || _); [|done]. rewrite IH. apply Permutation_swap.
Qed.

Lemma sort_by_size_perm l : SpecRepo.sort_by_size l ≡ₚ l.
Proof.
  unfold SpecRepo.sort_by_size.
  assert (forall acc, foldl (fun acc n => SpecRepo.insert_by_size n acc) acc l ≡ₚ (acc ++ l)%list) as H.
  { induction l as [|n l IH]; intros acc; cbn.
    - by rewrite app_nil_r.
    - rewrite IH, insert_by_size_perm. cbn. apply Permutation_middle. }
  apply (H []).
Qed.

Lemma sort_by_size_length l : length (SpecRepo.sort_by_size l) = length l.
Proof. by rewrite sort_by_size_perm. Qed.

Lemma sort_by_size_elem n l : n ∈ SpecRepo.sort_by_size l <-> n ∈ l.
Proof. by rewrite sort_by_size_perm. Qed.

(** ** [SpecRepo::assign] *)

Lemma for_each_app {A S R : Type} (body : A -> S -> flow S R) (l1 l2 : list A) (s : S) :
  for_each body (l1 ++ l2) s
  = match for_each body l1 s with
    | Next s' => for_each body l2 s'
    | Return r => Return r
    end.
Proof.
  revert s. induction l1 as [|x l1 IH]; intros s; [done|].
  cbn. destruct (body x s); [apply IH|done].
Qed.

Lemma for_each_concat {A S R : Type} (body : A -> S -> flow S R)
    (ls : list (list A)) (s : S) :
  for_each (fun l => for_each body l) ls s = for_each body (concat ls) s.
Proof.
  revert s. induction ls as [|l ls IH]; intros s; [done|].
  cbn. rewrite for_each_app. destruct (for_each body l s); [apply IH|done].
Qed.

Section AssignFacts.
Variable needSync : Spec.t -> bool.
Variable task : nat -> option NNode.t -> Spec.t -> TaskState.
Variable nodes : list NNode.t.
Variable activeSpecs emptySpecs : gset string.

Let body := SpecRepo.assign_spec needSync task nodes activeSpecs emptySpecs.
Let reset := SpecRepo.reset_if_lost activeSpecs emptySpecs.

Lemma for_each_registries (ts : TableService.t) (st : SpecRepo.AssignState) :
  for_each (SpecRepo.assign_registry needSync task nodes activeSpecs emptySpecs)
    (TableService.all ts) st
  = for_each body (SpecRepo.pointers ts) st.
Proof.
  unfold SpecRepo.pointers. rewrite <- for_each_concat. unfold SpecRepo.assign_registry.
  generalize (TableService.all ts). intros rs. revert st.
  induction rs as [|r rs IH]; intros st; [done|].
  cbn. destruct (for_each _ _ st); [apply IH|done].
Qed.

(** All that one turn of the loop body can do. *)
Lemma assign_spec_step (p : SpecPtr) (st : SpecRepo.AssignState) :
  match SpecRepo.store st !! p with
  | None => body p st = Next st
  | Some spec =>
      match body p st with
      | Next st' =>
          exists spec',
            SpecRepo.store st' = <[p := spec']> (SpecRepo.store st)
            /\ Spec.id spec' = Spec.id spec
            /\ Spec.assigned spec' = true
            /\ (Spec.affinity spec' = Spec.affinity spec
                \/ exists n, Spec.affinity spec' = Some n
                             /\ NNode.isActive n = true /\ n ∈ nodes)
            /\ ((SpecRepo.idx st < length nodes)%nat ->
                (SpecRepo.idx st' < length nodes)%nat)
            /\ (SpecRepo.numTasks st' = SpecRepo.numTasks st /\ needSync spec' = false
                \/ SpecRepo.numTasks st' = S (SpecRepo.numTasks st))
      | Return (Some (k, sz, σ')) =>
          k = SpecRepo.numTasks st /\ sz = length nodes
          /\ σ' = <[p := reset spec]> (SpecRepo.store st)
          /\ Spec.assigned (reset spec) = false
          /\ SpecRepo.place (length nodes) nodes (length nodes)
               (SpecRepo.idx st) (SpecRepo.idx st) = Some None
      | Return None =>
          Spec.assigned (reset spec) = false
          /\ SpecRepo.place (length nodes) nodes (length nodes)
               (SpecRepo.idx st) (SpecRepo.idx st) = None
      end
  end.
Proof.
  unfold body, SpecRepo.assign_spec.
  destruct (SpecRepo.store st !! p) as [spec|]; [|done].
  fold (reset spec).
  destruct (Spec.assigned (reset spec)) eqn:Ea; cbn [negb].
  - assert (Spec.affinity (reset spec) = Spec.affinity spec) as Haff.
    { unfold reset, SpecRepo.reset_if_lost in *.
      destruct (_ && _ && _); [done|done]. }
    assert (Spec.id (reset spec) = Spec.id spec) as Hid.
    { unfold reset, SpecRepo.reset_if_lost. by destruct (_ && _ && _). }
    destruct (needSync (reset spec)) eqn:En.
    + eexists. split; [reflexivity|]. cbn.
      destruct (task _ _ _); cbn; rewrite ?Ea; repeat split; auto.
    + eexists. split; [reflexivity|]. cbn. repeat split; auto.
  - assert (Spec.id (reset spec) = Spec.id spec) as Hid.
    { unfold reset, SpecRepo.reset_if_lost. by destruct (_ && _ && _). }
    destruct (SpecRepo.place _ _ _ _ _) as [[[n idx']|]|] eqn:Ep; [|done|done].
    pose proof (place_active _ _ _ _ _ _ _ Ep) as [Hn Hact].
    assert ((SpecRepo.idx st < length nodes)%nat -> (idx' < length nodes)%nat) as Hidx.
    { intros Hi. pose proof (place_spec nodes (SpecRepo.idx st) Hi) as H.
      rewrite Ep in H. tauto. }
    assert (exists n0, Some n = Some n0 /\ NNode.isActive n0 = true /\ n0 ∈ nodes)
      as Hex by eauto.
    destruct (needSync _) eqn:En.
    + eexists. split; [reflexivity|]. cbn.
      destruct (task _ _ _); cbn; repeat split; auto.
    + eexists. split; [reflexivity|]. cbn. repeat split; auto.
Qed.


Lemma reset_unassigned (spec : Spec.t) :
  Spec.assigned spec = false -> Spec.affinity spec = None.
Proof. unfold Spec.assigned. by destruct (Spec.affinity spec). Qed.

Lemma affinities_active_insert (σ : Store) p spec :
  SpecRepo.affinities_active σ ->
  (forall n, Spec.affinity spec = Some n -> NNode.isActive n = true) ->
  SpecRepo.affinities_active (<[p := spec]> σ).
Proof.
  intros Hσ Hs q s n. rewrite lookup_insert.
  destruct (decide (p = q)); [intros [= <-]; apply Hs|apply Hσ].
Qed.

(** Whatever a turn of the loop does, the affinities it leaves behind are
    nodes that were active when copied. *)
Lemma assign_spec_affinities p st :
  SpecRepo.affinities_active (SpecRepo.store st) ->
  match body p st with
  | Next st' => SpecRepo.affinities_active (SpecRepo.store st')
  | Return (Some (_, _, σ')) => SpecRepo.affinities_active σ'
  | Return None => True
  end.
Proof.
  intros Hσ. pose proof (assign_spec_step p st) as H.
  destruct (SpecRepo.store st !! p) as [spec|] eqn:E; [|by rewrite H].
  destruct (body p st) as [st'|[[[k sz] σ']|]]; [| |done].
  - destruct H as (spec' & -> & _ & _ & Haff & _).
    apply affinities_active_insert; [done|]. intros n Hn.
    destruct Haff as [Haff|(m & Hm & Hact & _)].
    + apply (Hσ p spec n E). congruence.
    + congruence.
  - destruct H as (_ & _ & -> & Hu & _).
    apply affinities_active_insert; [done|]. intros n Hn.
    apply reset_unassigned in Hu. congruence.
Qed.

Lemma for_each_affinities l st :
  SpecRepo.affinities_active (SpecRepo.store st) ->
  match for_each body l st with
  | Next st' => SpecRepo.affinities_active (SpecRepo.store st')
  | Return (Some (_, _, σ')) => SpecRepo.affinities_active σ'
  | Return None => True
  end.
Proof.
  revert st. induction l as [|p l IH]; intros st Hσ; [done|]. cbn.
  pose proof (assign_spec_affinities p st Hσ) as H.
  destruct (body p st) as [st'|r]; [by apply IH|done].
Qed.

(** With the cursor inside the ring, the loop never meets the exception. *)
Lemma for_each_no_exception l st :
  (SpecRepo.idx st < length nodes)%nat -> for_each body l st <> Return None.
Proof.
  revert st. induction l as [|p l IH]; intros st Hidx; [done|]. cbn.
  pose proof (assign_spec_step p st) as H.
  destruct (SpecRepo.store st !! p) as [spec|] eqn:E.
  - destruct (body p st) as [st'|[[[k sz] σ']|]]; [|done|].
    + destruct H as (spec' & _ & _ & _ & _ & Hi & _). apply IH. by apply Hi.
    + destruct H as [_ H]. pose proof (place_spec nodes _ Hidx) as Hp.
      by rewrite H in Hp.
  - rewrite H. by apply IH.
Qed.

(** With an active node in the ring, the loop runs to its end, and every spec
    it came to is assigned afterwards. *)
Lemma for_each_places l st :
  (exists n, n ∈ nodes /\ NNode.isActive n = true) ->
  (SpecRepo.idx st < length nodes)%nat ->
  exists st',
    for_each body l st = Next st'
    /\ (SpecRepo.idx st' < length nodes)%nat
    /\ forall q, q ∈ l \/ SpecRepo.assigned_at (SpecRepo.store st) q ->
                 SpecRepo.assigned_at (SpecRepo.store st') q.
Proof.
  intros (a & Ha & Hact). revert st. induction l as [|p l IH]; intros st Hidx.
  - exists st. split; [done|]. split; [done|].
    intros q [Hq|Hq]; [by apply elem_of_nil in Hq|done].
  - cbn. pose proof (assign_spec_step p st) as H.
    pose proof (place_spec nodes _ Hidx) as Hp.
    assert (exists st1, body p st = Next st1
              /\ (SpecRepo.idx st1 < length nodes)%nat
              /\ forall q, q = p \/ SpecRepo.assigned_at (SpecRepo.store st) q ->
                           SpecRepo.assigned_at (SpecRepo.store st1) q)
      as (st1 & -> & Hidx1 & H1).
    { destruct (SpecRepo.store st !! p) as [spec|] eqn:E.
      - destruct (body p st) as [st'|[[[k sz] σ']|]].
        + exists st'. split; [done|].
          destruct H as (spec' & Hst & _ & Hass & _ & Hi & _).
          split; [by apply Hi|]. intros q Hq s. rewrite Hst, lookup_insert.
          destruct (decide (p = q)) as [->|Hne]; [by intros [= <-]|].
          destruct Hq as [->|Hq]; [done|apply Hq].
        + destruct H as (_ & _ & _ & _ & H). rewrite H in Hp.
          specialize (Hp a Ha). congruence.
        + destruct H as [_ H]. by rewrite H in Hp.
      - exists st. split; [done|]. split; [done|].
        intros q [->|Hq]; [|done]. intros s. by rewrite E. }
    destruct (IH st1 Hidx1) as (st' & -> & Hidx' & H').
    exists st'. split; [done|]. split; [done|].
    intros q [Hq|Hq]; apply H'.
    + apply elem_of_cons in Hq as [->|Hq]; [right; apply H1; by left|by left].
    + right. apply H1. by right.
Qed.

End AssignFacts.

(** [assign] returns: the exception of [nodes.at] is never met. *)
Lemma assign_total needSync task cluster bm ts σ :
  exists r, SpecRepo.assign needSync task cluster bm ts σ = Some r.
Proof.
  unfold SpecRepo.assign. destruct (length cluster =? 0)%nat eqn:E; [eauto|].
  apply Nat.eqb_neq in E. rewrite for_each_registries.
  pose proof (for_each_no_exception needSync task (SpecRepo.sort_by_size cluster)
                (BlockManager.activeSpecs cluster bm) (BlockManager.emptySpecs bm)
                (SpecRepo.pointers ts)
                {| SpecRepo.store := σ; SpecRepo.idx := 0; SpecRepo.numTasks := 0 |}) as H.
  destruct (for_each _ _ _) as [st|[r|]]; [eauto|eauto|].
  exfalso. apply H; [|done]. rewrite sort_by_size_length. cbn. lia.
Qed.

Lemma lost_affinities addr ts σ :
  SpecRepo.affinities_active σ -> SpecRepo.affinities_active (SpecRepo.lost addr ts σ).1.
Proof.
  intros Hσ p spec n. rewrite lost_pointers.
  destruct (lost_list addr (SpecRepo.pointers ts) σ 0) as [H _]. rewrite H.
  destruct (_ && _); [|apply Hσ].
  destruct (σ !! p); [|done]. by intros [= <-].
Qed.

(** The affinities of a reachable store are nodes that were active when they
    were copied: specs are born unassigned, and only [assign] gives them a
    node, one it has just seen active. *)
Lemma reachable_affinities σ : SpecRepo.reachable σ -> SpecRepo.affinities_active σ.
Proof.
  induction 1 as [|σ p spec _ IH _ Haff _|σ p _ IH
                  |σ needSync task cluster bm ts r σ' _ IH Hassign|σ addr ts _ IH].
  - intros p spec n Hp. by rewrite lookup_empty in Hp.
  - apply affinities_active_insert; [done|]. intros n. rewrite Haff. done.
  - intros q spec n Hq. apply lookup_delete_Some in Hq as [_ Hq]. by apply (IH q).
  - unfold SpecRepo.assign in Hassign.
    destruct (length cluster =? 0)%nat; [by injection Hassign as _ <-|].
    rewrite for_each_registries in Hassign.
    pose proof (for_each_affinities needSync task (SpecRepo.sort_by_size cluster)
                  (BlockManager.activeSpecs cluster bm) (BlockManager.emptySpecs bm)
                  (SpecRepo.pointers ts)
                  {| SpecRepo.store := σ; SpecRepo.idx := 0; SpecRepo.numTasks := 0 |} IH) as H.
    destruct (for_each _ _ _) as [st|[[[k sz] σ'']|]]; [| |done].
    + by injection Hassign as _ <-.
    + by injection Hassign as _ <-.
  - by apply lost_affinities.
Qed.

(** With an active node in the snapshot, whatever the store, [assign] runs to
    its end and leaves every spec a registry points to assigned. *)
Lemma assign_assigns_all needSync task cluster bm ts σ :
  (exists n, n ∈ cluster /\ NNode.isActive n = true) ->
  exists (tasksSent : nat) (σ' : Store),
    SpecRepo.assign needSync task cluster bm ts σ = Some (tasksSent, length cluster, σ')
    /\ forall p, p ∈ SpecRepo.pointers ts -> SpecRepo.assigned_at σ' p.
Proof.
  intros (a & Ha & Hact).
  unfold SpecRepo.assign. destruct (length cluster =? 0)%nat eqn:E.
  { apply Nat.eqb_eq in E. destruct cluster; [by apply elem_of_nil in Ha|done]. }
  rewrite for_each_registries.
  destruct (for_each_places needSync task (SpecRepo.sort_by_size cluster)
              (BlockManager.activeSpecs cluster bm) (BlockManager.emptySpecs bm)
              (SpecRepo.pointers ts)
              {| SpecRepo.store := σ; SpecRepo.idx := 0; SpecRepo.numTasks := 0 |})
    as (st' & -> & _ & Hall).
  - exists a. split; [by apply sort_by_size_elem|done].
  - rewrite sort_by_size_length. apply Nat.eqb_neq in E. cbn. lia.
  - exists (SpecRepo.numTasks st'), (SpecRepo.store st'). split; [done|].
    intros p Hp. apply Hall. by left.
Qed.

(** On a reachable store the copies of nodes that the specs hold as
    affinities were all taken from nodes seen active: with an active node in
    the snapshot, [assign] runs to its end and every spec a registry points
    to is then assigned to such a copy.  (The copy may be stale: see
    [assign_keeps_affinity] below.) *)
Lemma assign_copies_active (needSync : Spec.t -> bool)
    (task : nat -> option NNode.t -> Spec.t -> TaskState)
    (cluster : list NNode.t) (bm : BlockManager.t) (ts : TableService.t) (σ : Store) :
  SpecRepo.reachable σ ->
  (exists n, n ∈ cluster /\ NNode.isActive n = true) ->
  exists (tasksSent : nat) (σ' : Store),
    SpecRepo.assign needSync task cluster bm ts σ = Some (tasksSent, length cluster, σ')
    /\ forall p spec,
         p ∈ SpecRepo.pointers ts -> σ' !! p = Some spec ->
         (exists n, Spec.affinity spec = Some n /\ NNode.isActive n = true)
         \/ Spec.id spec ∈ BlockManager.emptySpecs_ bm.
Proof.
  intros Hreach (a & Ha & Hact).
  apply reachable_affinities in Hreach.
  unfold SpecRepo.assign. destruct (length cluster =? 0)%nat eqn:E.
  { apply Nat.eqb_eq in E. destruct cluster; [by apply elem_of_nil in Ha|done]. }
  apply Nat.eqb_neq in E. rewrite for_each_registries.
  set (nodes := SpecRepo.sort_by_size cluster).
  set (st0 := {| SpecRepo.store := σ; SpecRepo.idx := 0; SpecRepo.numTasks := 0 |}).
  assert (SpecRepo.idx st0 < length nodes)%nat as Hidx.
  { unfold nodes. rewrite sort_by_size_length. cbn. lia. }
  destruct (for_each_places needSync task nodes (BlockManager.activeSpecs cluster bm)
              (BlockManager.emptySpecs bm) (SpecRepo.pointers ts) st0)
    as (st' & Hrun & _ & Hall); [|done|].
  { exists a. split; [by apply sort_by_size_elem|done]. }
  pose proof (for_each_affinities needSync task nodes (BlockManager.activeSpecs cluster bm)
                (BlockManager.emptySpecs bm) (SpecRepo.pointers ts) st0 Hreach) as Haff.
  rewrite Hrun in Haff |- *.
  exists (SpecRepo.numTasks st'), (SpecRepo.store st'). split; [done|].
  intros p spec Hp Hspec. left.
  pose proof (Hall p (or_introl Hp) spec Hspec) as Hass.
  unfold Spec.assigned in Hass.
  destruct (Spec.affinity spec) as [n|] eqn:En; [|done].
  exists n. split; [done|]. by apply (Haff p spec n).
Qed.

(** A spec that stays assigned keeps the copy of the node it was given: here
    the cluster has since marked A inactive, the id of k1 is still among the
    active specs, and [assign] leaves k1 on the copy of A it holds. *)
Example assign_keeps_affinity :
  let A_then := NNode.mk "A" true 0 in
  let A_now := NNode.mk "A" false 0 in
  let B := NNode.mk "B" true 0 in
  let σ : Store := <[0%nat := Spec.mk "k1" Spec.READY (Some A_then)]> ∅ in
  let ts : TableService.t := [("t", TableService.mkRegistry [0%nat] {["k1"]})] in
  let bm := BlockManager.mk
              [(A_now, [("t", TableState.mk "t" [TableState.mkBlock "k1" 1])])] ∅ in
  SpecRepo.assign (fun s => bool_decide (Spec.state s = Spec.NEW))
    (fun _ _ _ => SUCCEEDED) [A_now; B] bm ts σ
  = Some (0%nat, 2%nat, σ).
Proof. reflexivity. Qed.

(** The cursor comes back to where it started, without a node to place the
    spec on, exactly when no node of the ring is active. *)
Lemma place_gives_up_iff (nodes : list NNode.t) (idx : nat) :
  (idx < length nodes)%nat ->
  SpecRepo.place (length nodes) nodes (length nodes) idx idx = Some None
  <-> SpecRepo.all_inactive nodes.
Proof.
  intros Hidx. pose proof (place_spec nodes idx Hidx) as H.
  destruct (SpecRepo.place _ _ _ _ _) as [[[n idx']|]|]; [|done..].
  split; [done|]. intros Hall. destruct H as (Hn & Hact & _).
  specialize (Hall n Hn). congruence.
Qed.

(** C7: [assign] returns (0,0) at once for an empty snapshot; and when the
    loop, after the specs [pre], comes to a spec that is not assigned (or has
    just been reset as lost) and the placement cursor walks the ring back to
    its start without an active node - which happens exactly when no node is
    active - [assign] returns the number of tasks sent so far and the
    number of nodes. *)
Theorem assign_early_return (needSync : Spec.t -> bool)
    (task : nat -> option NNode.t -> Spec.t -> TaskState)
    (cluster : list NNode.t) (bm : BlockManager.t) (ts : TableService.t) (σ : Store) :
  let nodes := SpecRepo.sort_by_size cluster in
  let activeSpecs := BlockManager.activeSpecs cluster bm in
  let emptySpecs := BlockManager.emptySpecs bm in
  (cluster = [] -> SpecRepo.assign needSync task cluster bm ts σ = Some (0%nat, 0%nat, σ))
  /\ (forall pre p post st spec,
        cluster <> [] ->
        SpecRepo.pointers ts = (pre ++ p :: post)%list ->
        for_each (SpecRepo.assign_spec needSync task nodes activeSpecs emptySpecs) pre
          {| SpecRepo.store := σ; SpecRepo.idx := 0; SpecRepo.numTasks := 0 |} = Next st ->
        SpecRepo.store st !! p = Some spec ->
        Spec.assigned (SpecRepo.reset_if_lost activeSpecs emptySpecs spec) = false ->
        SpecRepo.place (length nodes) nodes (length nodes)
          (SpecRepo.idx st) (SpecRepo.idx st) = Some None ->
        SpecRepo.assign needSync task cluster bm ts σ
        = Some (SpecRepo.numTasks st, length cluster,
                <[p := SpecRepo.reset_if_lost activeSpecs emptySpecs spec]>
                  (SpecRepo.store st)))
  /\ (forall idx, (idx < length nodes)%nat ->
        SpecRepo.place (length nodes) nodes (length nodes) idx idx = Some None
        <-> SpecRepo.all_inactive cluster).
Proof.
  intros nodes activeSpecs emptySpecs. split; [by intros ->|]. split.
  - intros pre p post st spec Hne Hptrs Hpre Hspec Hun Hplace.
    unfold SpecRepo.assign.
    destruct (length cluster =? 0)%nat eqn:E.
    { apply Nat.eqb_eq in E. by destruct cluster. }
    rewrite for_each_registries, Hptrs, for_each_app.
    fold nodes activeSpecs emptySpecs. rewrite Hpre. cbn [for_each].
    unfold SpecRepo.assign_spec. rewrite Hspec, Hun. cbn [negb].
    rewrite Hplace. unfold nodes. by rewrite sort_by_size_length.
  - intros idx Hidx. rewrite place_gives_up_iff by done.
    unfold SpecRepo.all_inactive, nodes.
    split; intros H n Hn; apply H; by apply sort_by_size_elem.
Qed.

Lemma assign_early_return_witness :
  let A := NNode.mk "A" false 7 in
  let k1 := Spec.mk "k1" Spec.NEW (Some A) in
  let k2 := Spec.mk "k2" Spec.NEW None in
  let σ : Store := <[0%nat := k1]> (<[1%nat := k2]> ∅) in
  let ts : TableService.t := [("t", TableService.mkRegistry [0; 1]%nat ∅)] in
  let bm := BlockManager.mk [] {["k1"]} in
  SpecRepo.assign (fun s => bool_decide (Spec.state s = Spec.NEW))
    (fun _ _ _ => FAILED) [A] bm ts σ
  = Some (1%nat, 1%nat, σ).
Proof.
  intros A k1 k2 σ ts bm.
  pose proof (assign_early_return (fun s => bool_decide (Spec.state s = Spec.NEW))
                (fun _ _ _ => FAILED) [A] bm ts σ) as (_ & H & _).
  specialize (H [0%nat] 1%nat []
                {| SpecRepo.store := σ; SpecRepo.idx := 0; SpecRepo.numTasks := 1 |} k2).
  rewrite H; [reflexivity | discriminate | reflexivity..].
Defined.

(** The spec's fifth scenario, second half: after [lost "A"], the next
    [assign] places k1 on the least-loaded active node and sends exactly
    one INGESTION task. *)
Example assign_scenario :
  let A := NNode.mk "A" false 0 in
  let B := NNode.mk "B" true 9 in
  let C := NNode.mk "C" true 3 in
  let σ : Store := <[0%nat := Spec.mk "k1" Spec.READY (Some (NNode.mk "A" true 0))]> ∅ in
  let ts : TableService.t := [("t", TableService.mkRegistry [0%nat] {["k1"]})] in
  SpecRepo.assign (fun s => bool_decide (Spec.state s = Spec.NEW))
    (fun _ _ _ => SUCCEEDED) [A; B; C] (BlockManager.mk [] ∅) ts
    (SpecRepo.lost "A" ts σ).1
  = Some (1%nat, 3%nat, <[0%nat := Spec.mk "k1" Spec.READY (Some C)]> ∅).
Proof. reflexivity. Qed.

(** * Further properties *)

(** ** [Macro::materialize]: substitution where the placeholder stands *)

Lemma append_empty_r (s : string) : (s ++ "")%string = s.
Proof. induction s as [|c s IH]; [done|]. by rewrite append_String, IH. Qed.

Lemma lower_length (s : string) : String.length (lower s) = String.length s.
Proof. induction s as [|c s IH]; [done|]. cbn. by rewrite IH. Qed.

Lemma tolower_plain p x :
  MacroSpec.is_plain x = true -> tolower p = tolower x -> MacroSpec.is_plain p = true.
Proof.
  destruct x as [[] [] [] [] [] [] [] []]; try discriminate; intros _;
    destruct p as [[] [] [] [] [] [] [] []]; vm_compute; congruence.
Qed.

Lemma prefix_icase_cut_plain pat A x R :
  MacroSpec.all_chars (fun c => negb (MacroSpec.is_plain c)) pat = true ->
  MacroSpec.is_plain x = true ->
  prefix_icase pat (A ++ String x R) = true -> prefix_icase pat A = true.
Proof.
  intros Hpat Hx. revert A. induction pat as [|p pat IH]; intros A; [done|].
  cbn in Hpat. apply andb_true_iff in Hpat as [Hp Hpat].
  destruct A as [|a A].
  - rewrite append_empty. cbn. intros [H _]%andb_true_iff.
    apply Ascii.eqb_eq in H. apply (tolower_plain p x Hx) in H.
    by rewrite H in Hp.
  - rewrite append_String. cbn. intros [H1 H2]%andb_true_iff.
    rewrite H1. cbn. by apply IH.
Qed.

Lemma replace_from_app_x pat fmt A x R k :
  MacroSpec.all_chars (fun c => negb (MacroSpec.is_plain c)) pat = true ->
  MacroSpec.is_plain x = true ->
  (k <= String.length A)%nat ->
  replace_from pat fmt k (A ++ String x R)
  = (replace_from pat fmt k A ++ replace_from pat fmt 0 (String x R))%string.
Proof.
  intros Hpat Hx. revert k. induction A as [|a A IH]; intros k Hk.
  - cbn in Hk. replace k with 0%nat by lia. reflexivity.
  - rewrite append_String. cbn [replace_from]. destruct k as [|k].
    + destruct (prefix_icase pat (String a (A ++ String x R))) eqn:E.
      * rewrite <- append_String in E.
        apply prefix_icase_cut_plain in E; [|done..].
        rewrite E. pose proof (prefix_icase_length _ _ E) as Hl. cbn in Hl.
        rewrite IH by lia. symmetry. apply append_assoc.
      * assert (prefix_icase pat (String a A) = false) as ->.
        { destruct (prefix_icase pat (String a A)) eqn:E'; [|done].
          apply (prefix_icase_app _ _ (String x R)) in E'.
          rewrite append_String in E'. congruence. }
        rewrite append_String. f_equal. apply IH. lia.
    + apply IH. cbn in Hk. lia.
Qed.

Lemma replace_from_plain pat fmt g B :
  pat <> "" ->
  MacroSpec.all_chars (fun c => negb (MacroSpec.is_plain c)) pat = true ->
  MacroSpec.all_chars MacroSpec.is_plain g = true ->
  replace_from pat fmt 0 (g ++ B) = (g ++ replace_from pat fmt 0 B)%string.
Proof.
  intros Hne Hpat. induction g as [|y g IH]; intros Hg; [done|].
  cbn in Hg. apply andb_true_iff in Hg as [Hy Hg].
  rewrite !append_String. cbn [replace_from].
  destruct pat as [|p pat'] eqn:Epat; [done|].
  assert (negb (MacroSpec.is_plain p) = true) as Hp
    by (cbn in Hpat; by apply andb_true_iff in Hpat as [? _]).
  cbn [prefix_icase].
  destruct (Ascii.eqb (tolower p) (tolower y)) eqn:E.
  - apply Ascii.eqb_eq in E. apply (tolower_plain p y Hy) in E. by rewrite E in Hp.
  - cbn. f_equal. by apply IH.
Qed.

(** Text of digits and minus signs is copied, and cuts the string in two
    parts that are rewritten apart. *)
Lemma replace_from_app_plain pat fmt A f B k :
  pat <> "" ->
  MacroSpec.all_chars (fun c => negb (MacroSpec.is_plain c)) pat = true ->
  MacroSpec.plain f = true ->
  (k <= String.length A)%nat ->
  replace_from pat fmt k (A ++ f ++ B)
  = (replace_from pat fmt k A ++ f ++ replace_from pat fmt 0 B)%string.
Proof.
  intros Hne Hpat Hf Hk. destruct f as [|x f]; [done|].
  assert (MacroSpec.is_plain x = true) as Hx
    by (cbn in Hf; by apply andb_true_iff in Hf as [? _]).
  rewrite (append_String x f B), replace_from_app_x by done.
  rewrite <- (append_String x f B), replace_from_plain; [done..|].
  by apply plain_all.
Qed.

Lemma placeholder_not_plain (k : PatternMacro.t) :
  MacroSpec.all_chars (fun c => negb (MacroSpec.is_plain c)) (MacroSpec.placeholder k) = true.
Proof. by destruct k. Qed.

Lemma substitute_app_plain (k : PatternMacro.t) (w : Z) (A f B : string) :
  k <> PatternMacro.INVALID ->
  MacroSpec.plain f = true ->
  MacroSpec.substitute w (A ++ f ++ B) k
  = (MacroSpec.substitute w A k ++ f ++ MacroSpec.substitute w B k)%string.
Proof.
  intros Hk Hf. unfold MacroSpec.substitute, regex_replace.
  apply replace_from_app_plain; [by destruct k|apply placeholder_not_plain|done|lia].
Qed.

Lemma foldl_substitute_app_plain (ks : list PatternMacro.t) (w : Z) (A f B : string) :
  PatternMacro.INVALID ∉ ks ->
  MacroSpec.plain f = true ->
  foldl (MacroSpec.substitute w) (A ++ f ++ B) ks
  = (foldl (MacroSpec.substitute w) A ks ++ f
     ++ foldl (MacroSpec.substitute w) B ks)%string.
Proof.
  intros Hv Hf. revert A B. induction ks as [|k ks IH]; intros A B; [done|].
  cbn [foldl]. rewrite substitute_app_plain; [|intros ->; apply Hv; by left|done].
  apply IH. intros ?. apply Hv. by right.
Qed.

Lemma substitute_occurrence (k : PatternMacro.t) (w : Z) (pre name post : string) :
  k <> PatternMacro.INVALID ->
  lower name = MacroSpec.name k ->
  MacroSpec.substitute w (pre ++ "{" ++ name ++ "}" ++ post) k
  = (MacroSpec.substitute w pre k ++ MacroSpec.rendered k w
     ++ MacroSpec.substitute w post k)%string.
Proof.
  intros Hk Hn. unfold MacroSpec.substitute.
  assert (MacroSpec.placeholder k = "{" ++ MacroSpec.name k ++ "}")%string as ->
    by (by destruct k).
  apply regex_replace_occurrence; [by destruct k| |].
  - rewrite Hn. by destruct k.
  - by rewrite <- (lower_length name), Hn.
Qed.

Lemma name_inj (k k' : PatternMacro.t) : MacroSpec.name k = MacroSpec.name k' -> k = k'.
Proof. by destruct k, k'. Qed.

Lemma free_of_word (c : ascii) (s : string) :
  MacroSpec.all_chars is_word s = true -> is_word c = false ->
  MacroSpec.free_of c s = true.
Proof.
  intros Hw Hc. induction s as [|x s IH]; [done|]. cbn in *.
  apply andb_true_iff in Hw as [Hx Hw]. rewrite IH by done.
  destruct (Ascii.eqb x c) eqn:E; [|done].
  apply Ascii.eqb_eq in E. subst. congruence.
Qed.

Lemma name_brace_free (name : string) (k : PatternMacro.t) :
  lower name = MacroSpec.name k -> MacroSpec.brace_free name = true.
Proof.
  intros H. unfold MacroSpec.brace_free.
  assert (MacroSpec.all_chars is_word name = true) as Hw.
  { rewrite <- (all_chars_lower is_word) by apply is_word_tolower.
    rewrite H. by destruct k. }
  by rewrite !free_of_word.
Qed.

(** The macros [materialize] substitutes, one after the other: the
    placeholder of [k] is left alone by those before [k], replaced by [k],
    and its rendering is left alone by those after [k]. *)
Lemma foldl_substitute_occurrence (ks : list PatternMacro.t) (k : PatternMacro.t)
    (w : Z) (pre name post : string) :
  PatternMacro.INVALID ∉ ks -> k ∈ ks ->
  lower name = MacroSpec.name k ->
  foldl (MacroSpec.substitute w) (pre ++ "{" ++ name ++ "}" ++ post) ks
  = (foldl (MacroSpec.substitute w) pre ks ++ MacroSpec.rendered k w
     ++ foldl (MacroSpec.substitute w) post ks)%string.
Proof.
  intros Hv Hk Hn. revert pre post. induction ks as [|k' ks IH]; intros pre post.
  - by apply elem_of_nil in Hk.
  - cbn [foldl]. destruct (decide (k' = k)) as [->|Hne].
    + rewrite substitute_occurrence; [|intros ->; apply Hv; by left|done].
      apply foldl_substitute_app_plain; [intros ?; apply Hv; by right|].
      apply rendered_plain. intros ->. apply Hv. by left.
    + rewrite substitute_placeholder.
      * apply IH; [intros ?; apply Hv; by right|].
        apply elem_of_cons in Hk as [->|Hk]; [done|done].
      * intros ->. apply Hv. by left.
      * by eapply name_brace_free.
      * rewrite Hn. intros H. apply name_inj in H. congruence.
Qed.

(** X1: a placeholder of a macro that [materialize] substitutes for the
    requested macro, written in any letter case, is replaced where it stands
    by the time string of that macro, and the text before and after it is
    materialized as if it stood alone. *)
Theorem materialize_substitutes (m k : PatternMacro.t) (pre name post : string) (w : Z) :
  k ∈ MacroSpec.substituted m ->
  Chars.lower name = MacroSpec.name k ->
  exists a b : string,
    Macro.materialize m pre w = Some a
    /\ Macro.materialize m post w = Some b
    /\ Macro.materialize m (pre ++ "{" ++ name ++ "}" ++ post) w
       = Some (a ++ Macro.getTimeStringForMacro k w "" ++ b)%string.
Proof.
  intros Hk Hn.
  exists (MacroSpec.materialize m pre w), (MacroSpec.materialize m post w).
  rewrite !materialize_refines. repeat split. f_equal.
  unfold MacroSpec.materialize.
  rewrite (foldl_substitute_occurrence _ k) by (apply substituted_valid || done).
  pose proof (substituted_valid m) as Hv.
  by destruct k; [..|exfalso; by apply Hv].
Qed.

Lemma materialize_substitutes_witness :
  exists a b : string,
    Macro.materialize PatternMacro.HOURLY "s3://b/dt={date}/h=" 1700000000 = Some a
    /\ Macro.materialize PatternMacro.HOURLY "/{DATE}" 1700000000 = Some b
    /\ Macro.materialize PatternMacro.HOURLY
         ("s3://b/dt={date}/h=" ++ "{" ++ "Hour" ++ "}" ++ "/{DATE}") 1700000000
       = Some (a ++ Macro.getTimeStringForMacro PatternMacro.HOURLY 1700000000 "" ++ b)%string.
Proof.
  apply (materialize_substitutes PatternMacro.HOURLY PatternMacro.HOURLY
           "s3://b/dt={date}/h=" "Hour" "/{DATE}" 1700000000).
  - vm_compute. right. left.
  - reflexivity.
Defined.

(** ** [Macro::materialize] twice *)

Lemma prefix_icase_split (pat s : string) :
  prefix_icase pat s = true ->
  exists p r, s = (p ++ r)%string /\ lower p = lower pat.
Proof.
  revert s. induction pat as [|c pat IH]; intros s H.
  - by exists "", s.
  - destruct s as [|x s]; [done|]. cbn in H.
    apply andb_true_iff in H as [Hc H]. apply Ascii.eqb_eq in Hc.
    destruct (IH s H) as (p & r & -> & Hp).
    exists (String x p), r. split; [done|]. cbn. by rewrite Hc, Hp.
Qed.

Lemma substitute_absent (k : PatternMacro.t) (w : Z) (s : string) :
  (forall p, lower p = MacroSpec.placeholder k -> ~ MacroSpec.occurs p s) ->
  MacroSpec.substitute w s k = s.
Proof.
  unfold MacroSpec.substitute, regex_replace.
  assert (lower (MacroSpec.placeholder k) = MacroSpec.placeholder k) as Hlow
    by (by destruct k).
  generalize dependent (MacroSpec.placeholder k). intros pat Hlow.
  induction s as [|c s IH]; intros Hno; [done|].
  cbn [replace_from].
  destruct (prefix_icase pat (String c s)) eqn:E.
  - exfalso. apply prefix_icase_split in E as (p & r & E & Hp).
    apply (Hno p); [congruence|]. exists "", r. by rewrite append_empty.
  - f_equal. apply IH. intros p Hp (pre & post & ->).
    apply (Hno p Hp). by exists (String c pre), post.
Qed.

Lemma placeholder_name_chars (k : PatternMacro.t) (nm : string) :
  lower nm = MacroSpec.name k ->
  MacroSpec.all_chars MacroSpec.is_name_char (nm ++ "}") = true.
Proof.
  intros Hnm. rewrite all_chars_app. apply andb_true_iff. split; [|done].
  rewrite <- (all_chars_lower MacroSpec.is_name_char) by apply is_name_char_tolower.
  rewrite Hnm. by destruct k.
Qed.

(** What [substitute] returns holds no placeholder of its macro, and none
    of another macro that its argument did not hold. *)
Lemma substitute_clears (k k' : PatternMacro.t) (w : Z) (s p : string) :
  k <> PatternMacro.INVALID -> k' <> PatternMacro.INVALID ->
  lower p = MacroSpec.placeholder k' ->
  MacroSpec.occurs p (MacroSpec.substitute w s k) ->
  MacroSpec.occurs p s /\ k' <> k.
Proof.
  intros Hk Hk' Hp Hocc.
  assert (MacroSpec.placeholder k' = "{" ++ MacroSpec.name k' ++ "}")%string as Hpl
    by (by destruct k').
  rewrite Hpl in Hp. apply placeholder_shape in Hp as (nm & -> & Hnm).
  apply substitute_occurs in Hocc as [Hocc Hne];
    [|done|by eapply placeholder_name_chars].
  split; [done|]. intros ->. by rewrite Hnm in Hne.
Qed.

Lemma foldl_substitute_clears (ks : list PatternMacro.t) (k' : PatternMacro.t)
    (w : Z) (s p : string) :
  PatternMacro.INVALID ∉ ks -> k' <> PatternMacro.INVALID ->
  lower p = MacroSpec.placeholder k' ->
  MacroSpec.occurs p (foldl (MacroSpec.substitute w) s ks) ->
  MacroSpec.occurs p s /\ k' ∉ ks.
Proof.
  intros Hv Hk' Hp. revert s. induction ks as [|k ks IH]; intros s H.
  - split; [done|]. apply not_elem_of_nil.
  - cbn [foldl] in H. apply IH in H as [H Hks]; [|intros ?; apply Hv; by right].
    apply (substitute_clears k k') in H as [H Hne];
      [|intros ->; apply Hv; by left|done..].
    split; [done|]. intros [->|?]%elem_of_cons; done.
Qed.

Lemma foldl_substitute_absent (ks : list PatternMacro.t) (w : Z) (s : string) :
  (forall k p, k ∈ ks -> lower p = MacroSpec.placeholder k -> ~ MacroSpec.occurs p s) ->
  foldl (MacroSpec.substitute w) s ks = s.
Proof.
  induction ks as [|k ks IH]; intros Hno; [done|].
  cbn [foldl]. rewrite substitute_absent.
  - apply IH. intros k' p Hk'. apply Hno. by right.
  - intros p. apply Hno. by left.
Qed.

(** X2: [materialize] is idempotent: materializing its own result again,
    for the same macro and watermark, changes nothing. *)
Theorem materialize_idempotent (m : PatternMacro.t) (template : string) (w : Z) :
  exists s : string,
    Macro.materialize m template w = Some s /\ Macro.materialize m s w = Some s.
Proof.
  exists (MacroSpec.materialize m template w).
  rewrite !materialize_refines. split; [done|]. f_equal.
  unfold MacroSpec.materialize at 1.
  apply foldl_substitute_absent. intros k p Hk Hp Hocc.
  pose proof (substituted_valid m) as Hv.
  unfold MacroSpec.materialize in Hocc.
  destruct (foldl_substitute_clears (MacroSpec.substituted m) k w template p)
    as [_ Hno]; [done| |done|done|done].
  intros ->. by apply Hv.
Qed.

(** ** Templates without an opening brace *)

Lemma search_from_free (s : string) (k : nat) :
  MacroSpec.free_of lbrace s = true -> search_from k s = [].
Proof.
  revert k. induction s as [|c s IH]; intros k Hs; [done|].
  cbn in Hs. apply andb_true_iff in Hs as [Hc Hs].
  cbn [search_from]. destruct k as [|k]; [|by apply IH].
  unfold match_here. destruct (Ascii.eqb c lbrace); [done|]. by apply IH.
Qed.

(** X3: a template without any opening brace holds no macro: [extract]
    answers INVALID for it, and [materialize] returns it unchanged whatever
    the macro and the watermark. *)
Theorem no_brace_no_macro (template : string) (m : PatternMacro.t) (w : Z) :
  MacroSpec.free_of Chars.lbrace template = true ->
  Macro.extract template = PatternMacro.INVALID
  /\ Macro.materialize m template w = Some template.
Proof.
  intros Hfree. split.
  - unfold Macro.extract, Macro.extract_code, sregex_iterator.
    by rewrite search_from_free.
  - rewrite materialize_refines. f_equal. unfold MacroSpec.materialize.
    apply foldl_substitute_absent. intros k p Hk Hp (pre & post & ->).
    pose proof (substituted_valid m) as Hv.
    assert (MacroSpec.placeholder k = "{" ++ MacroSpec.name k ++ "}")%string as Hpl.
    { destruct k; solve [done | exfalso; by apply Hv]. }
    rewrite Hpl in Hp. apply placeholder_shape in Hp as (nm & -> & _).
    rewrite free_of_app in Hfree. apply andb_true_iff in Hfree as [_ Hfree].
    rewrite !append_String, append_empty in Hfree. done.
Qed.

Lemma no_brace_no_macro_witness :
  Macro.extract "s3://nebula/static/path" = PatternMacro.INVALID
  /\ Macro.materialize PatternMacro.SECONDLY "s3://nebula/static/path" 1700000000
     = Some "s3://nebula/static/path".
Proof.
  apply (no_brace_no_macro "s3://nebula/static/path" PatternMacro.SECONDLY 1700000000).
  reflexivity.
Defined.

(** ** The contract of [Macro::materialize] *)

Lemma to_string_decimal (w : Z) : MacroSpec.decimal w (Evidence.to_string w).
Proof.
  unfold MacroSpec.decimal, Evidence.to_string. exists (Z.to_int w).
  assert (Decimal.norm (Z.to_int w) = Z.to_int w) as Hn.
  { rewrite <- DecimalZ.to_of. by rewrite DecimalZ.of_to. }
  split; [|split; [done|apply DecimalZ.of_to]].
  apply NilZero.isi; intros E; rewrite E in Hn; discriminate Hn.
Qed.

Lemma decimal_unique (w : Z) (s : string) :
  MacroSpec.decimal w s -> s = Evidence.to_string w.
Proof.
  intros (d & Hs & Hn & Hw). unfold Evidence.to_string.
  apply NilZero.sis in Hs. rewrite <- Hs, <- Hw, DecimalZ.to_of. by rewrite Hn.
Qed.

(** C4: [materialize] returns the template for INVALID.  For TIMESTAMP it
    substitutes [{timestamp}] only, by the decimal numeral of the
    watermark; for a time macro [m] it substitutes the macros at or below
    the level of [m], in the order DAILY, HOURLY, MINUTELY, SECONDLY.
    Substituting means: a placeholder [{name}] of such a macro, in any
    letter case, becomes the time string of that macro where it stands;
    a placeholder [{name}] of no such macro stays as it is written; in
    both cases the text before and after it is materialized as if it stood
    alone, and a text without an opening brace is returned as it is. *)
Theorem materialize_contract (template : string) (w : Z) :
  Macro.materialize PatternMacro.INVALID template w = Some template
  /\ (forall s, MacroSpec.decimal w s
                <-> s = Macro.getTimeStringForMacro PatternMacro.TIMESTAMP w "")
  /\ (forall k, k ∈ MacroSpec.substituted PatternMacro.TIMESTAMP
                <-> k = PatternMacro.TIMESTAMP)
  /\ (forall m, (1 <= MacroSpec.level m)%nat ->
        MacroSpec.substituted m
        = filter (fun k => (MacroSpec.level k <= MacroSpec.level m)%nat)
            Macro.ALL_TIME_MACROS
        /\ Macro.materialize m template w
           = Some (foldl (fun s k => default s (Macro.replaceTimeMacro k s w)) template
                     (MacroSpec.substituted m)))
  /\ (forall (m : PatternMacro.t) (pre name post : string),
        exists a b : string,
          Macro.materialize m pre w = Some a
          /\ Macro.materialize m post w = Some b
          /\ (forall k, k ∈ MacroSpec.substituted m ->
                Chars.lower name = MacroSpec.name k ->
                Macro.materialize m (pre ++ "{" ++ name ++ "}" ++ post) w
                = Some (a ++ Macro.getTimeStringForMacro k w "" ++ b)%string)
          /\ (MacroSpec.brace_free name = true ->
              (forall k, k ∈ MacroSpec.substituted m ->
                 Chars.lower name <> MacroSpec.name k) ->
              Macro.materialize m (pre ++ "{" ++ name ++ "}" ++ post) w
              = Some (a ++ "{" ++ name ++ "}" ++ b)%string))
  /\ (forall m, MacroSpec.free_of Chars.lbrace template = true ->
        Macro.materialize m template w = Some template).
Proof.
  split; [reflexivity|]. split.
  { intros s. cbn. split; [apply decimal_unique|intros ->; apply to_string_decimal]. }
  split.
  { intros k. cbn. rewrite elem_of_cons, elem_of_nil. tauto. }
  split.
  { intros m Hm. split; [by destruct m; cbn in Hm; try lia|].
    by destruct m; cbn in Hm; try lia. }
  split.
  - intros m pre name post.
    exists (MacroSpec.materialize m pre w), (MacroSpec.materialize m post w).
    rewrite !materialize_refines. split; [done|]. split; [done|].
    pose proof (substituted_valid m) as Hv. split.
    + intros k Hk Hn. f_equal. unfold MacroSpec.materialize.
      rewrite (foldl_substitute_occurrence _ k) by done.
      by destruct k; [..|exfalso; by apply Hv].
    + intros Hb Hne. f_equal. by apply foldl_substitute_placeholder.
  - intros m Hfree. rewrite materialize_refines. f_equal. unfold MacroSpec.materialize.
    apply foldl_substitute_absent. intros k p Hk Hp (pre & post & ->).
    pose proof (substituted_valid m) as Hv.
    assert (MacroSpec.placeholder k = "{" ++ MacroSpec.name k ++ "}")%string as Hpl.
    { destruct k; solve [done | exfalso; by apply Hv]. }
    rewrite Hpl in Hp. apply placeholder_shape in Hp as (nm & -> & _).
    rewrite free_of_app in Hfree. apply andb_true_iff in Hfree as [_ Hfree].
    rewrite !append_String, append_empty in Hfree. done.
Qed.

(** The fourth scenario of the contract, evaluated: an hourly template with
    a date in capitals, an hour, and a placeholder that is no macro. *)
Example materialize_hourly_path :
  Macro.materialize PatternMacro.HOURLY "s3://b/{DATE}/{hour}/{x}/{minute}" 3600
  = Some "s3://b/1970-01-01/01/{x}/{minute}"
  /\ Macro.materialize PatternMacro.TIMESTAMP "ts={timestamp}/{date}" (-5)
     = Some "ts=-5/{date}".
Proof. split; reflexivity. Qed.

(** ** [Macro::extract] and letter case *)

Lemma lower_lower (s : string) : lower (lower s) = lower s.
Proof.
  induction s as [|c s IH]; [done|]. cbn. rewrite IH. f_equal.
  by destruct c as [[] [] [] [] [] [] [] []].
Qed.

Lemma tolower_is_lbrace c : Ascii.eqb (tolower c) lbrace = Ascii.eqb c lbrace.
Proof. by destruct c as [[] [] [] [] [] [] [] []]. Qed.

Lemma tolower_is_rbrace c : Ascii.eqb (tolower c) rbrace = Ascii.eqb c rbrace.
Proof. by destruct c as [[] [] [] [] [] [] [] []]. Qed.

Lemma span_word_lower (s : string) :
  span_word (lower s) = (lower (span_word s).1, lower (span_word s).2).
Proof.
  induction s as [|c s IH]; [done|]. cbn. rewrite is_word_tolower.
  destruct (is_word c); [|done]. rewrite IH. by destruct (span_word s).
Qed.

Lemma match_here_lower (s : string) : match_here (lower s) = lower <$> match_here s.
Proof.
  destruct s as [|c s]; [done|]. cbn. rewrite tolower_is_lbrace.
  destruct (Ascii.eqb c lbrace); [|done]. rewrite span_word_lower.
  destruct (span_word s) as [[|w0 w] [|c' r]]; try done. cbn.
  rewrite tolower_is_rbrace. by destruct (Ascii.eqb c' rbrace).
Qed.

Lemma search_from_lower (s : string) (k : nat) :
  search_from k (lower s) = map lower (search_from k s).
Proof.
  revert k. induction s as [|c s IH]; intros k; [done|].
  cbn [lower search_from]. destruct k as [|k]; [|apply IH].
  change (String (tolower c) (lower s)) with (lower (String c s)).
  rewrite match_here_lower.
  destruct (match_here (String c s)) as [w|]; cbn; [|apply IH].
  by rewrite lower_length, IH.
Qed.

Lemma extract_code_lower (template : string) :
  Macro.extract_code (lower template) = Macro.extract_code template.
Proof.
  unfold Macro.extract_code, sregex_iterator. rewrite search_from_lower.
  generalize (PatternMacro.value PatternMacro.INVALID).
  induction (search_from 0 template) as [|x l IH]; intros z; [done|].
  cbn. rewrite lower_lower. apply IH.
Qed.

(** X4: [extract] does not depend on letter case: two templates that
    differ only in the case of their letters get the same answer. *)
Theorem extract_case_insensitive (t1 t2 : string) :
  Chars.lower t1 = Chars.lower t2 -> Macro.extract t1 = Macro.extract t2.
Proof.
  intros H. unfold Macro.extract.
  by rewrite <- (extract_code_lower t1), <- (extract_code_lower t2), H.
Qed.

Lemma extract_case_insensitive_witness :
  Macro.extract "s3://Bucket/{DATE}/{Hour}" = Macro.extract "S3://bucket/{date}/{HOUR}".
Proof.
  apply (extract_case_insensitive "s3://Bucket/{DATE}/{Hour}" "S3://bucket/{date}/{HOUR}").
  reflexivity.
Defined.

(** ** Which templates [extract] accepts *)

Lemma Seen_of_list_eq (l1 l2 : list PatternMacro.t) :
  PatternMacro.INVALID ∉ l1 -> PatternMacro.INVALID ∉ l2 ->
  Seen.of_list l1 = Seen.of_list l2 <-> (forall k, k ∈ l1 <-> k ∈ l2).
Proof.
  intros H1 H2. unfold Seen.of_list. split.
  - intros [= Hd Hh Hm Hs Ht] k.
    destruct k; [..|tauto];
      split; intros Hk%(bool_decide_eq_true_2 _); apply (bool_decide_eq_true_1 _);
      congruence.
  - intros H. f_equal; apply bool_decide_ext, H.
Qed.

Lemma at_or_below_valid (m : PatternMacro.t) :
  PatternMacro.INVALID ∉ MacroSpec.at_or_below m.
Proof.
  destruct m; vm_compute; intros H;
    repeat (apply elem_of_cons in H as [H|H]; [discriminate H|]);
    by apply elem_of_nil in H.
Qed.

(** X5: [extract] answers a time macro exactly for the templates whose
    placeholders are those of that macro and of all the levels above it up
    to DAILY, no more and no fewer; it answers TIMESTAMP exactly for the
    templates that hold [{timestamp}] and neither [{date}] nor [{second}]
    ([{hour}] and [{minute}] do not count, their bits being part of 0x16). *)
Theorem extract_accepts (template : string) :
  let found := MacroSpec.macros_found template in
  (forall m, (1 <= MacroSpec.level m)%nat ->
     Macro.extract template = m <-> (forall k, k ∈ found <-> k ∈ MacroSpec.at_or_below m))
  /\ (Macro.extract template = PatternMacro.TIMESTAMP
      <-> PatternMacro.TIMESTAMP ∈ found /\ (PatternMacro.DAILY ∉ found)
          /\ (PatternMacro.SECONDLY ∉ found)).
Proof.
  intros found. split.
  - intros m Hm.
    rewrite <- Seen_of_list_eq by (apply macros_found_valid || apply at_or_below_valid).
    unfold Macro.extract. rewrite extract_code_seen. fold found.
    destruct (Seen.of_list found) as [[] [] [] [] []];
      destruct m; cbn in Hm; try lia; vm_compute; split; congruence.
  - unfold Macro.extract. rewrite extract_code_seen. fold found.
    rewrite <- (bool_decide_eq_true (PatternMacro.TIMESTAMP ∈ found)).
    rewrite <- (bool_decide_eq_false (PatternMacro.DAILY ∈ found)).
    rewrite <- (bool_decide_eq_false (PatternMacro.SECONDLY ∈ found)).
    unfold Seen.of_list.
    destruct (bool_decide (PatternMacro.TIMESTAMP ∈ found)),
      (bool_decide (PatternMacro.HOURLY ∈ found)),
      (bool_decide (PatternMacro.MINUTELY ∈ found)),
      (bool_decide (PatternMacro.DAILY ∈ found)),
      (bool_decide (PatternMacro.SECONDLY ∈ found));
      vm_compute; split; (congruence || tauto || (intros (? & ? & ?); congruence)).
Qed.

(** ** [Macro::materialize] after [Macro::extract], without the mix *)

(** X6: when [extract] accepts a template (the answer is not INVALID) and the
    template does not hold [{timestamp}] together with [{hour}] or
    [{minute}], materializing the template for the macro [extract] answers
    leaves no recognized placeholder, in any letter case. *)
Theorem materialize_extract_clean (template : string) (w : Z) :
  Macro.extract template <> PatternMacro.INVALID ->
  (PatternMacro.TIMESTAMP ∈ MacroSpec.macros_found template ->
   (PatternMacro.HOURLY ∉ MacroSpec.macros_found template)
   /\ (PatternMacro.MINUTELY ∉ MacroSpec.macros_found template)) ->
  exists s, Macro.materialize (Macro.extract template) template w = Some s
            /\ ~ MacroSpec.has_placeholder s.
Proof.
  intros Hv Hmix. apply materialize_extract_no_placeholder; [done|].
  pose proof (extract_vs_spec template) as H. cbv zeta in H.
  destruct (bool_decide (PatternMacro.TIMESTAMP ∈ MacroSpec.macros_found template))
    eqn:Et; [|done].
  apply bool_decide_eq_true in Et. destruct (Hmix Et) as [Hh Hm].
  apply (bool_decide_eq_false_2 _) in Hh. apply (bool_decide_eq_false_2 _) in Hm.
  by rewrite Hh, Hm in H.
Qed.

Lemma materialize_extract_clean_witness :
  exists s, Macro.materialize (Macro.extract "/{timestamp}/{TIMESTAMP}")
              "/{timestamp}/{TIMESTAMP}" 1700000000 = Some s
            /\ ~ MacroSpec.has_placeholder s.
Proof.
  apply (materialize_extract_clean "/{timestamp}/{TIMESTAMP}" 1700000000).
  - discriminate.
  - intros _. split; intros H; vm_compute in H;
      repeat (apply elem_of_cons in H as [H|H]; [discriminate H|]);
      by apply elem_of_nil in H.
Defined.

(** ** The node map of the block manager *)

Lemma NodeEqual_eq n m : NNode.NodeEqual n m = true <-> NNode.toString n = NNode.toString m.
Proof. apply String.eqb_eq. Qed.

Lemma NodeEqual_neq n m : NNode.NodeEqual n m = false <-> NNode.toString n <> NNode.toString m.
Proof. apply String.eqb_neq. Qed.

Lemma data_find_None node d :
  BlockManager.data_find node d = None
  <-> NNode.toString node ∉ map (fun e => NNode.toString e.1) d.
Proof.
  induction d as [|[n ts] d IH]; cbn.
  - split; [intros _; apply not_elem_of_nil|done].
  - rewrite not_elem_of_cons. destruct (NNode.NodeEqual n node) eqn:E.
    + apply NodeEqual_eq in E. split; [done|]. intros [H _]. congruence.
    + apply NodeEqual_neq in E. rewrite IH. split; [|tauto]. intros H. split; [congruence|done].
Qed.

Lemma data_find_assign_eq node sts d :
  BlockManager.data_find node (BlockManager.data_assign node sts d) = Some sts.
Proof.
  induction d as [|[n ts] d IH]; cbn.
  - by rewrite NodeEqual_refl.
  - destruct (NNode.NodeEqual n node) eqn:E; cbn; by rewrite E.
Qed.

Lemma data_find_assign_ne node other sts d :
  NNode.NodeEqual node other = false ->
  BlockManager.data_find other (BlockManager.data_assign node sts d)
  = BlockManager.data_find other d.
Proof.
  intros Hne. induction d as [|[n ts] d IH]; cbn.
  - by rewrite Hne.
  - destruct (NNode.NodeEqual n node) eqn:E; cbn.
    + assert (NNode.NodeEqual n other = false) as ->; [|done].
      apply NodeEqual_eq in E. apply NodeEqual_neq in Hne. apply NodeEqual_neq. congruence.
    + by rewrite IH.
Qed.

Lemma keys_assign node sts d :
  map (fun e => NNode.toString e.1) (BlockManager.data_assign node sts d)
  = if bool_decide (NNode.toString node ∈ map (fun e => NNode.toString e.1) d)
    then map (fun e => NNode.toString e.1) d
    else (map (fun e => NNode.toString e.1) d ++ [NNode.toString node])%list.
Proof.
  induction d as [|[n ts] d IH]; [done|]. cbn.
  destruct (NNode.NodeEqual n node) eqn:E; cbn.
  - apply NodeEqual_eq in E. rewrite bool_decide_eq_true_2; [done|]. apply elem_of_cons. by left.
  - apply NodeEqual_neq in E. rewrite IH.
    destruct (bool_decide (NNode.toString node ∈ map _ d)) eqn:Eb.
    + apply bool_decide_eq_true in Eb. rewrite bool_decide_eq_true_2; [done|by right].
    + apply bool_decide_eq_false in Eb. rewrite bool_decide_eq_false_2; [done|].
      intros [?|?]%elem_of_cons; [congruence|done].
Qed.

(** X7: what [swap] stores for a node is what [states] reads for it
    afterwards, without any further change of the block manager; the table
    states of the other nodes and the empty specs are as before. *)
Theorem swap_then_states (N : NNode.t) (sts : TableStates) (bm : BlockManager.t) :
  BlockManager.states N (BlockManager.swap N sts bm) = (sts, BlockManager.swap N sts bm)
  /\ (forall M, NNode.NodeEqual N M = false ->
        BlockManager.data_find M (BlockManager.data_ (BlockManager.swap N sts bm))
        = BlockManager.data_find M (BlockManager.data_ bm))
  /\ BlockManager.emptySpecs (BlockManager.swap N sts bm) = BlockManager.emptySpecs bm.
Proof.
  split; [|split; [|done]].
  - unfold BlockManager.states, BlockManager.swap. cbn. by rewrite data_find_assign_eq.
  - intros M HM. by apply data_find_assign_ne.
Qed.

Lemma keys_erase_first addr d :
  NoDup (map (fun e => NNode.toString e.1) d) ->
  NoDup (map (fun e => NNode.toString e.1) (BlockManager.erase_first addr d))
  /\ (forall a, a ∈ map (fun e => NNode.toString e.1) (BlockManager.erase_first addr d)
         <-> a ∈ map (fun e => NNode.toString e.1) d /\ a <> addr).
Proof.
  induction d as [|[n ts] d IH]; cbn; intros Hnd.
  - split; [done|]. intros a. rewrite elem_of_nil. tauto.
  - apply NoDup_cons in Hnd as [Hn Hnd].
    destruct (String.eqb addr (NNode.toString n)) eqn:E.
    + apply String.eqb_eq in E. subst addr. split; [done|].
      intros a. rewrite elem_of_cons. split; [|tauto].
      intros Ha. split; [tauto|]. intros ->. done.
    + apply String.eqb_neq in E. destruct (IH Hnd) as [IH1 IH2]. cbn. split.
      * apply NoDup_cons. split; [|done]. rewrite IH2. tauto.
      * intros a. rewrite !elem_of_cons, IH2. split; [|tauto].
        intros [->|[? ?]]; split; auto.
Qed.

Lemma data_find_erase_ne addr other d :
  NNode.toString other <> addr ->
  BlockManager.data_find other (BlockManager.erase_first addr d)
  = BlockManager.data_find other d.
Proof.
  intros Hne. induction d as [|[n ts] d IH]; [done|]. cbn.
  destruct (String.eqb addr (NNode.toString n)) eqn:E; cbn.
  - apply String.eqb_eq in E.
    assert (NNode.NodeEqual n other = false) as ->; [|done].
    apply NodeEqual_neq. congruence.
  - by rewrite IH.
Qed.

(** X8: the operations that change the node map keep its keys distinct:
    [states] (which may add an entry), [swap] and [removeNode]. *)
Theorem unique_keys_kept (N : NNode.t) (sts : TableStates) (addr : string)
    (bm : BlockManager.t) :
  BlockManager.unique_keys bm ->
  BlockManager.unique_keys (BlockManager.states N bm).2
  /\ BlockManager.unique_keys (BlockManager.swap N sts bm)
  /\ BlockManager.unique_keys (BlockManager.removeNode addr bm).
Proof.
  unfold BlockManager.unique_keys, BlockManager.keys. intros Hnd. repeat split.
  - unfold BlockManager.states.
    destruct (BlockManager.data_find N (BlockManager.data_ bm)) eqn:E; [done|].
    cbn. rewrite map_app. apply NoDup_app. split; [done|]. split.
    + intros a Ha [->|H]%elem_of_cons; [|by apply elem_of_nil in H].
      by apply data_find_None in E.
    + apply NoDup_singleton.
  - unfold BlockManager.swap. cbn. rewrite keys_assign.
    destruct (bool_decide _) eqn:E; [done|]. apply bool_decide_eq_false in E.
    apply NoDup_app. split; [done|]. split; [|apply NoDup_singleton].
    intros a Ha [->|H]%elem_of_cons; [done|by apply elem_of_nil in H].
  - by apply keys_erase_first.
Qed.

Lemma unique_keys_kept_witness :
  let A := NNode.mk "A" true 0 in
  let B := NNode.mk "B" false 0 in
  let bm := BlockManager.mk [(A, []); (B, [])] ∅ in
  BlockManager.unique_keys (BlockManager.states (NNode.mk "C" true 0) bm).2
  /\ BlockManager.unique_keys
       (BlockManager.swap (NNode.mk "C" true 0) [("t", TableState.mk "t" [])] bm)
  /\ BlockManager.unique_keys (BlockManager.removeNode "A" bm).
Proof.
  cbv zeta.
  apply (unique_keys_kept (NNode.mk "C" true 0) [("t", TableState.mk "t" [])] "A"
           (BlockManager.mk [(NNode.mk "A" true 0, []); (NNode.mk "B" false 0, [])] ∅)).
  unfold BlockManager.unique_keys. cbn.
  apply NoDup_cons. split.
  - intros H. apply elem_of_cons in H as [H|H]; [discriminate H|by apply elem_of_nil in H].
  - apply NoDup_singleton.
Defined.

(** X9: with distinct keys, [removeNode addr] leaves no entry for a node of
    address [addr], so that [states] reads no table state for it afterwards,
    and it leaves the entries of all other nodes and the empty specs as they
    were. *)
Theorem removeNode_removes (addr : string) (bm : BlockManager.t) :
  BlockManager.unique_keys bm ->
  (forall N, NNode.toString N = addr ->
     BlockManager.data_find N (BlockManager.data_ (BlockManager.removeNode addr bm)) = None
     /\ (BlockManager.states N (BlockManager.removeNode addr bm)).1 = [])
  /\ (forall M, NNode.toString M <> addr ->
        BlockManager.data_find M (BlockManager.data_ (BlockManager.removeNode addr bm))
        = BlockManager.data_find M (BlockManager.data_ bm))
  /\ BlockManager.emptySpecs (BlockManager.removeNode addr bm) = BlockManager.emptySpecs bm.
Proof.
  intros Hnd. split; [|split; [|done]].
  - intros N HN.
    assert (BlockManager.data_find N
              (BlockManager.data_ (BlockManager.removeNode addr bm)) = None) as E.
    { apply data_find_None. cbn.
      destruct (keys_erase_first addr (BlockManager.data_ bm) Hnd) as [_ H].
      rewrite H. intros [_ Hne]. done. }
    split; [done|]. unfold BlockManager.states. by rewrite E.
  - intros M HM. by apply data_find_erase_ne.
Qed.

Lemma removeNode_removes_witness :
  let A := NNode.mk "A" true 0 in
  let B := NNode.mk "B" false 0 in
  let bm := BlockManager.mk [(A, [("t", TableState.mk "t" [])]); (B, [])] ∅ in
  (forall N, NNode.toString N = "A" ->
     BlockManager.data_find N (BlockManager.data_ (BlockManager.removeNode "A" bm)) = None
     /\ (BlockManager.states N (BlockManager.removeNode "A" bm)).1 = [])
  /\ (forall M, NNode.toString M <> "A" ->
        BlockManager.data_find M (BlockManager.data_ (BlockManager.removeNode "A" bm))
        = BlockManager.data_find M (BlockManager.data_ bm))
  /\ BlockManager.emptySpecs (BlockManager.removeNode "A" bm) = BlockManager.emptySpecs bm.
Proof.
  cbv zeta.
  apply (removeNode_removes "A"
           (BlockManager.mk [(NNode.mk "A" true 0, [("t", TableState.mk "t" [])]);
                             (NNode.mk "B" false 0, [])] ∅)).
  unfold BlockManager.unique_keys. cbn.
  apply NoDup_cons. split.
  - intros H. apply elem_of_cons in H as [H|H]; [discriminate H|by apply elem_of_nil in H].
  - apply NoDup_singleton.
Defined.

(** ** [BlockManager::activeSpecs], [hasSpec] and [tables] *)

Lemma foldl_specs_elem (sts : TableStates) (acc : gset string) (s : string) :
  s ∈ foldl (fun specs ts => TableState.specs ts.2 ∪ specs) acc sts
  <-> s ∈ acc \/ exists t, t ∈ sts /\ s ∈ TableState.specs t.2.
Proof.
  revert acc. induction sts as [|t sts IH]; intros acc; cbn.
  - split; [auto|]. intros [?|(t & Ht & _)]; [done|by apply elem_of_nil in Ht].
  - rewrite IH, elem_of_union. split.
    + intros [[?|?]|(t' & ? & ?)]; [right; exists t|auto|right; exists t'];
        (split; [|done]); [by left|by right].
    + intros [?|(t' & [->|?]%elem_of_cons & ?)]; [auto|auto|].
      right. by exists t'.
Qed.

Lemma activeSpecs_elem (nodes : list NNode.t) (bm : BlockManager.t) (s : string) :
  s ∈ BlockManager.activeSpecs nodes bm
  <-> exists node sts t,
        node ∈ nodes
        /\ BlockManager.data_find node (BlockManager.data_ bm) = Some sts
        /\ t ∈ sts /\ s ∈ TableState.specs t.2.
Proof.
  unfold BlockManager.activeSpecs.
  assert (forall acc : gset string,
    s ∈ foldl (fun specs node =>
                 match BlockManager.data_find node (BlockManager.data_ bm) with
                 | Some states =>
                     foldl (fun specs ts => TableState.specs ts.2 ∪ specs) specs states
                 | None => specs
                 end) acc nodes
    <-> s ∈ acc \/ exists node sts t,
          node ∈ nodes
          /\ BlockManager.data_find node (BlockManager.data_ bm) = Some sts
          /\ t ∈ sts /\ s ∈ TableState.specs t.2) as H.
  { induction nodes as [|n nodes IH]; intros acc; cbn.
    - split; [auto|]. intros [?|(n & ? & ? & Hn & _)]; [done|by apply elem_of_nil in Hn].
    - rewrite IH. destruct (BlockManager.data_find n (BlockManager.data_ bm)) as [sts|] eqn:E.
      + rewrite foldl_specs_elem. split.
        * intros [[?|(t & ? & ?)]|(n' & sts' & t & ? & ? & ? & ?)]; [auto| |].
          -- right. exists n, sts, t. split; [by left|done].
          -- right. exists n', sts', t. split; [by right|done].
        * intros [?|(n' & sts' & t & [->|?]%elem_of_cons & E' & ? & ?)]; [auto| |].
          -- left. right. exists t. rewrite E in E'. injection E' as <-. done.
          -- right. by exists n', sts', t.
      + split.
        * intros [?|(n' & sts' & t & ? & ? & ? & ?)]; [auto|].
          right. exists n', sts', t. split; [by right|done].
        * intros [?|(n' & sts' & t & [->|?]%elem_of_cons & E' & ? & ?)]; [auto|congruence|].
          right. by exists n', sts', t. }
  rewrite H. split; [|auto]. intros [Hs|?]; [|done]. by apply not_elem_of_empty in Hs.
Qed.

Lemma data_find_toString (n m : NNode.t) d :
  NNode.toString n = NNode.toString m ->
  BlockManager.data_find n d = BlockManager.data_find m d.
Proof.
  intros H. induction d as [|[x ts] d IH]; [done|]. cbn.
  unfold NNode.NodeEqual. by rewrite H, IH.
Qed.

(** X10: [activeSpecs] is the set of the spec ids held by the table states
    that the map has for the nodes of the cluster; it reads the nodes'
    addresses only: two node lists with the same addresses, whatever their
    order, their [isActive()] and their sizes, give the same set. *)
Theorem activeSpecs_by_address (nodes1 nodes2 : list NNode.t) (bm : BlockManager.t) :
  (forall a, a ∈ map NNode.toString nodes1 <-> a ∈ map NNode.toString nodes2) ->
  BlockManager.activeSpecs nodes1 bm = BlockManager.activeSpecs nodes2 bm
  /\ forall s,
       s ∈ BlockManager.activeSpecs nodes1 bm
       <-> exists node sts t,
             node ∈ nodes1
             /\ BlockManager.data_find node (BlockManager.data_ bm) = Some sts
             /\ t ∈ sts /\ s ∈ TableState.specs t.2.
Proof.
  intros Hsame. split; [|apply activeSpecs_elem].
  apply set_eq. intros s. rewrite !activeSpecs_elem.
  assert (forall l1 l2 : list NNode.t,
            (forall a, a ∈ map NNode.toString l1 -> a ∈ map NNode.toString l2) ->
            (exists node sts t, node ∈ l1
               /\ BlockManager.data_find node (BlockManager.data_ bm) = Some sts
               /\ t ∈ sts /\ s ∈ TableState.specs t.2) ->
            exists node sts t, node ∈ l2
               /\ BlockManager.data_find node (BlockManager.data_ bm) = Some sts
               /\ t ∈ sts /\ s ∈ TableState.specs t.2) as H.
  { intros l1 l2 Hsub (n & sts & t & Hn & E & Ht & Hs).
    assert (NNode.toString n ∈ map NNode.toString l2) as Hin.
    { apply Hsub, list_elem_of_fmap. by exists n. }
    apply list_elem_of_fmap in Hin as (m & Hm & Hin).
    exists m, sts, t. split; [done|]. split; [|done].
    by rewrite <- (data_find_toString n m). }
  split; apply H; intros a; apply Hsame.
Qed.

Lemma activeSpecs_by_address_witness :
  let bm := BlockManager.mk
              [(NNode.mk "A" true 1, [("t", TableState.mk "t" [TableState.mkBlock "k1" 1])])] ∅ in
  let nodes1 := [NNode.mk "A" true 1; NNode.mk "B" true 2] in
  let nodes2 := [NNode.mk "B" false 9; NNode.mk "A" false 0] in
  BlockManager.activeSpecs nodes1 bm = BlockManager.activeSpecs nodes2 bm
  /\ forall s,
       s ∈ BlockManager.activeSpecs nodes1 bm
       <-> exists node sts t,
             node ∈ nodes1
             /\ BlockManager.data_find node (BlockManager.data_ bm) = Some sts
             /\ t ∈ sts /\ s ∈ TableState.specs t.2.
Proof.
  apply (activeSpecs_by_address
           [NNode.mk "A" true 1; NNode.mk "B" true 2]
           [NNode.mk "B" false 9; NNode.mk "A" false 0]).
  intros a. cbn. rewrite !elem_of_cons, !elem_of_nil. tauto.
Defined.

Lemma find_elem {V : Type} (k : string) (m : list (string * V)) (v : V) :
  Macro.find k m = Some v -> (k, v) ∈ m.
Proof.
  induction m as [|[k' v'] m IH]; [done|]. cbn.
  destruct (decide (k = k')) as [->|]; [intros [= ->]; by left|].
  intros H. right. by apply IH.
Qed.

(** X11: a spec that [hasSpec] reports for a table on a node of the cluster
    is an empty spec or one of the active specs: the two sets [assign]
    consults before it resets a spec. *)
Theorem hasSpec_covered (table spec : string) (N : NNode.t) (cluster : list NNode.t)
    (bm : BlockManager.t) :
  BlockManager.hasSpec table spec N bm = true ->
  N ∈ cluster ->
  spec ∈ BlockManager.emptySpecs bm \/ spec ∈ BlockManager.activeSpecs cluster bm.
Proof.
  unfold BlockManager.hasSpec. intros H HN.
  destruct (bool_decide (spec ∈ BlockManager.emptySpecs_ bm)) eqn:E.
  { left. by apply bool_decide_eq_true in E. }
  right. destruct (BlockManager.data_find N (BlockManager.data_ bm)) as [sts|] eqn:Ed; [|done].
  destruct (Macro.find table sts) as [ts|] eqn:Et; [|done].
  apply bool_decide_eq_true in H. apply find_elem in Et.
  apply activeSpecs_elem. by exists N, sts, (table, ts).
Qed.

Lemma hasSpec_covered_witness :
  let A := NNode.mk "A" true 1 in
  let bm := BlockManager.mk
              [(A, [("t", TableState.mk "t" [TableState.mkBlock "k1" 1])])] ∅ in
  "k1" ∈ BlockManager.emptySpecs bm \/ "k1" ∈ BlockManager.activeSpecs [A] bm.
Proof.
  apply (hasSpec_covered "t" "k1" (NNode.mk "A" true 1) [NNode.mk "A" true 1]).
  - reflexivity.
  - by left.
Defined.

Lemma tables_loop_mono limit d tables x :
  x ∈ tables -> x ∈ BlockManager.tables_loop limit d tables.
Proof.
  revert tables. induction d as [|[n sts] d IH]; intros tables Hx; [done|]. cbn.
  assert (x ∈ BlockManager.emplace_tables sts tables) by (apply emplace_tables_spec; auto).
  destruct (_ <=? _)%nat; [done|by apply IH].
Qed.

Lemma tables_loop_size limit d tables :
  (size tables <= size (BlockManager.tables_loop limit d tables))%nat.
Proof.
  apply subseteq_size. intros x. apply tables_loop_mono.
Qed.

Lemma tables_loop_enough limit d tables :
  (limit <= size (BlockManager.tables_loop limit d tables))%nat
  \/ forall node sts t, (node, sts) ∈ d -> t ∈ map fst sts ->
       t ∈ BlockManager.tables_loop limit d tables.
Proof.
  revert tables. induction d as [|[n sts] d IH]; intros tables; cbn.
  - right. intros ??? H. by apply elem_of_nil in H.
  - destruct (limit <=? size (BlockManager.emplace_tables sts tables))%nat eqn:E.
    + left. by apply Nat.leb_le.
    + destruct (IH (BlockManager.emplace_tables sts tables)) as [?|H]; [by left|].
      right. intros node sts' t [[= -> ->]|Hin]%elem_of_cons Ht.
      * apply tables_loop_mono, emplace_tables_spec. by right.
      * by apply (H node sts').
Qed.

(** X12: [tables limit] returns names of table states of nodes of the
    map only, and it never falls short: it returns at least [limit] names,
    or else the names of all table states of all nodes of the map. *)
Theorem tables_enough (limit : nat) (bm : BlockManager.t) :
  (forall x, x ∈ BlockManager.tables limit bm ->
     exists node sts, (node, sts) ∈ BlockManager.data_ bm /\ x ∈ map fst sts)
  /\ ((limit <= size (BlockManager.tables limit bm))%nat
      \/ forall node sts t,
           (node, sts) ∈ BlockManager.data_ bm -> t ∈ map fst sts ->
           t ∈ BlockManager.tables limit bm).
Proof.
  split.
  - intros x [H|H]%tables_loop_subset; [|done]. by apply not_elem_of_empty in H.
  - apply tables_loop_enough.
Qed.

(** ** [SpecRepo::lost], once more *)

Lemma lost_list_clears addr (ptrs : list SpecPtr) (σ : Store) (n : nat) (p : SpecPtr) :
  p ∈ ptrs ->
  SpecRepo.on_node addr (foldl (SpecRepo.lost_spec addr) (σ, n) ptrs).1 p = false.
Proof.
  intros Hp. destruct (lost_list addr ptrs σ n) as [H _]. cbv zeta in H.
  unfold SpecRepo.on_node at 1. rewrite H, bool_decide_eq_true_2 by done. cbn [andb].
  destruct (SpecRepo.on_node addr σ p) eqn:E.
  - by destruct (σ !! p).
  - exact E.
Qed.

Lemma lost_list_noop addr (ptrs : list SpecPtr) (σ : Store) (n : nat) :
  (forall p, p ∈ ptrs -> SpecRepo.on_node addr σ p = false) ->
  foldl (SpecRepo.lost_spec addr) (σ, n) ptrs = (σ, n).
Proof.
  induction ptrs as [|p ptrs IH]; intros H; [done|]. cbn [foldl].
  rewrite lost_spec_miss by (apply H; by left).
  apply IH. intros q Hq. apply H. by right.
Qed.

(** X13: after [lost addr] no spec a registry points to is assigned to the
    node of address [addr] any more, so that a second [lost addr] resets
    nothing: it returns 0 and leaves the specs as they are. *)
Theorem lost_idempotent (addr : string) (ts : TableService.t) (σ : Store) :
  let σ' := (SpecRepo.lost addr ts σ).1 in
  (forall p, p ∈ SpecRepo.pointers ts -> SpecRepo.on_node addr σ' p = false)
  /\ SpecRepo.lost addr ts σ' = (σ', 0%nat).
Proof.
  intros σ'. assert (forall p, p ∈ SpecRepo.pointers ts ->
                       SpecRepo.on_node addr σ' p = false) as H.
  { intros p Hp. unfold σ'. rewrite lost_pointers. by apply lost_list_clears. }
  split; [exact H|]. rewrite lost_pointers. by apply lost_list_noop.
Qed.

(** ** [SpecRepo::assign]: what a turn of the loop does to the spec it visits *)

Section AssignTurn.
Variable needSync : Spec.t -> bool.
Variable task : nat -> option NNode.t -> Spec.t -> TaskState.
Variable nodes : list NNode.t.
Variable activeSpecs emptySpecs : gset string.

Let body := SpecRepo.assign_spec needSync task nodes activeSpecs emptySpecs.
Let reset := SpecRepo.reset_if_lost activeSpecs emptySpecs.
Let covered (spec : Spec.t) : Prop :=
  Spec.id spec ∈ activeSpecs \/ Spec.id spec ∈ emptySpecs.
Let good (spec : Spec.t) : Prop :=
  exists n, Spec.affinity spec = Some n /\ n ∈ nodes /\ NNode.isActive n = true.

Lemma reset_id (spec : Spec.t) : Spec.id (reset spec) = Spec.id spec.
Proof. unfold reset, SpecRepo.reset_if_lost. by destruct (_ && _ && _). Qed.

Lemma reset_covered (spec : Spec.t) :
  Spec.assigned spec = true -> covered spec -> reset spec = spec.
Proof.
  intros Ha Hc. unfold reset, SpecRepo.reset_if_lost. rewrite Ha. cbn [andb].
  destruct Hc as [Hc|Hc].
  - by rewrite (bool_decide_eq_true_2 _ Hc).
  - rewrite (bool_decide_eq_true_2 (_ ∈ emptySpecs) Hc). by rewrite andb_false_r.
Qed.

Lemma reset_orphan (spec : Spec.t) :
  Spec.assigned spec = false \/ ~ covered spec -> Spec.assigned (reset spec) = false.
Proof.
  unfold reset, SpecRepo.reset_if_lost, covered. intros [Ha|Hc].
  - by rewrite Ha.
  - destruct (Spec.assigned spec) eqn:Ha; [|exact Ha]. cbn [andb].
    rewrite !bool_decide_eq_false_2 by tauto. done.
Qed.

(** The store after a turn holds, at the pointer visited, the spec as the
    turn leaves it; the affinity is the one the spec had when the spec was
    found assigned and not lost, and a node just seen active otherwise. *)
Lemma assign_spec_turn (p : SpecPtr) (st : SpecRepo.AssignState) (spec : Spec.t) :
  SpecRepo.store st !! p = Some spec ->
  match body p st with
  | Next st' =>
      exists spec',
        SpecRepo.store st' = <[p := spec']> (SpecRepo.store st)
        /\ Spec.id spec' = Spec.id spec
        /\ (Spec.assigned (reset spec) = true
            /\ Spec.affinity spec' = Spec.affinity (reset spec)
            /\ SpecRepo.idx st' = SpecRepo.idx st
            \/ Spec.assigned (reset spec) = false
               /\ exists idx', SpecRepo.place (length nodes) nodes (length nodes)
                                 (SpecRepo.idx st) (SpecRepo.idx st)
                               = Some (Some (default (NNode.mk "" false 0)
                                               (Spec.affinity spec'), idx'))
                               /\ is_Some (Spec.affinity spec')
                               /\ SpecRepo.idx st' = idx')
        /\ (needSync spec' = false /\ SpecRepo.numTasks st' = SpecRepo.numTasks st
            /\ Spec.state spec' = Spec.state (reset spec)
            \/ SpecRepo.numTasks st' = S (SpecRepo.numTasks st))
  | Return _ => Spec.assigned (reset spec) = false
  end.
Proof.
  intros Hspec. unfold body, SpecRepo.assign_spec. rewrite Hspec. fold (reset spec).
  destruct (Spec.assigned (reset spec)) eqn:Ea; cbn [negb].
  - destruct (needSync (reset spec)) eqn:En.
    + eexists. split; [reflexivity|]. cbn.
      destruct (task _ _ _); cbn; (split; [apply reset_id|]); (split; [by left|by right]).
    + eexists. split; [reflexivity|]. cbn.
      split; [apply reset_id|]. split; [by left|by left].
  - destruct (SpecRepo.place _ _ _ _ _) as [[[n idx']|]|] eqn:Ep; [|done|done].
    assert (Spec.id (Spec.set_affinity (Some n) (reset spec)) = Spec.id spec) as Hid.
    { cbn. apply reset_id. }
    destruct (needSync _) eqn:En.
    + eexists. split; [reflexivity|]. cbn.
      destruct (task _ _ _); cbn; (split; [apply reset_id|]);
        (split; [right; split; [done|]; exists idx'; by eauto|by right]).
    + eexists. split; [reflexivity|]. cbn. split; [apply reset_id|].
      split; [right; split; [done|]; exists idx'; by eauto|]. left. by rewrite En.
Qed.

(** *** The frame of the loop *)

Lemma for_each_frame (l : list SpecPtr) (st : SpecRepo.AssignState) :
  let frame (k : nat) (σ' : Store) :=
    (SpecRepo.numTasks st <= k <= SpecRepo.numTasks st + length l)%nat
    /\ (forall q, q ∉ l -> σ' !! q = SpecRepo.store st !! q)
    /\ (forall q, Spec.id <$> σ' !! q = Spec.id <$> SpecRepo.store st !! q) in
  match for_each body l st with
  | Next st' => frame (SpecRepo.numTasks st') (SpecRepo.store st')
  | Return (Some (k, sz, σ')) => sz = length nodes /\ frame k σ'
  | Return None => True
  end.
Proof.
  cbv zeta. revert st. induction l as [|p l IH]; intros st.
  { cbn. split; [lia|]. done. }
  cbn [for_each length].
  destruct (SpecRepo.store st !! p) as [spec|] eqn:E.
  2:{ assert (body p st = Next st) as ->.
      { unfold body, SpecRepo.assign_spec. by rewrite E. }
      specialize (IH st).
      destruct (for_each body l st) as [st'|[[[k sz] σ']|]]; [| |done].
      - destruct IH as (? & H1 & ?). split; [lia|]. split; [|done].
        intros q Hq. apply H1. intros ?. apply Hq. by right.
      - destruct IH as (? & ? & H1 & ?). split; [done|]. split; [lia|]. split; [|done].
        intros q Hq. apply H1. intros ?. apply Hq. by right. }
  pose proof (assign_spec_turn p st spec E) as Ht.
  pose proof (assign_spec_step needSync task nodes activeSpecs emptySpecs p st) as Hs.
  rewrite E in Hs. fold body in Hs.
  destruct (body p st) as [st1|[[[k sz] σ']|]]; [| |done].
  - destruct Ht as (spec' & Hst & Hid & _ & Hn).
    assert (SpecRepo.numTasks st <= SpecRepo.numTasks st1 <= S (SpecRepo.numTasks st))%nat
      as Hk by (destruct Hn as [(_ & -> & _)| ->]; lia).
    assert (forall q, Spec.id <$> SpecRepo.store st1 !! q = Spec.id <$> SpecRepo.store st !! q)
      as Hids.
    { intros q. rewrite Hst, lookup_insert.
      destruct (decide (p = q)) as [<-|]; [|done]. rewrite E. cbn. by rewrite Hid. }
    assert (forall q, q <> p -> SpecRepo.store st1 !! q = SpecRepo.store st !! q) as Hout.
    { intros q Hq. rewrite Hst, lookup_insert. by rewrite decide_False. }
    specialize (IH st1).
    destruct (for_each body l st1) as [st'|[[[k sz] σ']|]]; [| |done].
    + destruct IH as (? & H1 & H2). split; [lia|]. split.
      * intros q [Hq1 Hq2]%not_elem_of_cons. by rewrite H1, Hout.
      * intros q. by rewrite H2.
    + destruct IH as (? & ? & H1 & H2). split; [done|]. split; [lia|]. split.
      * intros q [Hq1 Hq2]%not_elem_of_cons. by rewrite H1, Hout.
      * intros q. by rewrite H2.
  - destruct Hs as (-> & -> & -> & _). split; [done|]. split; [lia|]. split.
    + intros q Hq. rewrite lookup_insert, decide_False; [done|].
      intros ->. apply Hq. by left.
    + intros q. rewrite lookup_insert.
      destruct (decide (p = q)) as [<-|]; [|done]. rewrite E. cbn.
      f_equal. apply reset_id.
Qed.

(** *** A spec that is assigned and not lost *)

Lemma for_each_keeps (l : list SpecPtr) (st : SpecRepo.AssignState)
    (p : SpecPtr) (spec : Spec.t) :
  SpecRepo.store st !! p = Some spec ->
  Spec.assigned spec = true -> covered spec ->
  let kept (σ' : Store) :=
    exists spec', σ' !! p = Some spec'
                  /\ Spec.affinity spec' = Spec.affinity spec
                  /\ Spec.id spec' = Spec.id spec in
  match for_each body l st with
  | Next st' => kept (SpecRepo.store st')
  | Return (Some (_, _, σ')) => kept σ'
  | Return None => True
  end.
Proof.
  cbv zeta. revert st spec. induction l as [|q l IH]; intros st spec Hp Ha Hc.
  { cbn. by exists spec. }
  cbn [for_each].
  destruct (SpecRepo.store st !! q) as [sq|] eqn:E.
  2:{ assert (body q st = Next st) as ->.
      { unfold body, SpecRepo.assign_spec. by rewrite E. }
      by apply IH. }
  pose proof (assign_spec_turn q st sq E) as Ht.
  pose proof (assign_spec_step needSync task nodes activeSpecs emptySpecs q st) as Hs.
  rewrite E in Hs. fold body in Hs.
  destruct (decide (q = p)) as [->|Hne].
  - rewrite Hp in E. injection E as <-.
    pose proof (reset_covered spec Ha Hc) as Hr. rewrite Hr in Ht.
    destruct (body p st) as [st1|r]; [|congruence].
    destruct Ht as (spec' & Hst & Hid & [(_ & Haff & _)|[? _]] & _); [|congruence].
    assert (SpecRepo.store st1 !! p = Some spec') as Hp1.
    { rewrite Hst, lookup_insert. by rewrite decide_True. }
    assert (Spec.assigned spec' = true) as Ha1.
    { unfold Spec.assigned in *. by rewrite Haff. }
    assert (covered spec') as Hc1 by (unfold covered; by rewrite Hid).
    pose proof (IH st1 spec' Hp1 Ha1 Hc1) as H. rewrite Haff, Hid in H. exact H.
  - destruct (body q st) as [st1|[[[k sz] σ']|]]; [| |done].
    + destruct Ht as (spec' & Hst & _).
      apply IH; [|done..]. rewrite Hst, lookup_insert. by rewrite decide_False.
    + destruct Hs as (_ & _ & -> & _). exists spec.
      rewrite lookup_insert. by rewrite decide_False.
Qed.

(** *** A spec that is not assigned, or lost *)

Lemma place_good (idx : nat) (n : NNode.t) (idx' : nat) :
  SpecRepo.place (length nodes) nodes (length nodes) idx idx = Some (Some (n, idx')) ->
  n ∈ nodes /\ NNode.isActive n = true.
Proof. apply place_active. Qed.

Lemma for_each_recovers (l : list SpecPtr) (st : SpecRepo.AssignState)
    (p : SpecPtr) (spec : Spec.t) :
  (exists n, n ∈ nodes /\ NNode.isActive n = true) ->
  (SpecRepo.idx st < length nodes)%nat ->
  SpecRepo.store st !! p = Some spec ->
  Spec.assigned spec = false \/ ~ covered spec \/ good spec ->
  p ∈ l \/ good spec ->
  exists st' spec',
    for_each body l st = Next st'
    /\ SpecRepo.store st' !! p = Some spec'
    /\ Spec.id spec' = Spec.id spec
    /\ good spec'.
Proof.
  intros Hact. revert st spec. induction l as [|q l IH]; intros st spec Hidx Hp Hcase Hin.
  { destruct Hin as [Hin|Hg]; [by apply elem_of_nil in Hin|]. by exists st, spec. }
  cbn [for_each].
  destruct (for_each_places needSync task nodes activeSpecs emptySpecs [q] st Hact Hidx)
    as (st1 & Hrun & Hidx1 & _).
  cbn [for_each] in Hrun. fold body in Hrun.
  destruct (body q st) as [st1'|r] eqn:Eb; [|done]. injection Hrun as ->.
  destruct (SpecRepo.store st !! q) as [sq|] eqn:E.
  2:{ assert (st1 = st) as ->.
      { unfold body, SpecRepo.assign_spec in Eb. rewrite E in Eb. by injection Eb. }
      apply IH; [done..|]. destruct Hin as [[->|?]%elem_of_cons|?]; [congruence|auto..]. }
  pose proof (assign_spec_turn q st sq E) as Ht. rewrite Eb in Ht.
  destruct Ht as (spec' & Hst & Hid & Haff & _).
  destruct (decide (q = p)) as [->|Hne].
  - rewrite Hp in E. injection E as <-.
    assert (SpecRepo.store st1 !! p = Some spec') as Hp1.
    { rewrite Hst, lookup_insert. by rewrite decide_True. }
    assert (good spec') as Hg.
    { destruct Haff as [(Ha & Haff & _)|(Ha & idx' & Hpl & [n Hn] & _)].
      - destruct Hcase as [Hcase|[Hcase|(n & Hn & Hin' & Hactn)]].
        + by rewrite reset_orphan in Ha by auto.
        + by rewrite reset_orphan in Ha by auto.
        + destruct (decide (Spec.id spec ∈ activeSpecs \/ Spec.id spec ∈ emptySpecs)) as [Hc|Hc].
          * assert (Spec.assigned spec = true) as Has.
            { unfold Spec.assigned. by rewrite Hn. }
            rewrite (reset_covered spec Has Hc) in Haff.
            exists n. by rewrite Haff.
          * by rewrite reset_orphan in Ha by auto.
      - rewrite Hn in Hpl. cbn in Hpl. apply place_good in Hpl as [? ?]. by exists n. }
    destruct (IH st1 spec' Hidx1 Hp1) as (st' & s' & -> & Hs' & Hid' & Hg'); [auto|auto|].
    exists st', s'. rewrite Hid' , Hid. done.
  - apply IH; [done| |done|].
    + rewrite Hst, lookup_insert. by rewrite decide_False.
    + destruct Hin as [[->|?]%elem_of_cons|?]; [congruence|auto..].
Qed.

End AssignTurn.

(** ** Assignment totality *)




(** ** [SpecRepo::assign] as a whole *)

(** X14: [assign] always returns (the exception of [nodes.at] is never met
    and the placement loop ends), its second number is the number of nodes
    of the snapshot and its first at most the number of registry entries;
    it leaves every spec no registry points to as it is, and no spec
    appears, disappears or changes its id. *)
Theorem assign_frame (needSync : Spec.t -> bool)
    (task : nat -> option NNode.t -> Spec.t -> TaskState)
    (cluster : list NNode.t) (bm : BlockManager.t) (ts : TableService.t) (σ : Store) :
  exists (tasksSent : nat) (σ' : Store),
    SpecRepo.assign needSync task cluster bm ts σ = Some (tasksSent, length cluster, σ')
    /\ (tasksSent <= length (SpecRepo.pointers ts))%nat
    /\ (forall q, q ∉ SpecRepo.pointers ts -> σ' !! q = σ !! q)
    /\ (forall q, Spec.id <$> σ' !! q = Spec.id <$> σ !! q).
Proof.
  unfold SpecRepo.assign. destruct (length cluster =? 0)%nat eqn:E.
  { apply Nat.eqb_eq in E. rewrite E. exists 0%nat, σ. split; [done|]. split; [lia|done]. }
  apply Nat.eqb_neq in E. rewrite for_each_registries.
  set (st0 := {| SpecRepo.store := σ; SpecRepo.idx := 0; SpecRepo.numTasks := 0 |}).
  pose proof (for_each_frame needSync task (SpecRepo.sort_by_size cluster)
                (BlockManager.activeSpecs cluster bm) (BlockManager.emptySpecs bm)
                (SpecRepo.pointers ts) st0) as H.
  pose proof (for_each_no_exception needSync task (SpecRepo.sort_by_size cluster)
                (BlockManager.activeSpecs cluster bm) (BlockManager.emptySpecs bm)
                (SpecRepo.pointers ts) st0) as Hno.
  cbv zeta in H. rewrite sort_by_size_length in H, Hno.
  destruct (for_each _ _ _) as [st|[[[k sz] σ']|]].
  - exists (SpecRepo.numTasks st), (SpecRepo.store st).
    destruct H as (? & ? & ?). split; [done|]. split; [cbn in *; lia|done].
  - destruct H as (-> & ? & ? & ?). exists k, σ'.
    split; [done|]. split; [cbn in *; lia|done].
  - exfalso. apply Hno; [cbn; lia|done].
Qed.

(** X15: a spec that is assigned and whose id is among the active specs or
    the empty specs of the block manager keeps its affinity through
    [assign], whatever the snapshot says about that node now. *)
Theorem assign_sticky (needSync : Spec.t -> bool)
    (task : nat -> option NNode.t -> Spec.t -> TaskState)
    (cluster : list NNode.t) (bm : BlockManager.t) (ts : TableService.t) (σ : Store)
    (p : SpecPtr) (spec : Spec.t) :
  σ !! p = Some spec ->
  Spec.assigned spec = true ->
  Spec.id spec ∈ BlockManager.activeSpecs cluster bm
  \/ Spec.id spec ∈ BlockManager.emptySpecs bm ->
  exists (r : nat * nat) (σ' : Store) (spec' : Spec.t),
    SpecRepo.assign needSync task cluster bm ts σ = Some (r, σ')
    /\ σ' !! p = Some spec'
    /\ Spec.affinity spec' = Spec.affinity spec
    /\ Spec.id spec' = Spec.id spec.
Proof.
  intros Hp Ha Hc.
  destruct (assign_total needSync task cluster bm ts σ) as [[r σ'] Hrun].
  exists r, σ'. rewrite Hrun. unfold SpecRepo.assign in Hrun.
  destruct (length cluster =? 0)%nat.
  { injection Hrun as _ <-. exists spec. by rewrite Hp. }
  rewrite for_each_registries in Hrun.
  set (st0 := {| SpecRepo.store := σ; SpecRepo.idx := 0; SpecRepo.numTasks := 0 |}) in *.
  pose proof (for_each_keeps needSync task (SpecRepo.sort_by_size cluster)
                (BlockManager.activeSpecs cluster bm) (BlockManager.emptySpecs bm)
                (SpecRepo.pointers ts) st0 p spec Hp Ha Hc) as H.
  cbv zeta in H.
  destruct (for_each _ _ _) as [st|[[[k sz] σ'']|]]; [| |done].
  - injection Hrun as _ <-. destruct H as (spec' & ? & ? & ?). by exists spec'.
  - injection Hrun as _ <-. destruct H as (spec' & ? & ? & ?). by exists spec'.
Qed.

Lemma assign_sticky_witness :
  let A_then := NNode.mk "A" true 0 in
  let σ : Store := <[0%nat := Spec.mk "k1" Spec.READY (Some A_then)]> ∅ in
  exists (r : nat * nat) (σ' : Store) (spec' : Spec.t),
    SpecRepo.assign (fun s => bool_decide (Spec.state s = Spec.NEW))
      (fun _ _ _ => SUCCEEDED) [NNode.mk "A" false 0; NNode.mk "B" true 0]
      (BlockManager.mk [] {["k1"]}) [("t", TableService.mkRegistry [0%nat] ∅)] σ
    = Some (r, σ')
    /\ σ' !! 0%nat = Some spec'
    /\ Spec.affinity spec' = Some A_then
    /\ Spec.id spec' = "k1".
Proof.
  apply (assign_sticky (fun s => bool_decide (Spec.state s = Spec.NEW))
           (fun _ _ _ => SUCCEEDED) [NNode.mk "A" false 0; NNode.mk "B" true 0]
           (BlockManager.mk [] {["k1"]}) [("t", TableService.mkRegistry [0%nat] ∅)]
           (<[0%nat := Spec.mk "k1" Spec.READY (Some (NNode.mk "A" true 0))]> ∅)
           0%nat (Spec.mk "k1" Spec.READY (Some (NNode.mk "A" true 0)))).
  - reflexivity.
  - reflexivity.
  - right. cbn. by apply elem_of_singleton.
Defined.

(** With an active node in the snapshot, a spec a registry points to that is
    not assigned, or whose id is neither among the active nor among the
    empty specs, ends on an active node of the snapshot. *)
Lemma assign_places_orphan needSync task cluster bm ts (σ : Store) p spec :
  (exists n, n ∈ cluster /\ NNode.isActive n = true) ->
  p ∈ SpecRepo.pointers ts ->
  σ !! p = Some spec ->
  Spec.assigned spec = false
  \/ ~ (Spec.id spec ∈ BlockManager.activeSpecs cluster bm
        \/ Spec.id spec ∈ BlockManager.emptySpecs bm) ->
  exists (tasksSent : nat) (σ' : Store) (spec' : Spec.t) (n : NNode.t),
    SpecRepo.assign needSync task cluster bm ts σ = Some (tasksSent, length cluster, σ')
    /\ σ' !! p = Some spec'
    /\ Spec.id spec' = Spec.id spec
    /\ Spec.affinity spec' = Some n
    /\ n ∈ cluster /\ NNode.isActive n = true.
Proof.
  intros (a & Ha & Hact) Hp Hspec Hcase.
  unfold SpecRepo.assign. destruct (length cluster =? 0)%nat eqn:E.
  { apply Nat.eqb_eq in E. destruct cluster; [by apply elem_of_nil in Ha|done]. }
  apply Nat.eqb_neq in E. rewrite for_each_registries.
  set (st0 := {| SpecRepo.store := σ; SpecRepo.idx := 0; SpecRepo.numTasks := 0 |}).
  destruct (for_each_recovers needSync task (SpecRepo.sort_by_size cluster)
              (BlockManager.activeSpecs cluster bm) (BlockManager.emptySpecs bm)
              (SpecRepo.pointers ts) st0 p spec)
    as (st' & spec' & -> & Hs' & Hid & n & Hn & Hin & Hactn).
  - exists a. split; [by apply sort_by_size_elem|done].
  - rewrite sort_by_size_length. cbn. lia.
  - done.
  - destruct Hcase; auto.
  - by left.
  - exists (SpecRepo.numTasks st'), (SpecRepo.store st'), spec', n.
    split; [done|]. split; [done|]. split; [done|]. split; [done|].
    split; [by apply sort_by_size_elem|done].
Qed.

(** X16: with an active node in the snapshot, [assign] runs to its end, and
    a spec a registry points to that was not assigned, or was assigned but
    is seen neither among the active nor among the empty specs, is on an
    active node of the snapshot afterwards. *)
Theorem assign_recovers (needSync : Spec.t -> bool)
    (task : nat -> option NNode.t -> Spec.t -> TaskState)
    (cluster : list NNode.t) (bm : BlockManager.t) (ts : TableService.t) (σ : Store)
    (p : SpecPtr) (spec : Spec.t) :
  (exists n, n ∈ cluster /\ NNode.isActive n = true) ->
  p ∈ SpecRepo.pointers ts ->
  σ !! p = Some spec ->
  Spec.assigned spec = false
  \/ ~ (Spec.id spec ∈ BlockManager.activeSpecs cluster bm
        \/ Spec.id spec ∈ BlockManager.emptySpecs bm) ->
  exists (tasksSent : nat) (σ' : Store) (spec' : Spec.t) (n : NNode.t),
    SpecRepo.assign needSync task cluster bm ts σ = Some (tasksSent, length cluster, σ')
    /\ σ' !! p = Some spec'
    /\ Spec.id spec' = Spec.id spec
    /\ Spec.affinity spec' = Some n
    /\ n ∈ cluster /\ NNode.isActive n = true.
Proof. intros Hact Hp Hspec Hcase. by apply assign_places_orphan. Qed.

Lemma assign_recovers_witness :
  let B := NNode.mk "B" true 5 in
  let gone := Spec.mk "k1" Spec.READY (Some (NNode.mk "A" true 0)) in
  let σ : Store := <[0%nat := gone]> ∅ in
  let ts : TableService.t := [("t", TableService.mkRegistry [0%nat] {["k1"]})] in
  exists (tasksSent : nat) (σ' : Store) (spec' : Spec.t) (n : NNode.t),
    SpecRepo.assign (fun s => bool_decide (Spec.state s = Spec.NEW))
      (fun _ _ _ => SUCCEEDED) [NNode.mk "A" false 0; B] (BlockManager.mk [] ∅) ts σ
    = Some (tasksSent, 2%nat, σ')
    /\ σ' !! 0%nat = Some spec'
    /\ Spec.id spec' = "k1"
    /\ Spec.affinity spec' = Some n
    /\ n ∈ [NNode.mk "A" false 0; B] /\ NNode.isActive n = true.
Proof.
  apply (assign_recovers (fun s => bool_decide (Spec.state s = Spec.NEW))
           (fun _ _ _ => SUCCEEDED) [NNode.mk "A" false 0; NNode.mk "B" true 5]
           (BlockManager.mk [] ∅) [("t", TableService.mkRegistry [0%nat] {["k1"]})]
           (<[0%nat := Spec.mk "k1" Spec.READY (Some (NNode.mk "A" true 0))]> ∅)
           0%nat (Spec.mk "k1" Spec.READY (Some (NNode.mk "A" true 0)))).
  - exists (NNode.mk "B" true 5). split; [|reflexivity].
    apply elem_of_cons. right. apply elem_of_cons. by left.
  - apply elem_of_cons. by left.
  - reflexivity.
  - right. intros [H|H]; cbn in H; by apply not_elem_of_empty in H.
Defined.

(** X17: failover.  When the node of address [addr] is given up with
    [lost addr], the next [assign] that sees an active node leaves every
    spec that was on that node on an active node of its snapshot. *)
Theorem lost_then_assign (needSync : Spec.t -> bool)
    (task : nat -> option NNode.t -> Spec.t -> TaskState)
    (cluster : list NNode.t) (bm : BlockManager.t) (ts : TableService.t) (σ : Store)
    (addr : string) (p : SpecPtr) :
  (exists n, n ∈ cluster /\ NNode.isActive n = true) ->
  p ∈ SpecRepo.pointers ts ->
  SpecRepo.on_node addr σ p = true ->
  exists (tasksSent : nat) (σ' : Store) (spec' : Spec.t) (n : NNode.t),
    SpecRepo.assign needSync task cluster bm ts (SpecRepo.lost addr ts σ).1
    = Some (tasksSent, length cluster, σ')
    /\ σ' !! p = Some spec'
    /\ Spec.affinity spec' = Some n
    /\ n ∈ cluster /\ NNode.isActive n = true.
Proof.
  intros Hact Hp Hon.
  destruct (σ !! p) as [spec|] eqn:Hspec;
    [|by unfold SpecRepo.on_node in Hon; rewrite Hspec in Hon].
  assert ((SpecRepo.lost addr ts σ).1 !! p = Some (SpecRepo.resetSpec spec)) as Hl.
  { rewrite lost_pointers.
    destruct (lost_list addr (SpecRepo.pointers ts) σ 0) as [H _]. cbv zeta in H.
    by rewrite H, Hon, bool_decide_eq_true_2, Hspec. }
  destruct (assign_places_orphan needSync task cluster bm ts _ p _ Hact Hp Hl)
    as (k & σ' & spec' & n & ? & ? & ? & ? & ? & ?); [by left|].
  by exists k, σ', spec', n.
Qed.

Lemma lost_then_assign_witness :
  let A := NNode.mk "A" false 0 in
  let C := NNode.mk "C" true 3 in
  let σ : Store := <[0%nat := Spec.mk "k1" Spec.READY (Some (NNode.mk "A" true 0))]> ∅ in
  let ts : TableService.t := [("t", TableService.mkRegistry [0%nat] {["k1"]})] in
  exists (tasksSent : nat) (σ' : Store) (spec' : Spec.t) (n : NNode.t),
    SpecRepo.assign (fun s => bool_decide (Spec.state s = Spec.NEW))
      (fun _ _ _ => FAILED) [A; C] (BlockManager.mk [] ∅) ts (SpecRepo.lost "A" ts σ).1
    = Some (tasksSent, 2%nat, σ')
    /\ σ' !! 0%nat = Some spec'
    /\ Spec.affinity spec' = Some n
    /\ n ∈ [A; C] /\ NNode.isActive n = true.
Proof.
  apply (lost_then_assign (fun s => bool_decide (Spec.state s = Spec.NEW))
           (fun _ _ _ => FAILED) [NNode.mk "A" false 0; NNode.mk "C" true 3]
           (BlockManager.mk [] ∅) [("t", TableService.mkRegistry [0%nat] {["k1"]})]
           (<[0%nat := Spec.mk "k1" Spec.READY (Some (NNode.mk "A" true 0))]> ∅)
           "A" 0%nat).
  - exists (NNode.mk "C" true 3). split; [|reflexivity].
    apply elem_of_cons. right. apply elem_of_cons. by left.
  - apply elem_of_cons. by left.
  - reflexivity.
Defined.

(** ** The placement loop: which node it answers *)

Lemma place_first (nodes : list NNode.t) (startId : nat) :
  let size := length nodes in
  (startId < size)%nat ->
  forall fuel j k n,
    (fuel + j = size)%nat -> (j <= k)%nat -> (k < size)%nat ->
    (forall i m, (j <= i)%nat -> (i < k)%nat ->
                 nodes !! ((startId + i) `mod` size)%nat = Some m ->
                 NNode.isActive m = false) ->
    nodes !! ((startId + k) `mod` size)%nat = Some n ->
    NNode.isActive n = true ->
    SpecRepo.place fuel nodes size startId ((startId + j) `mod` size)%nat
    = Some (Some (n, ((startId + k + 1) `mod` size)%nat)).
Proof.
  intros size Hs. induction fuel as [|fuel IH]; intros j k n Hf Hjk Hk Hin Hn Ha; [lia|].
  cbn [SpecRepo.place].
  assert (0 < size)%nat as Hpos by lia.
  destruct (decide (j = k)) as [->|Hne].
  - rewrite Hn, Ha, ring_next by done. by rewrite Nat.add_assoc.
  - pose proof (Nat.mod_upper_bound (startId + j) size ltac:(lia)) as Hidx.
    destruct (nodes !! ((startId + j) `mod` size)%nat) as [m|] eqn:Em.
    2:{ apply lookup_ge_None in Em. unfold size in *. lia. }
    rewrite (Hin j m) by (done || lia). rewrite ring_next by done.
    destruct (((startId + (j + 1)) `mod` size)%nat =? startId)%nat eqn:Eb.
    + apply Nat.eqb_eq, ring_back in Eb; [lia|done|lia].
    + apply IH; [lia|lia|done| |done|done].
      intros i m' Hi1 Hi2. apply Hin; lia.
Qed.

(** X18: the placement loop answers the first active node at or after the
    cursor, in ring order, and moves the cursor one past that node. *)
Theorem place_first_active (nodes : list NNode.t) (idx k : nat) (n : NNode.t) :
  (idx < length nodes)%nat -> (k < length nodes)%nat ->
  (forall i m, (i < k)%nat ->
               nodes !! ((idx + i) `mod` length nodes)%nat = Some m ->
               NNode.isActive m = false) ->
  nodes !! ((idx + k) `mod` length nodes)%nat = Some n ->
  NNode.isActive n = true ->
  SpecRepo.place (length nodes) nodes (length nodes) idx idx
  = Some (Some (n, ((idx + k + 1) `mod` length nodes)%nat)).
Proof.
  intros Hidx Hk Hin Hn Ha.
  pose proof (place_first nodes idx Hidx (length nodes) 0 k n) as H.
  cbv zeta in H. rewrite !Nat.add_0_r, (Nat.mod_small idx) in H by lia.
  apply H; [lia|lia|done| |done|done].
  intros i m _. apply Hin.
Qed.

Lemma place_first_active_witness :
  let A := NNode.mk "A" true 1 in
  let B := NNode.mk "B" false 2 in
  let C := NNode.mk "C" false 3 in
  SpecRepo.place 3 [A; B; C] 3 1 1 = Some (Some (A, 1%nat)).
Proof.
  apply (place_first_active [NNode.mk "A" true 1; NNode.mk "B" false 2; NNode.mk "C" false 3]
           1 2 (NNode.mk "A" true 1)).
  - cbn. lia.
  - cbn. lia.
  - intros i m Hi. destruct i as [|[|i]]; [| |lia]; cbn; by intros [= <-].
  - reflexivity.
  - reflexivity.
Defined.

(** ** [std::sort] of the node snapshot, by size *)

Lemma insert_by_size_sorted n l :
  StronglySorted (fun a b => (NNode.size a <= NNode.size b)%N) l ->
  StronglySorted (fun a b => (NNode.size a <= NNode.size b)%N) (SpecRepo.insert_by_size n l).
Proof.
  induction 1 as [|m l Hl IH Hm]; cbn.
  - by repeat constructor.
  - destruct ((NNode.size m <? NNode.size n)%N || (NNode.size m =? NNode.size n)%N) eqn:E.
    + constructor; [done|]. apply Forall_forall. intros x Hx.
      rewrite insert_by_size_perm in Hx. apply elem_of_cons in Hx as [->|Hx].
      * apply orb_true_iff in E as [E|E]; [apply N.ltb_lt in E|apply N.eqb_eq in E]; lia.
      * rewrite Forall_forall in Hm. by apply Hm.
    + apply orb_false_iff in E as [E1 E2]. apply N.ltb_ge in E1. apply N.eqb_neq in E2.
      constructor; [by constructor|]. constructor; [lia|].
      eapply Forall_impl; [exact Hm|]. intros x Hx. cbn in Hx. lia.
Qed.

(** X19: [assign] walks the nodes of the snapshot - all of them, each as
    many times as the snapshot holds it - in the order of their sizes, the
    smallest first. *)
Theorem sort_by_size_sorted (cluster : list NNode.t) :
  SpecRepo.sort_by_size cluster ≡ₚ cluster
  /\ StronglySorted (fun a b => (NNode.size a <= NNode.size b)%N)
       (SpecRepo.sort_by_size cluster).
Proof.
  split; [apply sort_by_size_perm|]. unfold SpecRepo.sort_by_size.
  assert (forall acc,
            StronglySorted (fun a b => (NNode.size a <= NNode.size b)%N) acc ->
            StronglySorted (fun a b => (NNode.size a <= NNode.size b)%N)
              (foldl (fun acc n => SpecRepo.insert_by_size n acc) acc cluster)) as H.
  { induction cluster as [|n l IH]; intros acc Hacc; [done|].
    cbn. apply IH. by apply insert_by_size_sorted. }
  apply H. constructor.
Qed.

(** ** [SpecRepo::assign]: round robin, and the steady state *)

Section AssignOrder.
Variable needSync : Spec.t -> bool.
Variable task : nat -> option NNode.t -> Spec.t -> TaskState.
Variable nodes : list NNode.t.
Variable activeSpecs emptySpecs : gset string.

Let body := SpecRepo.assign_spec needSync task nodes activeSpecs emptySpecs.

Lemma place_at_active (idx : nat) (n : NNode.t) :
  nodes !! idx = Some n -> NNode.isActive n = true ->
  SpecRepo.place (length nodes) nodes (length nodes) idx idx
  = Some (Some (n, ((idx + 1) `mod` length nodes)%nat)).
Proof.
  intros Hn Ha. pose proof (lookup_lt_Some _ _ _ Hn) as Hlt.
  destruct (length nodes) as [|k] eqn:E; [lia|].
  cbn [SpecRepo.place]. by rewrite Hn, Ha.
Qed.

(** Fresh specs at distinct pointers, all nodes active: the cursor moves by
    one with every spec. *)
Lemma for_each_round_robin (l : list SpecPtr) (st : SpecRepo.AssignState) :
  (forall n, n ∈ nodes -> NNode.isActive n = true) ->
  (SpecRepo.idx st < length nodes)%nat ->
  NoDup l ->
  (forall p, p ∈ l ->
     exists spec, SpecRepo.store st !! p = Some spec /\ Spec.assigned spec = false) ->
  exists st',
    for_each body l st = Next st'
    /\ (forall q, q ∉ l -> SpecRepo.store st' !! q = SpecRepo.store st !! q)
    /\ forall i p, l !! i = Some p ->
         Spec.affinity <$> SpecRepo.store st' !! p
         = Some (nodes !! ((SpecRepo.idx st + i) `mod` length nodes)%nat).
Proof.
  intros Hall. revert st. induction l as [|p l IH]; intros st Hidx Hnd Hfresh.
  { exists st. split; [done|]. split; [done|]. intros i p Hp. by destruct i. }
  apply NoDup_cons in Hnd as [Hp Hnd].
  destruct (Hfresh p) as (spec & Hspec & Hun); [by left|].
  destruct (lookup_lt_is_Some_2 nodes (SpecRepo.idx st) Hidx) as [n Hn].
  assert (NNode.isActive n = true) as Ha by (by eapply Hall, list_elem_of_lookup_2).
  pose proof (assign_spec_turn needSync task nodes activeSpecs emptySpecs p st spec Hspec)
    as Ht.
  assert (SpecRepo.reset_if_lost activeSpecs emptySpecs spec = spec) as Hr.
  { unfold SpecRepo.reset_if_lost. by rewrite Hun. }
  rewrite Hr in Ht. cbn [for_each]. fold body in Ht.
  destruct (for_each_places needSync task nodes activeSpecs emptySpecs [p] st)
    as (st1' & Hnext & _); [exists n; split; [by eapply list_elem_of_lookup_2|done]|done|].
  cbn [for_each] in Hnext. fold body in Hnext.
  destruct (body p st) as [st1|r]; [clear Hnext|done].
  destruct Ht as (spec' & Hst & _ & [[? _]|(_ & idx' & Hpl & [m Hm] & Hidx1)] & _);
    [congruence|].
  rewrite (place_at_active _ n Hn Ha), Hm in Hpl. cbn in Hpl.
  injection Hpl as <- <-.
  assert ((SpecRepo.idx st1 < length nodes)%nat) as Hlt.
  { rewrite Hidx1. apply Nat.mod_upper_bound. lia. }
  destruct (IH st1 Hlt Hnd) as (st' & -> & Hout & Hin).
  { intros q Hq. destruct (Hfresh q) as (sq & Hsq & Hunq); [by right|].
    exists sq. split; [|done]. rewrite Hst, lookup_insert, decide_False; [done|].
    intros ->. done. }
  exists st'. split; [done|]. split.
  - intros q [Hq1 Hq2]%not_elem_of_cons.
    rewrite Hout, Hst, lookup_insert by done. by rewrite decide_False.
  - intros [|i] q Hq.
    + injection Hq as <-. rewrite Hout, Hst, lookup_insert by done.
      rewrite decide_True by done. cbn. rewrite Hm, Nat.add_0_r, Nat.mod_small by done.
      by rewrite Hn.
    + cbn in Hq. rewrite (Hin i q Hq), Hidx1.
      rewrite Nat.Div0.add_mod_idemp_l. do 3 f_equal. lia.
Qed.

(** Specs that are assigned, not lost and in no need of a task: the loop
    changes nothing and sends nothing. *)
Lemma for_each_steady (l : list SpecPtr) (st : SpecRepo.AssignState) :
  (forall p spec, p ∈ l -> SpecRepo.store st !! p = Some spec ->
     Spec.assigned spec = true
     /\ (Spec.id spec ∈ activeSpecs \/ Spec.id spec ∈ emptySpecs)
     /\ needSync spec = false) ->
  for_each body l st = Next st.
Proof.
  induction l as [|p l IH]; intros H; [done|]. cbn [for_each].
  assert (body p st = Next st) as ->; [|apply IH; intros q sq Hq; apply H; by right].
  unfold body, SpecRepo.assign_spec.
  destruct (SpecRepo.store st !! p) as [spec|] eqn:E; [|done].
  destruct (H p spec) as (Ha & Hc & Hn); [by left|done|].
  rewrite (reset_covered activeSpecs emptySpecs spec Ha Hc), Ha. cbn [negb].
  rewrite Hn, insert_id by done. by destruct st.
Qed.

End AssignOrder.

Lemma NoDup_map_inj {A B : Type} (f : A -> B) (l : list A) (x y : A) :
  NoDup (map f l) -> x ∈ l -> y ∈ l -> f x = f y -> x = y.
Proof.
  induction l as [|a l IH]; intros Hnd Hx Hy E; [by apply elem_of_nil in Hx|].
  cbn in Hnd. apply NoDup_cons in Hnd as [Ha Hnd].
  apply elem_of_cons in Hx as [->|Hx]; apply elem_of_cons in Hy as [->|Hy].
  - done.
  - exfalso. apply Ha. rewrite E. apply list_elem_of_fmap. by exists y.
  - exfalso. apply Ha. rewrite <- E. apply list_elem_of_fmap. by exists x.
  - by apply IH.
Qed.

Lemma foldl_insert_sorted (l acc : list NNode.t) :
  StronglySorted (fun a b => (NNode.size a <= NNode.size b)%N) acc ->
  StronglySorted (fun a b => (NNode.size a <= NNode.size b)%N)
    (foldl (fun acc n => SpecRepo.insert_by_size n acc) acc l).
Proof.
  revert acc. induction l as [|n l IH]; intros acc Hacc; [done|].
  cbn. apply IH. by apply insert_by_size_sorted.
Qed.

(** With pairwise distinct sizes there is one way to sort the snapshot. *)
Lemma sorted_by_size_unique (cluster nodes : list NNode.t) :
  NoDup (map NNode.size cluster) ->
  nodes ≡ₚ cluster ->
  StronglySorted (fun a b => (NNode.size a <= NNode.size b)%N) nodes ->
  nodes = SpecRepo.sort_by_size cluster.
Proof.
  intros Hnd Hperm Hsorted.
  pose proof (sort_by_size_perm cluster) as Hp.
  pose proof (foldl_insert_sorted cluster [] ltac:(constructor)) as Hs.
  fold (SpecRepo.sort_by_size cluster) in Hs.
  eapply StronglySorted_unique_strong; [|exact Hsorted|exact Hs|by rewrite Hp].
  intros x1 x2 Hx1 Hx2 H12 H21.
  apply (NoDup_map_inj NNode.size cluster); [done| | |by apply N.le_antisymm].
  - by rewrite <- Hperm.
  - by rewrite <- Hp.
Qed.

(** X20: round robin.  When the nodes of the snapshot are all active and of
    pairwise distinct sizes, and the registries point, each once, to specs
    that are not assigned, [assign] gives the i-th spec the node at
    position i modulo the number of nodes in the snapshot put in the order
    of the sizes, the smallest first. *)
Theorem assign_round_robin (needSync : Spec.t -> bool)
    (task : nat -> option NNode.t -> Spec.t -> TaskState)
    (cluster nodes : list NNode.t) (bm : BlockManager.t) (ts : TableService.t)
    (σ : Store) :
  cluster <> [] ->
  (forall n, n ∈ cluster -> NNode.isActive n = true) ->
  NoDup (map NNode.size cluster) ->
  nodes ≡ₚ cluster ->
  StronglySorted (fun a b => (NNode.size a <= NNode.size b)%N) nodes ->
  NoDup (SpecRepo.pointers ts) ->
  (forall p, p ∈ SpecRepo.pointers ts ->
     exists spec, σ !! p = Some spec /\ Spec.assigned spec = false) ->
  exists (tasksSent : nat) (σ' : Store),
    SpecRepo.assign needSync task cluster bm ts σ = Some (tasksSent, length cluster, σ')
    /\ forall i p, SpecRepo.pointers ts !! i = Some p ->
         Spec.affinity <$> σ' !! p = Some (nodes !! (i `mod` length cluster)%nat).
Proof.
  intros Hne Hall Hsizes Hperm Hsorted Hnd Hfresh.
  rewrite (sorted_by_size_unique cluster nodes Hsizes Hperm Hsorted).
  unfold SpecRepo.assign.
  destruct (length cluster =? 0)%nat eqn:E.
  { apply Nat.eqb_eq in E. by destruct cluster. }
  apply Nat.eqb_neq in E. rewrite for_each_registries.
  destruct (for_each_round_robin needSync task (SpecRepo.sort_by_size cluster)
              (BlockManager.activeSpecs cluster bm) (BlockManager.emptySpecs bm)
              (SpecRepo.pointers ts)
              {| SpecRepo.store := σ; SpecRepo.idx := 0; SpecRepo.numTasks := 0 |})
    as (st' & -> & _ & H); [| |done|done|].
  - intros n Hn. apply Hall. by apply sort_by_size_elem.
  - rewrite sort_by_size_length. cbn. lia.
  - exists (SpecRepo.numTasks st'), (SpecRepo.store st'). split; [done|].
    intros i p Hp. rewrite (H i p Hp), sort_by_size_length. done.
Qed.

Lemma assign_round_robin_witness :
  let A := NNode.mk "A" true 9 in
  let B := NNode.mk "B" true 3 in
  let σ : Store := <[0%nat := Spec.mk "k1" Spec.NEW None]>
                     (<[1%nat := Spec.mk "k2" Spec.NEW None]>
                        (<[2%nat := Spec.mk "k3" Spec.NEW None]> ∅)) in
  let ts : TableService.t := [("t", TableService.mkRegistry [0; 1]%nat ∅);
                              ("u", TableService.mkRegistry [2%nat] ∅)] in
  exists (tasksSent : nat) (σ' : Store),
    SpecRepo.assign (fun s => bool_decide (Spec.state s = Spec.NEW))
      (fun _ _ _ => SUCCEEDED) [A; B] (BlockManager.mk [] ∅) ts σ
    = Some (tasksSent, 2%nat, σ')
    /\ forall i p, SpecRepo.pointers ts !! i = Some p ->
         Spec.affinity <$> σ' !! p = Some ([B; A] !! (i `mod` 2)%nat).
Proof.
  apply (assign_round_robin (fun s => bool_decide (Spec.state s = Spec.NEW))
           (fun _ _ _ => SUCCEEDED) [NNode.mk "A" true 9; NNode.mk "B" true 3]
           [NNode.mk "B" true 3; NNode.mk "A" true 9]
           (BlockManager.mk [] ∅)
           [("t", TableService.mkRegistry [0; 1]%nat ∅);
            ("u", TableService.mkRegistry [2%nat] ∅)]
           (<[0%nat := Spec.mk "k1" Spec.NEW None]>
              (<[1%nat := Spec.mk "k2" Spec.NEW None]>
                 (<[2%nat := Spec.mk "k3" Spec.NEW None]> ∅)))).
  - discriminate.
  - intros n Hn. repeat (apply elem_of_cons in Hn as [->|Hn]; [reflexivity|]).
    by apply elem_of_nil in Hn.
  - cbn. repeat (apply NoDup_cons; split;
      [intros H; repeat (apply elem_of_cons in H as [H|H]; [discriminate H|]);
       by apply elem_of_nil in H|]).
    apply NoDup_nil. done.
  - apply Permutation_swap.
  - repeat constructor; cbn; lia.
  - cbn. repeat (apply NoDup_cons; split;
      [intros H; repeat (apply elem_of_cons in H as [H|H]; [discriminate H|]);
       by apply elem_of_nil in H|]).
    apply NoDup_nil. done.
  - intros p Hp. cbn in Hp.
    repeat (apply elem_of_cons in Hp as [->|Hp]; [eexists; split; reflexivity|]).
    by apply elem_of_nil in Hp.
Defined.

(** X21: the steady state.  When every spec the registries point to is
    assigned, is seen among the active or the empty specs, and needs no
    synchronisation, [assign] sends no task and leaves all specs as they
    are. *)
Theorem assign_steady (needSync : Spec.t -> bool)
    (task : nat -> option NNode.t -> Spec.t -> TaskState)
    (cluster : list NNode.t) (bm : BlockManager.t) (ts : TableService.t) (σ : Store) :
  (forall p spec, p ∈ SpecRepo.pointers ts -> σ !! p = Some spec ->
     Spec.assigned spec = true
     /\ (Spec.id spec ∈ BlockManager.activeSpecs cluster bm
         \/ Spec.id spec ∈ BlockManager.emptySpecs bm)
     /\ needSync spec = false) ->
  SpecRepo.assign needSync task cluster bm ts σ = Some (0%nat, length cluster, σ).
Proof.
  intros H. unfold SpecRepo.assign. destruct (length cluster =? 0)%nat eqn:E.
  { apply Nat.eqb_eq in E. by rewrite E. }
  rewrite for_each_registries, for_each_steady; done.
Qed.

Lemma assign_steady_witness :
  let A := NNode.mk "A" false 0 in
  let σ : Store := <[0%nat := Spec.mk "k1" Spec.READY (Some (NNode.mk "A" true 0))]> ∅ in
  SpecRepo.assign (fun s => bool_decide (Spec.state s = Spec.NEW))
    (fun _ _ _ => FAILED) [A] (BlockManager.mk [] {["k1"]})
    [("t", TableService.mkRegistry [0%nat] ∅)] σ
  = Some (0%nat, 1%nat, σ).
Proof.
  apply (assign_steady (fun s => bool_decide (Spec.state s = Spec.NEW))
           (fun _ _ _ => FAILED) [NNode.mk "A" false 0] (BlockManager.mk [] {["k1"]})
           [("t", TableService.mkRegistry [0%nat] ∅)]
           (<[0%nat := Spec.mk "k1" Spec.READY (Some (NNode.mk "A" true 0))]> ∅)).
  intros p spec Hp Hs. cbn in Hp. apply elem_of_cons in Hp as [->|Hp];
    [|by apply elem_of_nil in Hp].
  injection Hs as <-. split; [reflexivity|]. split; [|reflexivity].
  right. cbn. by apply elem_of_singleton.
Defined.

(** ** [SpecRepo::expire]: which nodes it talks to *)

Lemma expire_node_trace update ts (e : SpecRepo.ExpireState) (node : NNode.t) :
  let e' := SpecRepo.expire_node update ts e node in
  (NNode.isActive node = false /\ e' = e)
  \/ (NNode.isActive node = true
      /\ (exists memorySize,
            SpecRepo.ex_sizes e' = (SpecRepo.ex_sizes e ++ [(node, memorySize)])%list)
      /\ (SpecRepo.ex_tasks e' = SpecRepo.ex_tasks e
          \/ exists expired,
               expired <> ∅
               /\ SpecRepo.ex_tasks e' = (SpecRepo.ex_tasks e ++ [(node, expired)])%list)).
Proof.
  cbv zeta. unfold SpecRepo.expire_node.
  destruct (NNode.isActive node); [right|by left]. split; [done|].
  destruct (BlockManager.states node _) as [states bm].
  destruct (SpecRepo.expire_states ts states) as [[expired mem] states'].
  cbn [SpecRepo.ex_tasks SpecRepo.ex_sizes]. split; [by exists mem|].
  destruct (0 <? size expired)%nat eqn:E; [right|by left].
  exists expired. split; [|done]. intros ->. by rewrite size_empty in E.
Qed.

Lemma expire_fold_trace update ts (nodes : list NNode.t) (e : SpecRepo.ExpireState) :
  let e' := foldl (SpecRepo.expire_node update ts) e nodes in
  map fst (SpecRepo.ex_sizes e')
  = (map fst (SpecRepo.ex_sizes e) ++ filter (fun n => NNode.isActive n = true) nodes)%list
  /\ exists new,
       SpecRepo.ex_tasks e' = (SpecRepo.ex_tasks e ++ new)%list
       /\ map fst new `sublist_of` filter (fun n => NNode.isActive n = true) nodes
       /\ Forall (fun t => t.2 <> ∅) new.
Proof.
  cbv zeta. revert e. induction nodes as [|n nodes IH]; intros e.
  { cbn. rewrite app_nil_r. split; [done|]. exists []. by rewrite app_nil_r. }
  cbn [foldl]. destruct (IH (SpecRepo.expire_node update ts e n)) as (IH1 & new & IH2 & IH3 & IH4).
  rewrite IH1, IH2. clear IH1 IH2.
  destruct (expire_node_trace update ts e n) as [[Ha ->]|(Ha & [m Hm] & Ht)].
  - rewrite filter_cons_False by congruence. split; [done|]. by exists new.
  - rewrite filter_cons_True by done. rewrite Hm, map_app, <- app_assoc. split; [done|].
    destruct Ht as [->|(ex & Hex & ->)].
    + exists new. split; [done|]. split; [by apply sublist_cons|done].
    + exists ((n, ex) :: new). rewrite <- app_assoc. split; [done|].
      split; [by apply sublist_skip|]. by constructor.
Qed.

(** X22: [expire] publishes a size for every active node of the snapshot,
    in order, and for no other node; it sends its EXPIRATION tasks to
    active nodes only, at most one to each position of the snapshot, in
    order, and never one without a pair. *)
Theorem expire_active_only (update : NNode.t -> BlockManager.t -> BlockManager.t)
    (nodes : list NNode.t) (ts : TableService.t) (bm : BlockManager.t) :
  let e := SpecRepo.expire update nodes ts bm in
  let active := filter (fun n => NNode.isActive n = true) nodes in
  map fst (SpecRepo.ex_sizes e) = active
  /\ map fst (SpecRepo.ex_tasks e) `sublist_of` active
  /\ (forall node expired, (node, expired) ∈ SpecRepo.ex_tasks e ->
        NNode.isActive node = true /\ node ∈ nodes /\ expired <> ∅).
Proof.
  cbv zeta. unfold SpecRepo.expire.
  destruct (expire_fold_trace update ts nodes
              {| SpecRepo.ex_bm := BlockManager.clearEmptySpecs bm; SpecRepo.ex_tasks := [];
                 SpecRepo.ex_sizes := []; SpecRepo.numExpired := 0 |})
    as (H1 & new & H2 & H3 & H4).
  cbv zeta in *. rewrite H1, H2. cbn [SpecRepo.ex_tasks SpecRepo.ex_sizes map app].
  split; [done|]. split; [done|]. intros node expired Hin.
  assert (node ∈ filter (fun n => NNode.isActive n = true) nodes) as Hf.
  { eapply elem_of_sublist; [|exact H3]. apply list_elem_of_fmap. by exists (node, expired). }
  apply list_elem_of_filter in Hf as [? ?]. split; [done|]. split; [done|].
  rewrite Forall_forall in H4. by apply (H4 (node, expired)).
Qed.

Lemma states_find (node : NNode.t) (bm : BlockManager.t) (other : NNode.t) :
  NNode.NodeEqual node other = false ->
  BlockManager.data_find other (BlockManager.data_ (BlockManager.states node bm).2)
  = BlockManager.data_find other (BlockManager.data_ bm).
Proof.
  intros E. unfold BlockManager.states.
  destruct (BlockManager.data_find node (BlockManager.data_ bm)); [done|].
  cbn. rewrite data_find_app. cbn. rewrite E.
  by destruct (BlockManager.data_find other (BlockManager.data_ bm)).
Qed.

(** ** [SpecRepo::expire]: what it leaves in the block manager *)

Lemma expire_pred_false ts table spec :
  SpecRepo.expire_pred ts table spec <> true ->
  TableService.online (TableService.query ts table) spec = true.
Proof.
  unfold SpecRepo.expire_pred.
  destruct (TableService.query ts table) as [reg|]; [|done].
  cbn. by destruct (bool_decide _).
Qed.

Lemma expire_states_kept ts (states : TableStates) name state b :
  (name, state) ∈ (SpecRepo.expire_states ts states).2 ->
  b ∈ TableState.blocks state ->
  TableService.online (TableService.query ts (TableState.table state)) (TableState.spec b)
  = true.
Proof.
  unfold SpecRepo.expire_states.
  assert (forall acc : gset (string * string) * N * TableStates,
            (forall nm st x, (nm, st) ∈ acc.2 -> x ∈ TableState.blocks st ->
               TableService.online (TableService.query ts (TableState.table st))
                 (TableState.spec x) = true) ->
            forall nm st x,
              (nm, st) ∈ (foldl
                (fun '(expired, memorySize, seen) '(name, state) =>
                   let '(pairs, state') := TableState.expired (SpecRepo.expire_pred ts) state in
                   (pairs ∪ expired, (memorySize + TableState.rawBytes state')%N,
                    (seen ++ [(name, state')])%list)) acc states).2 ->
              x ∈ TableState.blocks st ->
              TableService.online (TableService.query ts (TableState.table st))
                (TableState.spec x) = true) as H.
  { induction states as [|[nm0 st0] states IH]; intros [[expired mem] seen] Hacc nm st x; cbn.
    - apply Hacc.
    - apply IH. intros nm' st' x' Hin Hx. cbn in Hin.
      apply elem_of_app in Hin as [Hin|Hin]; [by eapply Hacc|].
      apply list_elem_of_singleton in Hin as [= -> ->]. cbn in Hx |- *.
      apply list_elem_of_filter in Hx as [Hx _]. by apply expire_pred_false. }
  intros Hin Hb. eapply H; [|exact Hin|exact Hb].
  cbn. intros nm st x Hx. by apply elem_of_nil in Hx.
Qed.

Lemma expire_node_cleans update ts (e : SpecRepo.ExpireState) (node : NNode.t)
    (seen : list NNode.t) :
  (forall n m bm', NNode.NodeEqual n m = false ->
     BlockManager.data_find m (BlockManager.data_ (update n bm'))
     = BlockManager.data_find m (BlockManager.data_ bm')) ->
  let clean (e : SpecRepo.ExpireState) (seen : list NNode.t) :=
    forall n sts name state b,
      n ∈ seen -> NNode.isActive n = true ->
      BlockManager.data_find n (BlockManager.data_ (SpecRepo.ex_bm e)) = Some sts ->
      (name, state) ∈ sts -> b ∈ TableState.blocks state ->
      TableService.online (TableService.query ts (TableState.table state))
        (TableState.spec b) = true in
  clean e seen -> clean (SpecRepo.expire_node update ts e node) (node :: seen).
Proof.
  intros Hupd clean Hclean n sts name state b Hn Ha.
  unfold SpecRepo.expire_node.
  destruct (NNode.isActive node) eqn:Enode.
  2:{ apply elem_of_cons in Hn as [->|Hn]; [congruence|]. by apply Hclean. }
  pose proof (states_find node (update node (SpecRepo.ex_bm e))) as Hst.
  destruct (BlockManager.states node _) as [states bm].
  pose proof (expire_states_kept ts states) as Hkept.
  destruct (SpecRepo.expire_states ts states) as [[expired mem] states'].
  cbn [SpecRepo.ex_bm BlockManager.swap BlockManager.data_]. cbn in Hkept.
  destruct (NNode.NodeEqual node n) eqn:E.
  - apply NodeEqual_eq in E. rewrite <- (data_find_toString node n) by done.
    rewrite data_find_assign_eq. intros [= <-]. apply Hkept.
  - rewrite data_find_assign_ne by done. specialize (Hst n E). cbn in Hst.
    rewrite Hst, Hupd by done.
    apply elem_of_cons in Hn as [->|Hn]; [by rewrite NodeEqual_refl in E|].
    by apply Hclean.
Qed.

(** X23: when polling a node changes the block manager's entry of that node
    only, [expire] leaves, for every active node of the snapshot, only
    blocks whose spec is online in the registry of their table. *)
Theorem expire_cleans (update : NNode.t -> BlockManager.t -> BlockManager.t)
    (nodes : list NNode.t) (ts : TableService.t) (bm : BlockManager.t)
    (n : NNode.t) (sts : TableStates) (name : string) (state : TableState.t)
    (b : TableState.Block) :
  (forall n m bm', NNode.NodeEqual n m = false ->
     BlockManager.data_find m (BlockManager.data_ (update n bm'))
     = BlockManager.data_find m (BlockManager.data_ bm')) ->
  n ∈ nodes -> NNode.isActive n = true ->
  BlockManager.data_find n
    (BlockManager.data_ (SpecRepo.ex_bm (SpecRepo.expire update nodes ts bm))) = Some sts ->
  (name, state) ∈ sts -> b ∈ TableState.blocks state ->
  TableService.online (TableService.query ts (TableState.table state))
    (TableState.spec b) = true.
Proof.
  intros Hupd. unfold SpecRepo.expire.
  set (e0 := {| SpecRepo.ex_bm := BlockManager.clearEmptySpecs bm; SpecRepo.ex_tasks := [];
                SpecRepo.ex_sizes := []; SpecRepo.numExpired := 0 |}).
  assert (forall (l seen : list NNode.t) (e : SpecRepo.ExpireState),
    (forall n sts name state b,
       n ∈ seen -> NNode.isActive n = true ->
       BlockManager.data_find n (BlockManager.data_ (SpecRepo.ex_bm e)) = Some sts ->
       (name, state) ∈ sts -> b ∈ TableState.blocks state ->
       TableService.online (TableService.query ts (TableState.table state))
         (TableState.spec b) = true) ->
    forall n sts name state b,
      n ∈ l \/ n ∈ seen -> NNode.isActive n = true ->
      BlockManager.data_find n
        (BlockManager.data_ (SpecRepo.ex_bm (foldl (SpecRepo.expire_node update ts) e l)))
      = Some sts ->
      (name, state) ∈ sts -> b ∈ TableState.blocks state ->
      TableService.online (TableService.query ts (TableState.table state))
        (TableState.spec b) = true) as H.
  { induction l as [|x l IH]; intros seen e He.
    - intros n' sts' name' state' b' [Hn|Hn]; [by apply elem_of_nil in Hn|by apply He].
    - cbn [foldl]. intros n' sts' name' state' b' Hn.
      apply (IH (x :: seen)).
      + by apply expire_node_cleans.
      + rewrite !elem_of_cons in *. tauto. }
  intros Hn. apply (H nodes [] e0).
  - intros ????? Hin. by apply elem_of_nil in Hin.
  - by left.
Qed.

Lemma expire_cleans_witness :
  TableService.online
    (TableService.query [("T", TableService.mkRegistry [] {["b"; "c"]})] "T") "b" = true.
Proof.
  apply (expire_cleans (fun _ bm' => bm') [NNode.mk "W" true 0]
           [("T", TableService.mkRegistry [] {["b"; "c"]})]
           (BlockManager.mk
              [(NNode.mk "W" true 0,
                [("T", TableState.mk "T" [TableState.mkBlock "a" 10;
                                          TableState.mkBlock "b" 20])])] ∅)
           (NNode.mk "W" true 0)
           [("T", TableState.mk "T" [TableState.mkBlock "b" 20])]
           "T" (TableState.mk "T" [TableState.mkBlock "b" 20])
           (TableState.mkBlock "b" 20)).
  - reflexivity.
  - by left.
  - reflexivity.
  - reflexivity.
  - by left.
  - by left.
Defined.

(** ** Macro names as strings *)

Lemma MACRO_MAP_find (str : string) :
  Macro.find str Macro.MACRO_MAP
  = if decide (str = "date") then Some PatternMacro.DAILY
    else if decide (str = "hour") then Some PatternMacro.HOURLY
    else if decide (str = "minute") then Some PatternMacro.MINUTELY
    else if decide (str = "second") then Some PatternMacro.SECONDLY
    else if decide (str = "timestamp") then Some PatternMacro.TIMESTAMP
    else None.
Proof. reflexivity. Qed.

(** X24: [isTimeMacroString] accepts exactly the five macro names in lower
    case; [getTimeStringForMacroString] throws exactly for the strings it
    rejects, and for a macro name it gives the time string of that macro. *)
Theorem macro_string_guard (str : string) (w : Z) :
  (Macro.isTimeMacroString str = true
   <-> str ∈ ["date"; "hour"; "minute"; "second"; "timestamp"])
  /\ (Macro.getTimeStringForMacroString str w = None
      <-> Macro.isTimeMacroString str = false)
  /\ (forall m, m <> PatternMacro.INVALID -> str = MacroSpec.name m ->
        Macro.getTimeStringForMacroString str w
        = Some (Macro.getTimeStringForMacro m w "")).
Proof.
  unfold Macro.isTimeMacroString, Macro.getTimeStringForMacroString.
  rewrite MACRO_MAP_find. split; [|split].
  - rewrite bool_decide_eq_true, !elem_of_cons, elem_of_nil.
    repeat (destruct (decide _) as [->|?]; [split; [tauto|intros _; by eexists]|]).
    split; [by intros [? ?]|]. intros H. exfalso. tauto.
  - rewrite bool_decide_eq_false.
    repeat (destruct (decide _) as [->|?];
            [split; [done|intros H; exfalso; apply H; by eexists]|]).
    split; [intros _ [? ?]; done|done].
  - intros m Hm ->. by destruct m.
Qed.

(** ** [BlockManager::removeNode] and the active specs *)

Lemma data_find_erase_eq addr (N : NNode.t) d :
  NoDup (map (fun e => NNode.toString e.1) d) ->
  NNode.toString N = addr ->
  BlockManager.data_find N (BlockManager.erase_first addr d) = None.
Proof.
  intros Hnd HN. apply data_find_None.
  destruct (keys_erase_first addr d Hnd) as [_ H]. rewrite H. tauto.
Qed.

(** X25: with distinct keys, the specs of a removed node no longer count as
    active: after [removeNode addr], [activeSpecs] is what it was for the
    cluster without the nodes of address [addr]. *)
Theorem removeNode_activeSpecs (addr : string) (nodes : list NNode.t)
    (bm : BlockManager.t) :
  BlockManager.unique_keys bm ->
  BlockManager.activeSpecs nodes (BlockManager.removeNode addr bm)
  = BlockManager.activeSpecs (filter (fun n => NNode.toString n <> addr) nodes) bm.
Proof.
  intros Hnd. apply set_eq. intros s. rewrite !activeSpecs_elem. cbn.
  split; intros (n & sts & t & Hn & E & Ht & Hs).
  - destruct (decide (NNode.toString n = addr)) as [Ha|Ha].
    { by rewrite (data_find_erase_eq addr n _ Hnd Ha) in E. }
    exists n, sts, t. split; [by apply list_elem_of_filter|].
    split; [|done]. by rewrite data_find_erase_ne in E.
  - apply list_elem_of_filter in Hn as [Ha Hn].
    exists n, sts, t. split; [done|]. split; [|done]. by rewrite data_find_erase_ne.
Qed.

Lemma removeNode_activeSpecs_witness :
  let A := NNode.mk "A" true 1 in
  let B := NNode.mk "B" true 2 in
  let bm := BlockManager.mk
              [(A, [("t", TableState.mk "t" [TableState.mkBlock "k1" 1])]);
               (B, [("t", TableState.mk "t" [TableState.mkBlock "k2" 1])])] ∅ in
  BlockManager.activeSpecs [A; B] (BlockManager.removeNode "A" bm)
  = BlockManager.activeSpecs (filter (fun n => NNode.toString n <> "A") [A; B]) bm.
Proof.
  cbv zeta.
  apply (removeNode_activeSpecs "A" [NNode.mk "A" true 1; NNode.mk "B" true 2]).
  unfold BlockManager.unique_keys. cbn.
  apply NoDup_cons. split.
  - intros H. apply elem_of_cons in H as [H|H]; [discriminate H|by apply elem_of_nil in H].
  - apply NoDup_singleton.
Defined.
